(** * PaiNN representation (schnetpack/representation/painn.py)

    A shallow embedding of the equivariant compression and reconstruction
    layers, the interaction and mixing blocks and the PaiNN forward pass.

    Tensors are modelled over the real numbers: a tensor is a shape together
    with an index function, and every torch operation checks the shapes of
    its operands the way torch does (broadcasting, matching sizes, ranks).
    One-dimensional integer tensors (the edge indices and the atomic
    numbers) are lists of integers.  Python evaluation is modelled in a
    small monad that threads the text written to standard output and may
    raise one of the exceptions the evaluated operations raise. *)

From Stdlib Require Import String Ascii.
From Stdlib Require Import List ZArith Lia Reals Lra Bool Permutation.
From Stdlib Require Import FunctionalExtensionality.
Import ListNotations.

Set Implicit Arguments.

(** ** Python evaluation: exceptions and standard output *)

Module Py.

Inductive exn : Type :=
| TypeError      (* a call with the wrong number of arguments *)
| IndexError     (* an index or a dimension out of range *)
| RuntimeError   (* a size mismatch between operands *)
| ValueError.    (* tuple unpacking of the wrong length *)

Inductive outcome (A : Type) : Type :=
| Ok (a : A)
| Raise (e : exn).

Arguments Ok {A} a.
Arguments Raise {A} e.

Definition stdout := list string.

Definition py (A : Type) : Type := stdout -> outcome A * stdout.

Definition ret {A} (a : A) : py A := fun out => (Ok a, out).

Definition raise {A} (e : exn) : py A := fun out => (Raise e, out).

Definition bind {A B} (m : py A) (k : A -> py B) : py B :=
  fun out =>
    match m out with
    | (Ok a, out') => k a out'
    | (Raise e, out') => (Raise e, out')
    end.

Definition newline : string := String (ascii_of_nat 10) EmptyString.

(** [print()] with no argument writes an empty line. *)
Definition print : py unit := fun out => (Ok tt, out ++ [newline]).

Definition returns {A} (m : py A) (out : stdout) : Prop :=
  exists a out', m out = (Ok a, out').

Definition raises {A} (m : py A) (out : stdout) : Prop :=
  exists e out', m out = (Raise e, out').

End Py.

Import Py.

Declare Scope py_scope.
Delimit Scope py_scope with py.
Notation "x <- m ;; k" := (bind m (fun x => k))
  (at level 61, m at next level, right associativity) : py_scope.
Notation "' p <- m ;; k" := (bind m (fun x => let p := x in k))
  (at level 61, p pattern, m at next level, right associativity) : py_scope.
Notation "m ;;; k" := (bind m (fun _ => k))
  (at level 61, right associativity) : py_scope.
Open Scope py_scope.

(** ** Finite sums of reals *)

Fixpoint Rsum (n : nat) (f : nat -> R) : R :=
  match n with
  | O => 0%R
  | S k => (Rsum k f + f k)%R
  end.

(** ** Tensors *)

Record tensor : Type := mkT { shape : list nat; get : list nat -> R }.

Definition rank (t : tensor) : nat := length (shape t).

Definition numel (t : tensor) : nat := fold_right Nat.mul 1 (shape t).

Definition tmap (f : R -> R) (t : tensor) : tensor :=
  mkT (shape t) (fun idx => f (get t idx)).

Definition full (s : list nat) (c : R) : tensor := mkT s (fun _ => c).

Definition zeros (s : list nat) : tensor := full s 0%R.

(** *** Broadcasting *)

(** Size of one dimension after broadcasting two sizes. *)
Definition bdim (a b : nat) : option nat :=
  if a =? b then Some a
  else if a =? 1 then Some b
  else if b =? 1 then Some a
  else None.

(** Index into an operand's dimension of size [d]. *)
Definition bix (d i : nat) : nat := if d =? 1 then 0 else i.

Fixpoint broadcast_rev (s1 s2 : list nat) : option (list nat) :=
  match s1, s2 with
  | [], s => Some s
  | s, [] => Some s
  | a :: s1', b :: s2' =>
      match bdim a b, broadcast_rev s1' s2' with
      | Some d, Some r => Some (d :: r)
      | _, _ => None
      end
  end.

(** Shapes are aligned on their trailing dimensions. *)
Definition broadcast_shapes (s1 s2 : list nat) : option (list nat) :=
  option_map (@rev nat) (broadcast_rev (rev s1) (rev s2)).

Fixpoint bix_list (s idx : list nat) : list nat :=
  match s, idx with
  | d :: s', i :: idx' => bix d i :: bix_list s' idx'
  | _, _ => []
  end.

(** The operand index read for an index of the broadcast result. *)
Definition bidx (s idx : list nat) : list nat :=
  bix_list s (skipn (length idx - length s) idx).

Definition tbin (f : R -> R -> R) (a b : tensor) : py tensor :=
  match broadcast_shapes (shape a) (shape b) with
  | Some s =>
      ret (mkT s (fun idx => f (get a (bidx (shape a) idx))
                               (get b (bidx (shape b) idx))))
  | None => raise RuntimeError
  end.

Definition tadd := tbin Rplus.
Definition tmul := tbin Rmult.
Definition tdiv := tbin Rdiv.

(** *** Reductions along the last dimension *)

(** [torch.norm(t, dim=-1)] *)
Definition norm_last (t : tensor) : py tensor :=
  match rev (shape t) with
  | [] => ret (mkT [] (fun _ => sqrt (get t [] * get t [])))
  | d :: _ =>
      ret (mkT (removelast (shape t))
               (fun idx => sqrt (Rsum d (fun k => get t (idx ++ [k]) * get t (idx ++ [k]))%R)))
  end.

(** *** torch.nn layers *)

(** [nn.Linear]: [weight] is indexed [out][in]. *)
Record Linear : Type := mkLinear {
  in_features : nat;
  out_features : nat;
  weight : nat -> nat -> R;
  bias : option (nat -> R)
}.

Definition bias_at (L : Linear) (j : nat) : R :=
  match bias L with
  | Some b => b j
  | None => 0%R
  end.

Definition linear_value (L : Linear) (x : list nat -> R) (idx : list nat) : R :=
  (Rsum (in_features L) (fun i => x (removelast idx ++ [i]) * weight L (last idx 0%nat) i)
   + bias_at L (last idx 0%nat))%R.

Definition linear (L : Linear) (x : tensor) : py tensor :=
  match rev (shape x) with
  | [] => raise RuntimeError
  | d :: _ =>
      if d =? in_features L
      then ret (mkT (removelast (shape x) ++ [out_features L])
                    (linear_value L (get x)))
      else raise RuntimeError
  end.

(** [nn.ReLU] *)
Definition relu (t : tensor) : tensor := tmap (Rmax 0) t.

(** [nn.Softmax(dim=-1)] *)
Definition softmax_last (t : tensor) : tensor :=
  match rev (shape t) with
  | [] => mkT [] (fun _ => (exp (get t []) / exp (get t []))%R)
  | d :: _ =>
      mkT (shape t)
          (fun idx => (exp (get t idx)
                       / Rsum d (fun k => exp (get t (removelast idx ++ [k]))))%R)
  end.

(** *** Views *)

Fixpoint unravel_rev (rs : list nat) (n : nat) : list nat :=
  match rs with
  | [] => []
  | d :: rs' => (n mod d) :: unravel_rev rs' (n / d)
  end.

(** Position [n] of the row-major layout as an index of shape [s]. *)
Definition unravel (s : list nat) (n : nat) : list nat :=
  rev (unravel_rev (rev s) n).

(** [t.view(-1, r, c)] on a contiguous tensor. *)
Definition view_m1 (r c : nat) (t : tensor) : py tensor :=
  if (r * c =? 0) then raise RuntimeError
  else if (numel t mod (r * c) =? 0)
  then ret (mkT [numel t / (r * c); r; c]
                (fun idx =>
                   match idx with
                   | [ia; ir; ic] => get t (unravel (shape t) ((ia * r + ir) * c + ic))
                   | _ => 0%R
                   end))
  else raise RuntimeError.

(** *** Einstein summations *)

(** [torch.einsum('bvc,bl->blc', x, w)] *)
Definition einsum_bvc_bl_blc (x w : tensor) : py tensor :=
  match shape x, shape w with
  | [b1; v; c], [b2; l] =>
      match bdim b1 b2 with
      | Some b =>
          ret (mkT [b; l; c]
                   (fun idx =>
                      match idx with
                      | [ib; il; ic] =>
                          Rsum v (fun iv => get x [bix b1 ib; iv; ic]
                                            * get w [bix b2 ib; il])%R
                      | _ => 0%R
                      end))
      | None => raise RuntimeError
      end
  | _, _ => raise RuntimeError
  end.

(** [torch.einsum('bci,bcj->bcij', x, y)] *)
Definition einsum_bci_bcj_bcij (x y : tensor) : py tensor :=
  match shape x, shape y with
  | [b1; c1; i], [b2; c2; j] =>
      match bdim b1 b2, bdim c1 c2 with
      | Some b, Some c =>
          ret (mkT [b; c; i; j]
                   (fun idx =>
                      match idx with
                      | [ib; ic; ii; ij] =>
                          (get x [bix b1 ib; bix c1 ic; ii]
                           * get y [bix b2 ib; bix c2 ic; ij])%R
                      | _ => 0%R
                      end))
      | _, _ => raise RuntimeError
      end
  | _, _ => raise RuntimeError
  end.

(** [torch.einsum('brc, bcij -> brij', w, t)] *)
Definition einsum_brc_bcij_brij (w t : tensor) : py tensor :=
  match shape w, shape t with
  | [b1; r; c1], [b2; c2; i; j] =>
      match bdim b1 b2, bdim c1 c2 with
      | Some b, Some c =>
          ret (mkT [b; r; i; j]
                   (fun idx =>
                      match idx with
                      | [ib; ir; ii; ij] =>
                          Rsum c (fun ic => get w [bix b1 ib; ir; bix c1 ic]
                                            * get t [bix b2 ib; bix c2 ic; ii; ij])%R
                      | _ => 0%R
                      end))
      | _, _ => raise RuntimeError
      end
  | _, _ => raise RuntimeError
  end.

(** [torch.einsum('bfij,bfj->bfi', t, v)] *)
Definition einsum_bfij_bfj_bfi (t v : tensor) : py tensor :=
  match shape t, shape v with
  | [b1; f1; i; j1], [b2; f2; j2] =>
      match bdim b1 b2, bdim f1 f2, bdim j1 j2 with
      | Some b, Some f, Some j =>
          ret (mkT [b; f; i]
                   (fun idx =>
                      match idx with
                      | [ib; jf; ii] =>
                          Rsum j (fun ij => get t [bix b1 ib; bix f1 jf; ii; bix j1 ij]
                                            * get v [bix b2 ib; bix f2 jf; bix j2 ij])%R
                      | _ => 0%R
                      end))
      | _, _, _ => raise RuntimeError
      end
  | _, _ => raise RuntimeError
  end.

(** *** Python call arguments *)

Inductive pyval : Type :=
| PTensor (t : tensor)
| PInt (z : Z).

(** A dimension argument, counted from the end when negative. *)
Definition norm_dim (r : nat) (d : Z) : option nat :=
  if ((0 <=? d)%Z && (d <? Z.of_nat r)%Z)%bool then Some (Z.to_nat d)
  else if ((d <? 0)%Z && (- Z.of_nat r <=? d)%Z)%bool then Some (Z.to_nat (d + Z.of_nat r))
  else None.

Definition swap_nth {A} (l : list A) (i j : nat) (dflt : A) : list A :=
  map (fun k => if k =? i then nth j l dflt
                else if k =? j then nth i l dflt
                else nth k l dflt)
      (seq 0 (length l)).

(** [torch.transpose(input, dim0, dim1)], called with the positional
    arguments [args]: both dimensions are required. *)
Definition torch_transpose (args : list pyval) : py tensor :=
  match args with
  | [PTensor t; PInt d0; PInt d1] =>
      match norm_dim (rank t) d0, norm_dim (rank t) d1 with
      | Some i, Some j =>
          ret (mkT (swap_nth (shape t) i j 0)
                   (fun idx => get t (swap_nth idx i j 0)))
      | _, _ => raise IndexError
      end
  | _ => raise TypeError
  end.

(** Calling a module whose [forward] takes one tensor with the positional
    arguments [args]. *)
Definition call_module (forward : tensor -> py tensor) (args : list pyval) : py tensor :=
  match args with
  | [PTensor t] => forward t
  | _ => raise TypeError
  end.

(** *** Indexing, splitting and concatenation *)

(** Position selected by the index [z] in a dimension of size [n]; a
    negative index counts from the end. *)
Definition wrap_index (n : nat) (z : Z) : option nat :=
  if ((0 <=? z)%Z && (z <? Z.of_nat n)%Z)%bool then Some (Z.to_nat z)
  else if ((z <? 0)%Z && (- Z.of_nat n <=? z)%Z)%bool then Some (Z.to_nat (z + Z.of_nat n))
  else None.

(** The indices [wrap_index] accepts. *)
Definition wraps (n : nat) (z : Z) : Prop := (- Z.of_nat n <= z < Z.of_nat n)%Z.

Fixpoint wrap_indices (n : nat) (idx : list Z) : option (list nat) :=
  match idx with
  | [] => Some []
  | z :: idx' =>
      match wrap_index n z, wrap_indices n idx' with
      | Some i, Some l => Some (i :: l)
      | _, _ => None
      end
  end.

(** [x[idx]] for a one-dimensional integer tensor [idx]. *)
Definition index_rows (x : tensor) (idx : list Z) : py tensor :=
  match shape x with
  | [] => raise IndexError
  | n :: s =>
      match wrap_indices n idx with
      | Some rows =>
          ret (mkT (length idx :: s)
                   (fun i =>
                      match i with
                      | e :: rest => get x (nth e rows 0 :: rest)
                      | [] => 0%R
                      end))
      | None => raise IndexError
      end
  end.

(** The chunk of [len] entries starting at [start] along the last dimension. *)
Definition narrow_last (x : tensor) (start len : nat) : tensor :=
  mkT (removelast (shape x) ++ [len])
      (fun idx => get x (removelast idx ++ [start + last idx 0])).

(** [torch.split(x, split_size, dim=-1)] *)
Definition torch_split_last (x : tensor) (split_size : nat) : py (list tensor) :=
  match rev (shape x) with
  | [] => raise RuntimeError
  | d :: _ =>
      if split_size =? 0
      then (if d =? 0 then ret [narrow_last x 0 0] else raise RuntimeError)
      else
        let num_splits := Nat.max ((d + split_size - 1) / split_size) 1 in
        let last_split_size := split_size - (split_size * num_splits - d) in
        ret (map (fun i => narrow_last x (i * split_size)
                             (if i <? num_splits - 1 then split_size else last_split_size))
                 (seq 0 num_splits))
  end.

(** [a, b = values] *)
Definition unpack2 {A} (l : list A) : py (A * A) :=
  match l with
  | [a; b] => ret (a, b)
  | _ => raise ValueError
  end.

(** [a, b, c = values] *)
Definition unpack3 {A} (l : list A) : py (A * A * A) :=
  match l with
  | [a; b; c] => ret (a, b, c)
  | _ => raise ValueError
  end.

(** [t[..., None]] *)
Definition unsqueeze_last (t : tensor) : tensor :=
  mkT (shape t ++ [1]) (fun idx => get t (removelast idx)).

(** [torch.cat([a, b], dim=-1)] *)
Definition cat_last (a b : tensor) : py tensor :=
  match rev (shape a), rev (shape b) with
  | da :: ra, db :: rb =>
      if list_eq_dec Nat.eq_dec ra rb
      then ret (mkT (rev ra ++ [da + db])
                    (fun idx =>
                       if last idx 0 <? da then get a idx
                       else get b (removelast idx ++ [last idx 0 - da])))
      else if list_eq_dec Nat.eq_dec (shape a) [0] then ret b
      else if list_eq_dec Nat.eq_dec (shape b) [0] then ret a
      else raise RuntimeError
  | _, _ => raise RuntimeError
  end.

(** [torch.sum(t, dim, keepdim=True)] for the dimension at position [k]. *)
Definition sum_keepdim (k : nat) (t : tensor) : tensor :=
  mkT (map (fun i => if i =? k then 1 else nth i (shape t) 0) (seq 0 (rank t)))
      (fun idx =>
         Rsum (nth k (shape t) 0)
              (fun j => get t (map (fun i => if i =? k then j else nth i idx 0)
                                   (seq 0 (rank t))))).

Definition torch_sum_keepdim (t : tensor) (dim : Z) : py tensor :=
  match norm_dim (rank t) dim with
  | Some k => ret (sum_keepdim k t)
  | None => raise IndexError
  end.

(** [torch.norm(t, dim=1, keepdim=True)] *)
Definition torch_norm_dim1_keepdim (t : tensor) : py tensor :=
  s <- torch_sum_keepdim (tmap (fun x => x * x)%R t) 1 ;;
  ret (tmap sqrt s).

(** [t.unsqueeze(1)] *)
Definition unsqueeze1 (t : tensor) : py tensor :=
  match shape t with
  | [] => raise IndexError
  | n :: s =>
      ret (mkT (n :: 1 :: s)
               (fun idx =>
                  match idx with
                  | a :: _ :: rest => get t (a :: rest)
                  | _ => 0%R
                  end))
  end.

(** [t.squeeze(1)] *)
Definition squeeze1 (t : tensor) : py tensor :=
  match shape t with
  | n :: 1 :: s =>
      ret (mkT (n :: s)
               (fun idx =>
                  match idx with
                  | a :: rest => get t (a :: 0 :: rest)
                  | [] => 0%R
                  end))
  | _ :: _ :: _ => ret t
  | _ => raise IndexError
  end.

(** ** Collaborators from [schnetpack.nn] *)

(** Modelled from the spec: [snn.Dense] is not among the sources.  The spec
    describes the context networks as linear layers followed by a
    nonlinearity; [None] stands for [activation=None]. *)
Definition dense (L : Linear) (activation : option (R -> R)) (x : tensor) : py tensor :=
  y <- linear L x ;;
  match activation with
  | Some f => ret (tmap f y)
  | None => ret y
  end.

(** Accumulation of the rows [x e] whose index is [a], in edge order,
    starting from [acc]. *)
Fixpoint index_add_from (e : nat) (idx : list Z) (a : nat) (x : nat -> R) (acc : R) : R :=
  match idx with
  | [] => acc
  | z :: idx' =>
      index_add_from (S e) idx' a x
        (if (z =? Z.of_nat a)%Z then (acc + x e)%R else acc)
  end.

Definition index_in_range (n : nat) (z : Z) : bool :=
  ((0 <=? z)%Z && (z <? Z.of_nat n)%Z)%bool.

(** Modelled from the spec: [snn.scatter_add] is not among the sources.  The
    spec describes it as the grouped-sum primitive
    [grouped-sum(values, index, output_size)]: a result of length
    [output_size], zero where no edge points, whose row [a] is the sum of the
    rows of [values] with index [a].  It is modelled as an accumulation into
    a zero tensor, edge after edge; an index outside [0, dim_size) is an
    IndexOutOfRange condition. *)
Definition scatter_add (x : tensor) (idx_i : list Z) (dim_size : nat) : py tensor :=
  match shape x with
  | [] => raise IndexError
  | n :: s =>
      if ((length idx_i =? n) && forallb (index_in_range dim_size) idx_i)%bool
      then ret (mkT (dim_size :: s)
                    (fun idx =>
                       match idx with
                       | a :: rest => index_add_from 0 idx_i a (fun e => get x (e :: rest)) 0%R
                       | [] => 0%R
                       end))
      else raise IndexError
  end.

(** ** EquivariantCompressionLayer *)

Module EquivariantCompressionLayer.

Record t : Type := mk {
  num_vector_channels : nat;
  compressed_channels : nat;
  w1 : nat -> nat -> R;
  b1 : nat -> R;
  w2 : nat -> nat -> R;
  b2 : nat -> R
}.

(** The [nn.Sequential] built by [__init__]. *)
Definition fc_scalar_weights (L : t) (x : tensor) : py tensor :=
  h <- linear (mkLinear (num_vector_channels L) 32 (w1 L) (Some (b1 L))) x ;;
  y <- linear (mkLinear 32 (compressed_channels L) (w2 L) (Some (b2 L))) (relu h) ;;
  ret (softmax_last y).

(** Lines 27 to 30: the pooling weights. *)
Definition scalar_weights (L : t) (vectors : tensor) : py tensor :=
  scalar_invariants <- norm_last vectors ;;
  fc_scalar_weights L scalar_invariants.

Definition forward (L : t) (vectors : tensor) : py tensor :=
  weights <- scalar_weights L vectors ;;
  print ;;;
  compressed_vectors <- einsum_bvc_bl_blc vectors weights ;;
  ret compressed_vectors.

End EquivariantCompressionLayer.

(** ** EquivariantReconstructionLayer *)

Module EquivariantReconstructionLayer.

Record t : Type := mk {
  compressed_channels : nat;
  reconstructed_channels : nat;
  w1 : nat -> nat -> R;
  b1 : nat -> R;
  w2 : nat -> nat -> R;
  b2 : nat -> R
}.

Definition fc_scalars (L : t) (x : tensor) : py tensor :=
  h <- linear (mkLinear (compressed_channels L) 32 (w1 L) (Some (b1 L))) x ;;
  linear (mkLinear 32 (reconstructed_channels L * compressed_channels L)
                   (w2 L) (Some (b2 L))) (relu h).

(** Lines 55 to 60: the mixing coefficients. *)
Definition scalar_weights (L : t) (compressed_vectors : tensor) : py tensor :=
  scalar_invariants <- norm_last compressed_vectors ;;
  y <- fc_scalars L scalar_invariants ;;
  view_m1 (reconstructed_channels L) (compressed_channels L) y.

Definition forward (L : t) (compressed_vectors : tensor) : py tensor :=
  scalar_weights <- scalar_weights L compressed_vectors ;;
  rank2_tensors <- einsum_bci_bcj_bcij compressed_vectors compressed_vectors ;;
  reconstructed_tensors <- einsum_brc_bcij_brij scalar_weights rank2_tensors ;;
  ret reconstructed_tensors.

End EquivariantReconstructionLayer.

(** ** PaiNNInteraction *)

Module PaiNNInteraction.

(** The block as [__init__] builds it from [n_atom_basis] and [activation];
    the remaining fields are the learned weights of its layers. *)
Record t : Type := mk {
  n_atom_basis : nat;
  activation : R -> R;
  ctx_w1 : nat -> nat -> R;
  ctx_b1 : nat -> R;
  ctx_w2 : nat -> nat -> R;
  ctx_b2 : nat -> R;
  cmp_w1 : nat -> nat -> R;
  cmp_b1 : nat -> R;
  cmp_w2 : nat -> nat -> R;
  cmp_b2 : nat -> R;
  rec_w1 : nat -> nat -> R;
  rec_b1 : nat -> R;
  rec_w2 : nat -> nat -> R;
  rec_b2 : nat -> R
}.

Definition interatomic_context_net (blk : t) (x : tensor) : py tensor :=
  h <- dense (mkLinear (n_atom_basis blk) (n_atom_basis blk)
                       (ctx_w1 blk) (Some (ctx_b1 blk)))
             (Some (activation blk)) x ;;
  dense (mkLinear (n_atom_basis blk) (3 * n_atom_basis blk)
                  (ctx_w2 blk) (Some (ctx_b2 blk)))
        None h.

Definition compression_layer (blk : t) : EquivariantCompressionLayer.t :=
  EquivariantCompressionLayer.mk (n_atom_basis blk * 2) (n_atom_basis blk)
    (cmp_w1 blk) (cmp_b1 blk) (cmp_w2 blk) (cmp_b2 blk).

Definition reconstruction_layer (blk : t) : EquivariantReconstructionLayer.t :=
  EquivariantReconstructionLayer.mk (n_atom_basis blk) (n_atom_basis blk)
    (rec_w1 blk) (rec_b1 blk) (rec_w2 blk) (rec_b2 blk).

(** The arguments of [forward]. *)
Record args : Type := mkArgs {
  q : tensor;
  mu : tensor;
  Wij : tensor;
  dir_ij : tensor;
  idx_i : list Z;
  idx_j : list Z;
  n_atoms : nat
}.

(** Lines 122 to 125: the context network and the gathers. *)
Definition gather (blk : t) (a : args) : py (tensor * tensor * tensor) :=
  x <- interatomic_context_net blk (q a) ;;
  xj <- index_rows x (idx_j a) ;;
  muj <- index_rows (mu a) (idx_j a) ;;
  mui <- index_rows (mu a) (idx_i a) ;;
  ret (xj, muj, mui).

(** Lines 126 to 128: the filter and the split into three blocks. *)
Definition filter_split (blk : t) (a : args) (xj : tensor) : py (tensor * tensor * tensor) :=
  x <- tmul (Wij a) xj ;;
  chunks <- torch_split_last x (n_atom_basis blk) ;;
  unpack3 chunks.

(** Lines 130 and 131: the vector message of every edge. *)
Definition vector_messages (blk : t) (a : args) (dmuR dmumu muj : tensor) : py tensor :=
  compressed_vector_vj <-
    call_module (EquivariantCompressionLayer.forward (compression_layer blk)) [PTensor muj] ;;
  l <- tmul dmuR (unsqueeze_last (dir_ij a)) ;;
  r <- tmul dmumu compressed_vector_vj ;;
  tadd l r.

(** What lines 122 to 129 have computed: the gathered vectors, the three
    blocks of the filtered messages, and the scalar aggregate. *)
Record scalars : Type := mkScalars {
  mui : tensor;
  muj : tensor;
  dq_edges : tensor;
  dmuR : tensor;
  dmumu : tensor;
  dq : tensor
}.

(** Lines 122 to 129. *)
Definition scalar_aggregate (blk : t) (a : args) : py scalars :=
  '(xj, muj, mui) <- gather blk a ;;
  '(dq_e, dmuR, dmumu) <- filter_split blk a xj ;;
  dq <- scatter_add dq_e (idx_i a) (n_atoms a) ;;
  ret (mkScalars mui muj dq_e dmuR dmumu dq).

(** What lines 122 to 132 have computed. *)
Record aggregated : Type := mkAggregated {
  scalar_part : scalars;
  dmu_edges : tensor;
  dmu : tensor
}.

(** Lines 122 to 132. *)
Definition aggregate (blk : t) (a : args) : py aggregated :=
  sc <- scalar_aggregate blk a ;;
  dmu_e <- vector_messages blk a (dmuR sc) (dmumu sc) (muj sc) ;;
  dmu <- scatter_add dmu_e (idx_i a) (n_atoms a) ;;
  ret (mkAggregated sc dmu_e dmu).

(** Line 136: the self term. *)
Definition self_term (blk : t) (mui : tensor) : py tensor :=
  transposed <- torch_transpose [PTensor mui] ;;
  call_module (EquivariantCompressionLayer.forward (compression_layer blk))
              [PTensor transposed; PInt 1; PInt 2].

(** Lines 136 to 141. *)
Definition update (blk : t) (a : args) (s : aggregated) : py (tensor * tensor * tensor) :=
  compressed_vector_vi <- self_term blk (mui (scalar_part s)) ;;
  q' <- tadd (q a) (dq (scalar_part s)) ;;
  back <- torch_transpose [PTensor compressed_vector_vi; PInt 1; PInt 2] ;;
  mu' <- tadd (dmu s) back ;;
  swapped <- torch_transpose [PTensor mu'; PInt 1; PInt 2] ;;
  dtm <- call_module (EquivariantReconstructionLayer.forward (reconstruction_layer blk))
                     [PTensor swapped] ;;
  ret (q', mu', dtm).

Definition forward (blk : t) (a : args) : py (tensor * tensor * tensor) :=
  s <- aggregate blk a ;;
  update blk a s.

End PaiNNInteraction.

(** ** PaiNNMixing *)

Module PaiNNMixing.

Record t : Type := mk {
  n_atom_basis : nat;
  activation : R -> R;
  epsilon : R;
  ctx_w1 : nat -> nat -> R;
  ctx_b1 : nat -> R;
  ctx_w2 : nat -> nat -> R;
  ctx_b2 : nat -> R;
  mix_w : nat -> nat -> R
}.

Definition intraatomic_context_net (blk : t) (x : tensor) : py tensor :=
  h <- dense (mkLinear (2 * n_atom_basis blk) (n_atom_basis blk)
                       (ctx_w1 blk) (Some (ctx_b1 blk)))
             (Some (activation blk)) x ;;
  dense (mkLinear (n_atom_basis blk) (3 * n_atom_basis blk)
                  (ctx_w2 blk) (Some (ctx_b2 blk)))
        None h.

Definition mu_channel_mix (blk : t) (x : tensor) : py tensor :=
  dense (mkLinear (n_atom_basis blk) (2 * n_atom_basis blk) (mix_w blk) None) None x.

(** What lines 177 to 187 have computed. *)
Record updates : Type := mkUpdates {
  dq_intra : tensor;
  dmu_intra : tensor;
  dqmu_intra : tensor
}.

(** Lines 177 to 187. *)
Definition intra (blk : t) (q mu : tensor) : py updates :=
  mu_mix <- mu_channel_mix blk mu ;;
  chunks <- torch_split_last mu_mix (n_atom_basis blk) ;;
  '(mu_V, mu_W) <- unpack2 chunks ;;
  sq <- torch_sum_keepdim (tmap (fun x => x ^ 2)%R mu_V) (-2) ;;
  let mu_Vn := tmap sqrt (tmap (fun x => x + epsilon blk)%R sq) in
  ctx <- cat_last q mu_Vn ;;
  x <- intraatomic_context_net blk ctx ;;
  chunks <- torch_split_last x (n_atom_basis blk) ;;
  '(dq_intra, dmu_intra, dqmu_intra) <- unpack3 chunks ;;
  dmu_intra <- tmul dmu_intra mu_W ;;
  vw <- tmul mu_V mu_W ;;
  dot <- torch_sum_keepdim vw 1 ;;
  dqmu_intra <- tmul dqmu_intra dot ;;
  ret (mkUpdates dq_intra dmu_intra dqmu_intra).

(** Line 191: the scalar update. *)
Definition scalar_update (q : tensor) (u : updates) : py tensor :=
  c <- cat_last (dq_intra u) (dqmu_intra u) ;;
  tadd q c.

(** Lines 192 and 193: the vector update. *)
Definition vector_update (q' mu dtm : tensor) (u : updates) : py tensor :=
  qT <- torch_transpose [PTensor q'; PInt 1; PInt 2] ;;
  tensor_vector <- einsum_bfij_bfj_bfi dtm qT ;;
  back <- torch_transpose [PTensor tensor_vector; PInt 1; PInt 2] ;;
  c <- cat_last (dmu_intra u) back ;;
  tadd mu c.

Definition forward (blk : t) (q mu dtm : tensor) : py (tensor * tensor) :=
  u <- intra blk q mu ;;
  q' <- scalar_update q u ;;
  mu' <- vector_update q' mu dtm u ;;
  ret (q', mu').

End PaiNNMixing.

(** ** PaiNN *)

Module PaiNN.

(** The input dictionary: the entries [forward] reads. *)
Record inputs : Type := mkInputs {
  Z_ : list Z;          (* properties.Z: atomic numbers *)
  Rij : tensor;
  idx_i : list Z;
  idx_j : list Z
}.

(** The model as [__init__] leaves it.  The radial basis, the cutoff
    function and the embeddings are collaborators supplied by the caller;
    [n_atom_basis] is the halved constructor argument. *)
Record t : Type := mk {
  n_atom_basis : nat;
  n_interactions : nat;
  radial_basis : tensor -> py tensor;
  cutoff_fn : tensor -> py tensor;
  embedding : list Z -> py tensor;
  electronic_embeddings : list (tensor -> inputs -> py tensor);
  share_filters : bool;
  filter_net : Linear;
  interactions : list PaiNNInteraction.t;
  mixing : list PaiNNMixing.t
}.

(** Modelled from the spec: [snn.replicate_module] is not among the sources.
    The spec describes one shared block instance or [n] independent ones;
    [fresh i] is the [i]-th instance the factory returns. *)
Definition replicate_module {A} (fresh : nat -> A) (n : nat) (shared : bool) : list A :=
  if shared then repeat (fresh 0) n else map fresh (seq 0 n).

(** [__init__], with the layers' initial weights as arguments. *)
Definition init (n_atom_basis n_interactions : nat)
    (radial_basis : tensor -> py tensor) (n_rbf : nat)
    (cutoff_fn : tensor -> py tensor)
    (activation : R -> R)
    (shared_interactions shared_filters : bool) (epsilon : R)
    (nuclear_embedding : list Z -> py tensor)
    (electronic_embeddings : list (tensor -> inputs -> py tensor))
    (filter_w : nat -> nat -> R) (filter_b : nat -> R)
    (fresh_interaction : nat -> nat -> (R -> R) -> PaiNNInteraction.t)
    (fresh_mixing : nat -> nat -> (R -> R) -> R -> PaiNNMixing.t) : t :=
  let half := n_atom_basis / 2 in
  mk half n_interactions radial_basis cutoff_fn nuclear_embedding
     electronic_embeddings shared_filters
     (if shared_filters
      then mkLinear n_rbf (3 * n_atom_basis) filter_w (Some filter_b)
      else mkLinear n_rbf (n_interactions * n_atom_basis * 3) filter_w (Some filter_b))
     (replicate_module (fun i => fresh_interaction i half activation)
                       n_interactions shared_interactions)
     (replicate_module (fun i => fresh_mixing i half activation epsilon)
                       n_interactions shared_interactions).

(** Lines 318 and 319. *)
Fixpoint add_electronic (embs : list (tensor -> inputs -> py tensor))
    (inp : inputs) (q : tensor) : py tensor :=
  match embs with
  | [] => ret q
  | emb :: rest =>
      e <- emb q inp ;;
      q' <- tadd q e ;;
      add_electronic rest inp q'
  end.

(** [filter_list[i]] *)
Definition list_item {A} (l : list A) (i : nat) : py A :=
  match nth_error l i with
  | Some x => ret x
  | None => raise IndexError
  end.

(** Lines 325 to 327: the rounds over [zip(self.interactions, self.mixing)],
    starting at round [i]. *)
Fixpoint rounds (blocks : list (PaiNNInteraction.t * PaiNNMixing.t)) (i : nat)
    (filter_list : list tensor) (dir_ij : tensor) (inp : inputs) (n_atoms : nat)
    (q mu : tensor) : py (tensor * tensor) :=
  match blocks with
  | [] => ret (q, mu)
  | (interaction, mixing) :: rest =>
      W <- list_item filter_list i ;;
      '(q1, mu1, dtm) <- PaiNNInteraction.forward interaction
                           (PaiNNInteraction.mkArgs q mu W dir_ij
                              (idx_i inp) (idx_j inp) n_atoms) ;;
      '(q2, mu2) <- PaiNNMixing.forward mixing q1 mu1 dtm ;;
      rounds rest (S i) filter_list dir_ij inp n_atoms q2 mu2
  end.

(** [torch.zeros((qs[0], 3, qs[2]*2))] *)
Definition initial_mu (qs : list nat) : py tensor :=
  match qs with
  | a :: _ :: f :: _ => ret (zeros [a; 3; f * 2])
  | _ => raise IndexError
  end.

(** The two entries [forward] adds to the dictionary. *)
Record outputs : Type := mkOutputs {
  scalar_representation : tensor;
  vector_representation : tensor
}.

Definition forward (m : t) (inp : inputs) : py outputs :=
  let n_atoms := length (Z_ inp) in
  d_ij <- torch_norm_dim1_keepdim (Rij inp) ;;
  dir_ij <- tdiv (Rij inp) d_ij ;;
  phi_ij <- radial_basis m d_ij ;;
  fcut <- cutoff_fn m d_ij ;;
  f <- dense (filter_net m) None phi_ij ;;
  filters <- tmul f (unsqueeze_last fcut) ;;
  filter_list <-
    (if share_filters m then ret (repeat filters (n_interactions m))
     else torch_split_last filters (3 * n_atom_basis m)) ;;
  q <- embedding m (Z_ inp) ;;
  q <- add_electronic (electronic_embeddings m) inp q ;;
  q <- unsqueeze1 q ;;
  mu <- initial_mu (shape q) ;;
  '(q, mu) <- rounds (combine (interactions m) (mixing m)) 0
                     filter_list dir_ij inp n_atoms q mu ;;
  q <- squeeze1 q ;;
  ret (mkOutputs q mu).

End PaiNN.

(** ** Grouped sums *)

(** The sum, over the edges listed in [order], of the rows [x e] of the
    edges whose target index is [a]. *)
Definition edge_sum (order : list nat) (idx : list Z) (a : nat) (x : nat -> R) : R :=
  fold_right
    (fun e s => ((if (nth e idx (-1)%Z =? Z.of_nat a)%Z then x e else 0) + s)%R)
    0%R order.

(** [agg] has [n] rows; the row of an atom is the grouped sum of the rows of
    [msgs] over the edges pointing at it, whatever the order of summation,
    and zero for an atom no edge points at. *)
Definition grouped_sums (msgs : tensor) (idx : list Z) (n : nat) (agg : tensor) : Prop :=
  shape agg = n :: tl (shape msgs)
  /\ (forall order atom rest,
         Permutation order (seq 0 (length idx)) ->
         get agg (atom :: rest) = edge_sum order idx atom (fun e => get msgs (e :: rest)))
  /\ (forall atom rest,
         ~ In (Z.of_nat atom) idx -> get agg (atom :: rest) = 0%R).

(** ** Rotations *)

(** A 3x3 matrix, indexed by row and column. *)
Definition matrix : Type := nat -> nat -> R.

Definition kronecker (i j : nat) : R := if i =? j then 1%R else 0%R.

(** The columns of [Q] are orthonormal: the transpose of [Q] times [Q] is
    the identity.  Rotations and reflections are the matrices of this
    kind. *)
Definition orthogonal (Q : matrix) : Prop :=
  forall i j, i < 3 -> j < 3 -> Rsum 3 (fun k => Q k i * Q k j)%R = kronecker i j.

(** [Q] applied to every 3-vector along the last dimension of [t]. *)
Definition rotate (Q : matrix) (t : tensor) : tensor :=
  mkT (shape t)
      (fun idx =>
         Rsum 3 (fun j => Q (last idx 0%nat) j * get t (removelast idx ++ [j]))%R).

(** [Q] applied to both indices of every 3x3 tensor along the last two
    dimensions of [t]: each such tensor [T] becomes [Q T Q^T]. *)
Definition rotate2 (Q : matrix) (t : tensor) : tensor :=
  mkT (shape t)
      (fun idx =>
         Rsum 3 (fun k =>
         Rsum 3 (fun l =>
           Q (last (removelast idx) 0%nat) k * Q (last idx 0%nat) l
           * get t (removelast (removelast idx) ++ [k; l]))))%R.

(** ** Standard output *)

(** [m] leaves standard output as it found it, whether it returns or
    raises. *)
Definition silent {A : Type} (m : py A) : Prop :=
  forall out, snd (m out) = out.

(** [m] writes nothing or exactly one empty line. *)
Definition writes_at_most_one_line {A : Type} (m : py A) : Prop :=
  forall out, snd (m out) = out \/ snd (m out) = out ++ [newline].

(** * Concrete blocks and inputs *)

Module Examples.

(** A compression layer pooling two vector channels into one, with all
    weights zero, and one batch entry of two zero vectors. *)
Definition compression0 : EquivariantCompressionLayer.t :=
  EquivariantCompressionLayer.mk 2 1
    (fun _ _ => 0%R) (fun _ => 0%R) (fun _ _ => 0%R) (fun _ => 0%R).

Definition vectors0 : tensor := zeros [1; 2; 3].

(** A reconstruction layer from one compressed channel to one tensor,
    with all weights zero, and one batch entry holding one zero vector. *)
Definition reconstruction0 : EquivariantReconstructionLayer.t :=
  EquivariantReconstructionLayer.mk 1 1
    (fun _ _ => 0%R) (fun _ => 0%R) (fun _ _ => 0%R) (fun _ => 0%R).

Definition compressed0 : tensor := zeros [1; 1; 3].

(** [F.silu], the default activation. *)
Definition silu (x : R) : R := (x / (1 + exp (- x)))%R.

(** An interaction block with [n_atom_basis = 1] and all weights zero. *)
Definition interaction1 : PaiNNInteraction.t :=
  PaiNNInteraction.mk 1 silu
    (fun _ _ => 0%R) (fun _ => 0%R) (fun _ _ => 0%R) (fun _ => 0%R)
    (fun _ _ => 0%R) (fun _ => 0%R) (fun _ _ => 0%R) (fun _ => 0%R)
    (fun _ _ => 0%R) (fun _ => 0%R) (fun _ _ => 0%R) (fun _ => 0%R).

(** Unit bond vectors of two atoms on the x axis. *)
Definition dir2 : tensor :=
  mkT [2; 3]
      (fun idx =>
         match idx with
         | [0; 0] => 1%R
         | [1; 0] => (-1)%R
         | _ => 0%R
         end).

(** Two atoms joined by the edges 0 <- 1 and 1 <- 0, with the vector
    feature laid out as the compression layer reads it: [atoms, 2F, 3]. *)
Definition args1 : PaiNNInteraction.args :=
  PaiNNInteraction.mkArgs
    (zeros [2; 1; 1]) (zeros [2; 2; 3]) (full [2; 1; 3] 1%R) dir2
    [0%Z; 1%Z] [1%Z; 0%Z] 2.

(** The same atoms with the vector feature laid out as the data model
    documents it: [atoms, 3, 2F]. *)
Definition args1_documented : PaiNNInteraction.args :=
  PaiNNInteraction.mkArgs
    (zeros [2; 1; 1]) (zeros [2; 3; 2]) (full [2; 1; 3] 1%R) dir2
    [0%Z; 1%Z] [1%Z; 0%Z] 2.

(** The same atoms, with the source index of the first edge written as
    -1 and a filter of width 1. *)
Definition args1_wrapped : PaiNNInteraction.args :=
  PaiNNInteraction.mkArgs
    (zeros [2; 1; 1]) (zeros [2; 2; 3]) (full [2; 1; 1] 1%R) dir2
    [0%Z; 1%Z] [(-1)%Z; 0%Z] 2.

(** The same atoms, with the target index of the first edge written as
    -1. *)
Definition args1_negative_target : PaiNNInteraction.args :=
  PaiNNInteraction.mkArgs
    (zeros [2; 1; 1]) (zeros [2; 2; 3]) (full [2; 1; 3] 1%R) dir2
    [(-1)%Z; 0%Z] [1%Z; 0%Z] 2.


(** A mixing block with [n_atom_basis = 2] and all weights zero, and
    features of one atom in the documented layout. *)
Definition mixing2 : PaiNNMixing.t :=
  PaiNNMixing.mk 2 silu (1 / 100000000)%R
    (fun _ _ => 0%R) (fun _ => 0%R) (fun _ _ => 0%R) (fun _ => 0%R)
    (fun _ _ => 0%R).

Definition q2 : tensor := zeros [1; 1; 2].
Definition mu2 : tensor := zeros [1; 3; 2].
Definition dtm2 : tensor := zeros [1; 2; 3; 3].

(** The end-to-end example of the spec: two atoms, the edges 0 <- 1 and
    1 <- 0, bond vectors (1,0,0) and (-1,0,0), basis width 4, one round.
    The collaborators are the simplest of their kind: one radial basis
    function, a cutoff weight of 1, an embedding of zeros. *)
Definition interaction_zero (F : nat) (act : R -> R) : PaiNNInteraction.t :=
  PaiNNInteraction.mk F act
    (fun _ _ => 0%R) (fun _ => 0%R) (fun _ _ => 0%R) (fun _ => 0%R)
    (fun _ _ => 0%R) (fun _ => 0%R) (fun _ _ => 0%R) (fun _ => 0%R)
    (fun _ _ => 0%R) (fun _ => 0%R) (fun _ _ => 0%R) (fun _ => 0%R).

Definition mixing_zero (F : nat) (act : R -> R) (eps : R) : PaiNNMixing.t :=
  PaiNNMixing.mk F act eps
    (fun _ _ => 0%R) (fun _ => 0%R) (fun _ _ => 0%R) (fun _ => 0%R)
    (fun _ _ => 0%R).

Definition painn1 : PaiNN.t :=
  PaiNN.init 4 1
    (fun d => ret (unsqueeze_last d)) 1
    (fun d => ret (full (shape d) 1%R))
    silu false false (1 / 100000000)%R
    (fun zs => ret (zeros [length zs; 4])) []
    (fun _ _ => 0%R) (fun _ => 0%R)
    (fun _ => interaction_zero) (fun _ => mixing_zero).

Definition bonds : tensor :=
  mkT [2; 3]
      (fun idx =>
         match idx with
         | [0; 0] => 1%R
         | [1; 0] => (-1)%R
         | _ => 0%R
         end).

(** The same bonds turned by a quarter turn about the z axis. *)
Definition bonds_rotated : tensor :=
  mkT [2; 3]
      (fun idx =>
         match idx with
         | [0; 1] => 1%R
         | [1; 1] => (-1)%R
         | _ => 0%R
         end).

Definition inputs1 : PaiNN.inputs :=
  PaiNN.mkInputs [1%Z; 1%Z] bonds [0%Z; 1%Z] [1%Z; 0%Z].

Definition inputs1_rotated : PaiNN.inputs :=
  PaiNN.mkInputs [1%Z; 1%Z] bonds_rotated [0%Z; 1%Z] [1%Z; 0%Z].

(** A quarter turn about the z axis. *)
Definition quarter_turn : matrix :=
  fun i j =>
    match i, j with
    | 0, 1 => (-1)%R
    | 1, 0 => 1%R
    | 2, 2 => 1%R
    | _, _ => 0%R
    end.

(** One batch entry with the two vectors (1, 0, 0) and (0, 2, 0). *)
Definition vectors_xy : tensor :=
  mkT [1; 2; 3]
      (fun idx =>
         match idx with
         | [_; 0; 0] => 1%R
         | [_; 1; 1] => 2%R
         | _ => 0%R
         end).

(** One batch entry with the single vector (1, 2, 0). *)
Definition compressed_xy : tensor :=
  mkT [1; 1; 3]
      (fun idx =>
         match idx with
         | [_; _; 0] => 1%R
         | [_; _; 1] => 2%R
         | _ => 0%R
         end).

(** The same model as [painn1] with no interaction round. *)
Definition painn0 : PaiNN.t :=
  PaiNN.init 4 0
    (fun d => ret (unsqueeze_last d)) 1
    (fun d => ret (full (shape d) 1%R))
    silu false false (1 / 100000000)%R
    (fun zs => ret (zeros [length zs; 4])) []
    (fun _ _ => 0%R) (fun _ => 0%R)
    (fun _ => interaction_zero) (fun _ => mixing_zero).

End Examples.

(** * Properties *)

Unset Implicit Arguments.

(** ** Evaluation lemmas *)

Lemma bind_ok : forall A B (m : py A) (k : A -> py B) out a out',
  m out = (Ok a, out') -> bind m k out = k a out'.
Proof. intros A B m k out a out' H. unfold bind. now rewrite H. Qed.

Lemma bind_raise : forall A B (m : py A) (k : A -> py B) out e out',
  m out = (Raise e, out') -> bind m k out = (Raise e, out').
Proof. intros A B m k out e out' H. unfold bind. now rewrite H. Qed.

Lemma bind_inv_ok : forall A B (m : py A) (k : A -> py B) out b out2,
  bind m k out = (Ok b, out2) ->
  exists a out1, m out = (Ok a, out1) /\ k a out1 = (Ok b, out2).
Proof.
  intros A B m k out b out2. unfold bind.
  destruct (m out) as [[a|e] out1]; intro H.
  - now exists a, out1.
  - discriminate.
Qed.

Lemma raises_bind : forall A B (m : py A) (k : A -> py B) out,
  (forall a out1, m out = (Ok a, out1) -> raises (k a) out1) ->
  raises (bind m k) out.
Proof.
  intros A B m k out H. unfold raises, bind in *.
  destruct (m out) as [[a|e] out1].
  - exact (H a out1 eq_refl).
  - now exists e, out1.
Qed.

(** ** Sums *)

Lemma Rsum_ext : forall n f g,
  (forall k, k < n -> f k = g k) -> Rsum n f = Rsum n g.
Proof.
  induction n as [|n IH]; intros f g H; simpl.
  - reflexivity.
  - rewrite (IH f g), (H n); auto.
Qed.

Lemma Rsum_scal_r : forall n f c,
  Rsum n (fun k => f k * c)%R = (c * Rsum n f)%R.
Proof.
  induction n as [|n IH]; intros f c; simpl.
  - ring.
  - rewrite IH. ring.
Qed.

Lemma Rsum_div : forall n f c,
  Rsum n (fun k => f k / c)%R = (Rsum n f / c)%R.
Proof.
  induction n as [|n IH]; intros f c; simpl.
  - unfold Rdiv. ring.
  - rewrite IH. unfold Rdiv. ring.
Qed.

Lemma Rsum_pos : forall n f,
  0 < n -> (forall k, k < n -> (0 < f k)%R) -> (0 < Rsum n f)%R.
Proof.
  induction n as [|n IH]; intros f Hn Hf.
  - lia.
  - simpl. destruct n as [|n].
    + simpl. rewrite Rplus_0_l. apply Hf. lia.
    + apply Rplus_lt_0_compat.
      * apply IH; [lia | intros k Hk; apply Hf; lia].
      * apply Hf. lia.
Qed.

(** ** Shapes *)

Lemma bdim_same : forall n, bdim n n = Some n.
Proof. intro n. unfold bdim. now rewrite Nat.eqb_refl. Qed.

Lemma bix_lt : forall d i, i < d -> bix d i = i.
Proof.
  intros d i H. unfold bix. destruct (Nat.eqb_spec d 1); [lia | reflexivity].
Qed.

Lemma rev_snoc : forall (A : Type) (l : list A) (x : A), rev (l ++ [x]) = x :: rev l.
Proof. intros A l x. now rewrite rev_app_distr. Qed.

Lemma linear_shape3 : forall L x b v,
  shape x = [b; v] -> v = in_features L ->
  forall out, linear L x out
              = (Ok (mkT [b; out_features L] (linear_value L (get x))), out).
Proof.
  intros L x b v Hs Hv out. unfold linear. rewrite Hs. simpl.
  subst v. now rewrite Nat.eqb_refl.
Qed.

Lemma norm_last_shape3 : forall t b v c,
  shape t = [b; v; c] ->
  forall out, norm_last t out
    = (Ok (mkT [b; v]
               (fun idx => sqrt (Rsum c (fun k => get t (idx ++ [k]) * get t (idx ++ [k]))%R))),
       out).
Proof. intros t b v c Hs out. unfold norm_last. now rewrite Hs. Qed.

(** ** The softmax is a probability distribution *)

Lemma softmax_last_nonneg : forall t idx, (0 <= get (softmax_last t) idx)%R.
Proof.
  intros t idx. unfold softmax_last.
  destruct (rev (shape t)) as [|d r] eqn:E; simpl.
  - left. apply Rdiv_lt_0_compat; apply exp_pos.
  - destruct d as [|d].
    + simpl. unfold Rdiv. rewrite Rinv_0. lra.
    + left. apply Rdiv_lt_0_compat; [apply exp_pos|].
      apply Rsum_pos; [lia | intros; apply exp_pos].
Qed.

Lemma softmax_last_sums_to_one : forall t s c pre,
  shape t = s ++ [c] -> 0 < c ->
  Rsum c (fun l => get (softmax_last t) (pre ++ [l])) = 1%R.
Proof.
  intros t s c pre Hs Hc. unfold softmax_last.
  rewrite Hs, rev_snoc. simpl.
  rewrite (Rsum_ext c _ (fun l => exp (get t (pre ++ [l]))
      / Rsum c (fun k => exp (get t (pre ++ [k]))))%R).
  - rewrite Rsum_div. apply Rdiv_diag.
    apply Rgt_not_eq, Rsum_pos; [assumption | intros; apply exp_pos].
  - intros k _. now rewrite removelast_last.
Qed.

Lemma linear_inv : forall L x out y out',
  linear L x out = (Ok y, out') ->
  out' = out /\ y = mkT (removelast (shape x) ++ [out_features L]) (linear_value L (get x)).
Proof.
  intros L x out y out'. unfold linear.
  destruct (rev (shape x)) as [|d r]; [discriminate|].
  destruct (d =? in_features L); [|discriminate].
  unfold ret. intro H. inversion H. auto.
Qed.

Lemma norm_last_total : forall t out, exists n, norm_last t out = (Ok n, out).
Proof.
  intros t out. unfold norm_last.
  destruct (rev (shape t)); eexists; reflexivity.
Qed.

Lemma compression_weights_inv : forall L vectors out w out',
  EquivariantCompressionLayer.scalar_weights L vectors out = (Ok w, out') ->
  out' = out /\
  exists y s, w = softmax_last y
              /\ shape y = s ++ [EquivariantCompressionLayer.compressed_channels L].
Proof.
  intros L vectors out w out' H.
  unfold EquivariantCompressionLayer.scalar_weights in H.
  apply bind_inv_ok in H. destruct H as (n & o1 & Hn & H).
  destruct (norm_last_total vectors out) as [n' Hn'].
  rewrite Hn' in Hn. inversion Hn; subst n' o1. clear Hn.
  unfold EquivariantCompressionLayer.fc_scalar_weights in H.
  apply bind_inv_ok in H. destruct H as (h & o1 & Hh & H).
  apply linear_inv in Hh. destruct Hh as [-> Hh].
  apply bind_inv_ok in H. destruct H as (y & o2 & Hy & H).
  apply linear_inv in Hy. destruct Hy as [-> Hy].
  unfold ret in H. inversion H. subst out'. split; [reflexivity|].
  exists y, (removelast (shape (relu h))). split; [reflexivity|].
  rewrite Hy. reflexivity.
Qed.

Lemma compression_weights_shape3 : forall L vectors b out,
  shape vectors = [b; EquivariantCompressionLayer.num_vector_channels L; 3] ->
  exists y,
    shape y = [b; EquivariantCompressionLayer.compressed_channels L] /\
    EquivariantCompressionLayer.scalar_weights L vectors out = (Ok (softmax_last y), out).
Proof.
  intros L vectors b out Hs.
  unfold EquivariantCompressionLayer.scalar_weights,
         EquivariantCompressionLayer.fc_scalar_weights.
  erewrite bind_ok by (apply (norm_last_shape3 _ _ _ _ Hs)).
  erewrite bind_ok by (apply linear_shape3 with (b := b)
                         (v := EquivariantCompressionLayer.num_vector_channels L);
                       reflexivity).
  erewrite bind_ok by (apply linear_shape3 with (b := b) (v := 32); reflexivity).
  eexists. split; [|reflexivity]. reflexivity.
Qed.

Lemma softmax_last_shape : forall t, shape (softmax_last t) = shape t.
Proof.
  intro t. unfold softmax_last.
  destruct (rev (shape t)) as [|d r] eqn:E; simpl; [|reflexivity].
  destruct (shape t) as [|a s]; [reflexivity|].
  simpl in E. destruct (rev s); discriminate.
Qed.

(** ** EquivariantCompressionLayer: the pooling weights *)

(** C5: the weights the compression layer computes from the channel norms
    (lines 27 to 30) are non-negative in every entry and, for each batch
    entry, sum to 1 over the compressed channels; for an input of shape
    [b, num_vector_channels, 3] they are computed without error and have
    shape [b, compressed_channels]. *)
Theorem compression_weights_distribution :
  forall (L : EquivariantCompressionLayer.t) (vectors : tensor) (out : stdout),
    0 < EquivariantCompressionLayer.compressed_channels L ->
    (forall b,
        shape vectors = [b; EquivariantCompressionLayer.num_vector_channels L; 3] ->
        exists w,
          EquivariantCompressionLayer.scalar_weights L vectors out = (Ok w, out)
          /\ shape w = [b; EquivariantCompressionLayer.compressed_channels L])
    /\
    (forall w out',
        EquivariantCompressionLayer.scalar_weights L vectors out = (Ok w, out') ->
        (forall idx, (0 <= get w idx)%R)
        /\ (forall pre,
               Rsum (EquivariantCompressionLayer.compressed_channels L)
                    (fun l => get w (pre ++ [l])) = 1%R)).
Proof.
  intros L vectors out HC. split.
  - intros b Hs.
    destruct (compression_weights_shape3 L vectors b out Hs) as (y & Hy & Hw).
    exists (softmax_last y). split; [exact Hw|].
    now rewrite softmax_last_shape.
  - intros w out' Hw.
    apply compression_weights_inv in Hw.
    destruct Hw as (_ & y & s & -> & Hy). split.
    + intro idx. apply softmax_last_nonneg.
    + intro pre. apply softmax_last_sums_to_one with (s := s); assumption.
Qed.

Lemma compression_weights_distribution_witness :
  exists w,
    EquivariantCompressionLayer.scalar_weights Examples.compression0 Examples.vectors0 []
      = (Ok w, [])
    /\ shape w = [1; 1]
    /\ (forall idx, (0 <= get w idx)%R)
    /\ (forall pre, Rsum 1 (fun l => get w (pre ++ [l])) = 1%R).
Proof.
  destruct (compression_weights_distribution Examples.compression0 Examples.vectors0 [])
    as [Hshape Hdist].
  - simpl. lia.
  - destruct (Hshape 1 eq_refl) as (w & Hw & Hs).
    exists w. split; [exact Hw|]. split; [exact Hs|].
    exact (Hdist w [] Hw).
Defined.

(** ** EquivariantCompressionLayer: the pooled vectors *)

(** C6: for an input of shape [b, V, 3] the compression layer returns a
    tensor of shape [b, C, 3]; its channel [l] in batch entry [ib] is the
    weight at (ib, l) times the sum of all [V] input vectors of that entry.
    The call also writes one empty line. *)
Theorem compression_forward_pooling :
  forall (L : EquivariantCompressionLayer.t) (vectors : tensor) (b : nat) (out : stdout),
    shape vectors = [b; EquivariantCompressionLayer.num_vector_channels L; 3] ->
    exists weights r,
      EquivariantCompressionLayer.scalar_weights L vectors out = (Ok weights, out)
      /\ shape weights = [b; EquivariantCompressionLayer.compressed_channels L]
      /\ EquivariantCompressionLayer.forward L vectors out = (Ok r, out ++ [newline])
      /\ shape r = [b; EquivariantCompressionLayer.compressed_channels L; 3]
      /\ forall ib l c,
           ib < b -> l < EquivariantCompressionLayer.compressed_channels L -> c < 3 ->
           get r [ib; l; c]
           = (get weights [ib; l]
              * Rsum (EquivariantCompressionLayer.num_vector_channels L)
                     (fun v => get vectors [ib; v; c]))%R.
Proof.
  intros L vectors b out Hs.
  destruct (compression_weights_shape3 L vectors b out Hs) as (y & Hy & Hw).
  assert (Hsw : shape (softmax_last y)
                = [b; EquivariantCompressionLayer.compressed_channels L])
    by now rewrite softmax_last_shape.
  exists (softmax_last y). eexists.
  split; [exact Hw|]. split; [exact Hsw|].
  unfold EquivariantCompressionLayer.forward.
  erewrite bind_ok by exact Hw.
  unfold print at 1. unfold bind at 1.
  unfold einsum_bvc_bl_blc. rewrite Hs, Hsw, bdim_same.
  unfold bind, ret. split; [reflexivity|]. split; [reflexivity|].
  intros ib l c Hib Hl Hc. simpl.
  rewrite (bix_lt b ib Hib).
  apply (Rsum_scal_r _ (fun v => get vectors [ib; v; c])).
Qed.

Lemma compression_forward_pooling_witness :
  exists weights r,
    EquivariantCompressionLayer.scalar_weights Examples.compression0 Examples.vectors0 []
      = (Ok weights, [])
    /\ shape weights = [1; 1]
    /\ EquivariantCompressionLayer.forward Examples.compression0 Examples.vectors0 []
       = (Ok r, [newline])
    /\ shape r = [1; 1; 3]
    /\ forall ib l c,
         ib < 1 -> l < 1 -> c < 3 ->
         get r [ib; l; c]
         = (get weights [ib; l]
            * Rsum 2 (fun v => get Examples.vectors0 [ib; v; c]))%R.
Proof.
  exact (compression_forward_pooling Examples.compression0 Examples.vectors0 1 [] eq_refl).
Defined.

(** ** EquivariantReconstructionLayer *)

Lemma unravel_rows : forall b n ib k,
  ib < b -> k < n -> unravel [b; n] (ib * n + k) = [ib; k].
Proof.
  intros b n ib k Hib Hk. unfold unravel. simpl.
  assert (Hq : (ib * n + k) / n = ib)
    by (symmetry; apply Nat.div_unique with (r := k); [assumption | lia]).
  assert (Hr : (ib * n + k) mod n = k)
    by (symmetry; apply Nat.mod_unique with (q := ib); [assumption | lia]).
  rewrite Hq, Hr, (Nat.mod_small ib b Hib). reflexivity.
Qed.

Lemma view_m1_rows : forall r c y b out,
  0 < r * c -> shape y = [b; r * c] ->
  view_m1 r c y out
  = (Ok (mkT [b; r; c]
             (fun idx =>
                match idx with
                | [ia; ir; ic] => get y (unravel [b; r * c] ((ia * r + ir) * c + ic))
                | _ => 0%R
                end)), out).
Proof.
  intros r c y b out Hrc Hs. unfold view_m1, numel. rewrite Hs.
  destruct (Nat.eqb_spec (r * c) 0) as [E|_]; [lia|].
  replace (fold_right Nat.mul 1 [b; r * c]) with (b * (r * c)) by (simpl; lia).
  rewrite Nat.Div0.mod_mul, Nat.eqb_refl, Nat.div_mul by lia.
  reflexivity.
Qed.

Lemma Rsum_outer_sym : forall n (w : nat -> R) (u v : nat -> R),
  Rsum n (fun c => w c * (u c * v c))%R = Rsum n (fun c => w c * (v c * u c))%R.
Proof. intros n w u v. apply Rsum_ext. intros k _. ring. Qed.

(** C7: for an input of shape [b, C, 3] the reconstruction layer returns a
    tensor of shape [b, R, 3, 3]; output [r] is the sum over the compressed
    channels [c] of coeff[r, c] times the outer product of channel [c] with
    itself, where the coefficients are computed from the channel norms
    alone; every output tensor is symmetric, and a channel that is the zero
    vector contributes zero to every entry. *)
Theorem reconstruction_forward_outer_products :
  forall (L : EquivariantReconstructionLayer.t) (cv : tensor) (b : nat) (out : stdout),
    0 < EquivariantReconstructionLayer.compressed_channels L ->
    0 < EquivariantReconstructionLayer.reconstructed_channels L ->
    shape cv = [b; EquivariantReconstructionLayer.compressed_channels L; 3] ->
    exists norms coeff r,
      norm_last cv out = (Ok norms, out)
      /\ (forall ib c,
             get norms [ib; c]
             = sqrt (Rsum 3 (fun k => get cv [ib; c; k] * get cv [ib; c; k])%R))
      /\ (y <- EquivariantReconstructionLayer.fc_scalars L norms ;;
          view_m1 (EquivariantReconstructionLayer.reconstructed_channels L)
                  (EquivariantReconstructionLayer.compressed_channels L) y) out
         = (Ok coeff, out)
      /\ EquivariantReconstructionLayer.scalar_weights L cv out = (Ok coeff, out)
      /\ shape coeff = [b; EquivariantReconstructionLayer.reconstructed_channels L;
                        EquivariantReconstructionLayer.compressed_channels L]
      /\ EquivariantReconstructionLayer.forward L cv out = (Ok r, out)
      /\ shape r = [b; EquivariantReconstructionLayer.reconstructed_channels L; 3; 3]
      /\ (forall ib ir i j,
             ib < b -> ir < EquivariantReconstructionLayer.reconstructed_channels L ->
             i < 3 -> j < 3 ->
             get r [ib; ir; i; j]
             = Rsum (EquivariantReconstructionLayer.compressed_channels L)
                    (fun c => get coeff [ib; ir; c]
                              * (get cv [ib; c; i] * get cv [ib; c; j]))%R
             /\ get r [ib; ir; i; j] = get r [ib; ir; j; i])
      /\ (forall ib c,
             (forall k, k < 3 -> get cv [ib; c; k] = 0%R) ->
             forall ir i j,
               i < 3 -> j < 3 ->
               (get coeff [ib; ir; c] * (get cv [ib; c; i] * get cv [ib; c; j]))%R = 0%R).
Proof.
  intros L cv b out HC HR Hs.
  set (C := EquivariantReconstructionLayer.compressed_channels L) in *.
  set (Rc := EquivariantReconstructionLayer.reconstructed_channels L) in *.
  pose proof (norm_last_shape3 cv b C 3 Hs out) as Hn.
  set (norms := mkT [b; C] _) in Hn.
  assert (Hfc : exists y, shape y = [b; Rc * C]
                /\ EquivariantReconstructionLayer.fc_scalars L norms out = (Ok y, out)).
  { unfold EquivariantReconstructionLayer.fc_scalars.
    erewrite bind_ok by (apply linear_shape3 with (b := b) (v := C); reflexivity).
    erewrite linear_shape3 with (b := b) (v := 32) by reflexivity.
    eexists. split; [|reflexivity]. reflexivity. }
  destruct Hfc as (y & Hy & Hfc).
  assert (Hrc : 0 < Rc * C) by nia.
  pose proof (view_m1_rows Rc C y b out Hrc Hy) as Hv.
  set (coeff := mkT [b; Rc; C] _) in Hv.
  assert (Hsw : EquivariantReconstructionLayer.scalar_weights L cv out = (Ok coeff, out)).
  { unfold EquivariantReconstructionLayer.scalar_weights.
    erewrite bind_ok by exact Hn. erewrite bind_ok by exact Hfc. exact Hv. }
  exists norms, coeff. eexists.
  split; [exact Hn|]. split; [reflexivity|].
  split; [erewrite bind_ok by exact Hfc; exact Hv|].
  split; [exact Hsw|]. split; [reflexivity|].
  unfold EquivariantReconstructionLayer.forward.
  erewrite bind_ok by exact Hsw.
  unfold einsum_bci_bcj_bcij. rewrite Hs, !bdim_same.
  unfold bind at 1. unfold ret at 1.
  unfold einsum_brc_bcij_brij.
  change (shape coeff) with [b; Rc; C]. cbn [shape]. rewrite !bdim_same.
  unfold bind, ret.
  split; [reflexivity|]. split; [reflexivity|]. split.
  - intros ib ir i j Hib Hir Hi Hj. cbn [get].
    assert (E : forall i' j',
               Rsum C (fun ic => get coeff [bix b ib; ir; bix C ic]
                                 * (get cv [bix b (bix b ib); bix C (bix C ic); i']
                                    * get cv [bix b (bix b ib); bix C (bix C ic); j']))%R
               = Rsum C (fun c => get coeff [ib; ir; c]
                                  * (get cv [ib; c; i'] * get cv [ib; c; j']))%R).
    { intros i' j'. apply Rsum_ext. intros k Hk.
      now rewrite !(bix_lt b ib Hib), !(bix_lt C k Hk). }
    rewrite !E. split; [reflexivity|].
    apply Rsum_outer_sym with (w := fun c => get coeff [ib; ir; c])
                              (u := fun c => get cv [ib; c; i])
                              (v := fun c => get cv [ib; c; j]).
  - intros ib c Hz ir i j Hi Hj. rewrite (Hz i Hi). ring.
Qed.

Lemma reconstruction_forward_outer_products_witness :
  exists r,
    EquivariantReconstructionLayer.forward Examples.reconstruction0 Examples.compressed0 []
      = (Ok r, [])
    /\ shape r = [1; 1; 3; 3]
    /\ forall ib ir i j,
         ib < 1 -> ir < 1 -> i < 3 -> j < 3 ->
         get r [ib; ir; i; j] = get r [ib; ir; j; i].
Proof.
  destruct (reconstruction_forward_outer_products
              Examples.reconstruction0 Examples.compressed0 1 [])
    as (norms & coeff & r & _ & _ & _ & _ & _ & Hf & Hs & Hv & _).
  - simpl. lia.
  - simpl. lia.
  - reflexivity.
  - exists r. split; [exact Hf|]. split; [exact Hs|].
    intros ib ir i j Hib Hir Hi Hj. exact (proj2 (Hv ib ir i j Hib Hir Hi Hj)).
Defined.

(** ** PaiNNInteraction: the self term *)

Lemma self_term_raises : forall blk mui out,
  PaiNNInteraction.self_term blk mui out = (Raise TypeError, out).
Proof. intros blk mui out. reflexivity. Qed.

Lemma interaction_update_raises : forall blk a s out,
  PaiNNInteraction.update blk a s out = (Raise TypeError, out).
Proof. intros blk a s out. reflexivity. Qed.

Lemma interaction_forward_cases : forall blk a out,
  (exists e out1,
      PaiNNInteraction.aggregate blk a out = (Raise e, out1)
      /\ PaiNNInteraction.forward blk a out = (Raise e, out1))
  \/ (exists s out1,
         PaiNNInteraction.aggregate blk a out = (Ok s, out1)
         /\ PaiNNInteraction.forward blk a out = (Raise TypeError, out1)).
Proof.
  intros blk a out. unfold PaiNNInteraction.forward.
  destruct (PaiNNInteraction.aggregate blk a out) as [[s|e] out1] eqn:E.
  - right. exists s, out1. split; [reflexivity|].
    erewrite bind_ok by exact E. apply interaction_update_raises.
  - left. exists e, out1. split; [reflexivity|].
    now apply bind_raise.
Qed.

Lemma interaction_forward_raises : forall blk a out,
  raises (PaiNNInteraction.forward blk a) out.
Proof.
  intros blk a out.
  destruct (interaction_forward_cases blk a out)
    as [(e & o & _ & H) | (s & o & _ & H)]; eexists; eexists; exact H.
Qed.

(** C4: [PaiNNInteraction.forward] never returns a (q', mu', dtm) triple.
    The self term of line 136 raises a TypeError for every [mui], because
    [torch.transpose] is called without its two dimensions; the compression
    layer called with the extra arguments 1 and 2 raises a TypeError as
    well.  So every evaluation ends in an exception: the one raised by lines
    122 to 132 when they fail, the TypeError of line 136 otherwise. *)
Theorem interaction_forward_never_returns :
  forall (blk : PaiNNInteraction.t) (a : PaiNNInteraction.args) (out : stdout),
    (forall mui out1,
        torch_transpose [PTensor mui] out1 = (Raise TypeError, out1)
        /\ PaiNNInteraction.self_term blk mui out1 = (Raise TypeError, out1))
    /\ (forall x out1,
           call_module
             (EquivariantCompressionLayer.forward (PaiNNInteraction.compression_layer blk))
             [PTensor x; PInt 1; PInt 2] out1
           = (Raise TypeError, out1))
    /\ raises (PaiNNInteraction.forward blk a) out
    /\ ((exists e out1,
            PaiNNInteraction.aggregate blk a out = (Raise e, out1)
            /\ PaiNNInteraction.forward blk a out = (Raise e, out1))
        \/ (exists s out1,
               PaiNNInteraction.aggregate blk a out = (Ok s, out1)
               /\ PaiNNInteraction.forward blk a out = (Raise TypeError, out1))).
Proof.
  intros blk a out.
  split; [intros mui out1; split; reflexivity|].
  split; [intros x out1; reflexivity|].
  split; [apply interaction_forward_raises | apply interaction_forward_cases].
Qed.

(** With the vector feature in the documented layout [atoms, 3, 2F] the
    scalar aggregate of line 129 is computed and the compression layer of
    line 130 raises a RuntimeError, before anything is written. *)
Lemma interaction_forward_documented_layout :
  (exists sc,
      PaiNNInteraction.scalar_aggregate Examples.interaction1 Examples.args1_documented []
      = (Ok sc, []))
  /\ PaiNNInteraction.forward Examples.interaction1 Examples.args1_documented []
     = (Raise RuntimeError, []).
Proof. split; [eexists|]; reflexivity. Qed.

(** C2: on two atoms joined by two edges, lines 122 to 132 complete (after
    the compression layer has written one empty line) and line 136 then
    raises a TypeError: no q' and no mu' are returned. *)
Theorem interaction_forward_raises_at_self_term :
  (exists s,
      PaiNNInteraction.aggregate Examples.interaction1 Examples.args1 []
      = (Ok s, [newline])
      /\ shape (PaiNNInteraction.dq (PaiNNInteraction.scalar_part s)) = [2; 1; 1]
      /\ shape (PaiNNInteraction.dmu s) = [2; 3; 3])
  /\ PaiNNInteraction.forward Examples.interaction1 Examples.args1 []
     = (Raise TypeError, [newline]).
Proof.
  split.
  - eexists. split; [reflexivity|]. split; reflexivity.
  - reflexivity.
Qed.

(** C10: the compression layer writes an empty line to standard output on
    every call that reaches line 33, and so does the interaction block that
    calls it. *)
Theorem interaction_forward_prints :
  snd (EquivariantCompressionLayer.forward Examples.compression0 Examples.vectors0 [])
  = [newline]
  /\ snd (PaiNNInteraction.forward Examples.interaction1 Examples.args1 [])
     = [newline].
Proof. split; reflexivity. Qed.

(** ** Aggregation over edges *)

Lemma edge_sum_perm : forall idx a x order order',
  Permutation order order' -> edge_sum order idx a x = edge_sum order' idx a x.
Proof.
  intros idx a x order order' P.
  induction P as [| e l l' _ IH | e e' l | l l' l'' _ IH1 _ IH2]; simpl.
  - reflexivity.
  - now rewrite IH.
  - ring.
  - now rewrite IH1.
Qed.

Lemma edge_sum_seq : forall idx pre a x acc,
  index_add_from (length pre) idx a x acc
  = (acc + edge_sum (seq (length pre) (length idx)) (pre ++ idx) a x)%R.
Proof.
  induction idx as [|z idx IH]; intros pre a x acc; simpl.
  - ring.
  - replace (S (length pre)) with (length (pre ++ [z]))
      by (rewrite length_app; simpl; lia).
    rewrite IH. rewrite <- app_assoc. simpl.
    rewrite nth_middle.
    rewrite length_app. simpl. rewrite Nat.add_1_r.
    destruct (z =? Z.of_nat a)%Z; ring.
Qed.

Lemma index_add_from_absent : forall idx e a x acc,
  ~ In (Z.of_nat a) idx -> index_add_from e idx a x acc = acc.
Proof.
  induction idx as [|z idx IH]; intros e a x acc Hn; simpl.
  - reflexivity.
  - destruct (Z.eqb_spec z (Z.of_nat a)) as [E|_].
    + exfalso. apply Hn. now left.
    + apply IH. intro H. apply Hn. now right.
Qed.

Lemma scatter_add_grouped : forall x idx n out r out',
  scatter_add x idx n out = (Ok r, out') ->
  out' = out /\ grouped_sums x idx n r.
Proof.
  intros x idx n out r out'. unfold scatter_add.
  destruct (shape x) as [|E s] eqn:Hs; [discriminate|].
  destruct ((length idx =? E) && forallb (index_in_range n) idx)%bool; [|discriminate].
  unfold ret. intro H. inversion H. subst out'. split; [reflexivity|].
  unfold grouped_sums. simpl. rewrite Hs. split; [reflexivity|]. split.
  - intros order atom rest P.
    rewrite (edge_sum_perm idx atom _ order _ P).
    rewrite (edge_sum_seq idx [] atom _ 0%R). simpl. ring.
  - intros atom rest Hn. now apply index_add_from_absent.
Qed.

Lemma scalar_aggregate_grouped : forall blk a out sc out1,
  PaiNNInteraction.scalar_aggregate blk a out = (Ok sc, out1) ->
  grouped_sums (PaiNNInteraction.dq_edges sc) (PaiNNInteraction.idx_i a)
               (PaiNNInteraction.n_atoms a) (PaiNNInteraction.dq sc).
Proof.
  intros blk a out sc out1 H. unfold PaiNNInteraction.scalar_aggregate in H.
  apply bind_inv_ok in H. destruct H as ([[xj muj] mui] & o1 & _ & H).
  apply bind_inv_ok in H. destruct H as ([[dq_e dmuR] dmumu] & o2 & _ & H).
  apply bind_inv_ok in H. destruct H as (dq & o3 & Hdq & H).
  unfold ret in H. inversion H. subst sc. simpl.
  now apply scatter_add_grouped in Hdq.
Qed.

(** ** PaiNNInteraction: indices and filter width *)

Lemma linear_shape_rank3 : forall L x a b v,
  shape x = [a; b; v] -> v = in_features L ->
  forall out, linear L x out
              = (Ok (mkT [a; b; out_features L] (linear_value L (get x))), out).
Proof.
  intros L x a b v Hs Hv out. unfold linear. rewrite Hs. simpl.
  subst v. now rewrite Nat.eqb_refl.
Qed.

Lemma context_net_shape : forall blk x A out,
  shape x = [A; 1; PaiNNInteraction.n_atom_basis blk] ->
  exists y,
    PaiNNInteraction.interatomic_context_net blk x out = (Ok y, out)
    /\ shape y = [A; 1; 3 * PaiNNInteraction.n_atom_basis blk].
Proof.
  intros blk x A out Hs.
  unfold PaiNNInteraction.interatomic_context_net, dense.
  erewrite bind_ok
    by (erewrite bind_ok by (apply linear_shape_rank3 with (1 := Hs); reflexivity);
        reflexivity).
  erewrite bind_ok by (apply linear_shape_rank3 with (a := A) (b := 1)
                         (v := PaiNNInteraction.n_atom_basis blk); reflexivity).
  eexists. split; reflexivity.
Qed.

Lemma wrap_index_some : forall n z, wraps n z -> exists i, wrap_index n z = Some i.
Proof.
  intros n z [Hl Hu]. unfold wrap_index.
  destruct (Z.leb_spec 0 z) as [H0|H0]; simpl.
  - destruct (Z.ltb_spec z (Z.of_nat n)); [eauto | lia].
  - destruct (Z.ltb_spec z 0); [|lia]. simpl.
    destruct (Z.leb_spec (- Z.of_nat n) z); [eauto | lia].
Qed.

Lemma wrap_index_none : forall n z, ~ wraps n z -> wrap_index n z = None.
Proof.
  intros n z H. unfold wrap_index, wraps in *.
  destruct (Z.leb_spec 0 z) as [H0|H0]; simpl.
  - destruct (Z.ltb_spec z (Z.of_nat n)); [lia|].
    destruct (Z.ltb_spec z 0); [lia | reflexivity].
  - destruct (Z.ltb_spec z 0); [|lia]. simpl.
    destruct (Z.leb_spec (- Z.of_nat n) z); [lia | reflexivity].
Qed.

Lemma wrap_indices_some : forall n idx,
  (forall z, In z idx -> wraps n z) -> exists rows, wrap_indices n idx = Some rows.
Proof.
  induction idx as [|z idx IH]; intro H; simpl.
  - eauto.
  - destruct (wrap_index_some n z) as [i ->]; [apply H; now left|].
    destruct IH as [rows ->]; [intros; apply H; now right|]. eauto.
Qed.

Lemma wrap_indices_none : forall n idx z,
  In z idx -> ~ wraps n z -> wrap_indices n idx = None.
Proof.
  induction idx as [|y idx IH]; intros z Hin Hz; simpl.
  - contradiction.
  - destruct Hin as [->|Hin].
    + now rewrite (wrap_index_none n z Hz).
    + rewrite (IH z Hin Hz). now destruct (wrap_index n y).
Qed.

Lemma wraps_dec : forall n idx,
  (forall z, In z idx -> wraps n z) \/ (exists z, In z idx /\ ~ wraps n z).
Proof.
  induction idx as [|y idx [IH|(z & Hin & Hz)]].
  - left. intros z [].
  - assert (D : wraps n y \/ ~ wraps n y) by (unfold wraps; lia).
    destruct D as [Hy|Hy].
    + left. intros z [<-|Hin]; auto.
    + right. exists y. split; [now left | assumption].
  - right. exists z. split; [now right | assumption].
Qed.

Lemma index_rows_ok : forall x n s idx out,
  shape x = n :: s -> (forall z, In z idx -> wraps n z) ->
  exists r, index_rows x idx out = (Ok r, out) /\ shape r = length idx :: s.
Proof.
  intros x n s idx out Hs H. unfold index_rows. rewrite Hs.
  destruct (wrap_indices_some n idx H) as [rows ->].
  eexists. split; reflexivity.
Qed.

Lemma index_rows_out_of_range : forall x n s idx z out,
  shape x = n :: s -> In z idx -> ~ wraps n z ->
  index_rows x idx out = (Raise IndexError, out).
Proof.
  intros x n s idx z out Hs Hin Hz. unfold index_rows. rewrite Hs.
  now rewrite (wrap_indices_none n idx z Hin Hz).
Qed.

Lemma gather_ok : forall blk a A smu out,
  shape (PaiNNInteraction.q a) = [A; 1; PaiNNInteraction.n_atom_basis blk] ->
  shape (PaiNNInteraction.mu a) = A :: smu ->
  (forall z, In z (PaiNNInteraction.idx_j a) -> wraps A z) ->
  (forall z, In z (PaiNNInteraction.idx_i a) -> wraps A z) ->
  exists xj muj mui,
    PaiNNInteraction.gather blk a out = (Ok (xj, muj, mui), out)
    /\ shape xj = [length (PaiNNInteraction.idx_j a); 1;
                   3 * PaiNNInteraction.n_atom_basis blk]
    /\ shape muj = length (PaiNNInteraction.idx_j a) :: smu
    /\ shape mui = length (PaiNNInteraction.idx_i a) :: smu.
Proof.
  intros blk a A smu out Hq Hmu Hj Hi.
  destruct (context_net_shape blk _ A out Hq) as (x & Hx & Hsx).
  destruct (index_rows_ok x A _ _ out Hsx Hj) as (xj & Hxj & Hsxj).
  destruct (index_rows_ok _ A smu _ out Hmu Hj) as (muj & Hmuj & Hsmuj).
  destruct (index_rows_ok _ A smu _ out Hmu Hi) as (mui & Hmui & Hsmui).
  exists xj, muj, mui. unfold PaiNNInteraction.gather.
  rewrite (bind_ok _ _ _ _ _ _ _ Hx), (bind_ok _ _ _ _ _ _ _ Hxj),
          (bind_ok _ _ _ _ _ _ _ Hmuj), (bind_ok _ _ _ _ _ _ _ Hmui).
  repeat split; assumption.
Qed.

Lemma gather_out_of_range : forall blk a A smu out z,
  shape (PaiNNInteraction.q a) = [A; 1; PaiNNInteraction.n_atom_basis blk] ->
  shape (PaiNNInteraction.mu a) = A :: smu ->
  In z (PaiNNInteraction.idx_j a) \/ In z (PaiNNInteraction.idx_i a) ->
  ~ wraps A z ->
  PaiNNInteraction.gather blk a out = (Raise IndexError, out).
Proof.
  intros blk a A smu out z Hq Hmu Hin Hz.
  destruct (context_net_shape blk _ A out Hq) as (x & Hx & Hsx).
  unfold PaiNNInteraction.gather. rewrite (bind_ok _ _ _ _ _ _ _ Hx).
  destruct (wraps_dec A (PaiNNInteraction.idx_j a)) as [Hj|(y & Hy & Hny)].
  - destruct Hin as [Hin|Hin]; [elim Hz; now apply Hj|].
    destruct (index_rows_ok x A _ _ out Hsx Hj) as (xj & Hxj & _).
    destruct (index_rows_ok _ A smu _ out Hmu Hj) as (muj & Hmuj & _).
    rewrite (bind_ok _ _ _ _ _ _ _ Hxj), (bind_ok _ _ _ _ _ _ _ Hmuj).
    apply bind_raise. now apply index_rows_out_of_range with (n := A) (s := smu) (z := z).
  - apply bind_raise.
    now apply index_rows_out_of_range with (n := A) (z := y)
                                           (s := [1; 3 * PaiNNInteraction.n_atom_basis blk]).
Qed.

Lemma forward_raises_with_gather : forall blk a out e out1,
  PaiNNInteraction.gather blk a out = (Raise e, out1) ->
  PaiNNInteraction.forward blk a out = (Raise e, out1).
Proof.
  intros blk a out e out1 H.
  unfold PaiNNInteraction.forward, PaiNNInteraction.aggregate,
         PaiNNInteraction.scalar_aggregate.
  now do 3 apply bind_raise.
Qed.

Lemma forward_raises_with_filter : forall blk a out g out1 e out2,
  PaiNNInteraction.gather blk a out = (Ok g, out1) ->
  PaiNNInteraction.filter_split blk a (fst (fst g)) out1 = (Raise e, out2) ->
  PaiNNInteraction.forward blk a out = (Raise e, out2).
Proof.
  intros blk a out [[xj muj] mui] out1 e out2 Hg Hf.
  unfold PaiNNInteraction.forward, PaiNNInteraction.aggregate,
         PaiNNInteraction.scalar_aggregate.
  do 2 apply bind_raise. rewrite (bind_ok _ _ _ _ _ _ _ Hg).
  now apply bind_raise.
Qed.

Lemma broadcast_filter : forall E w n,
  broadcast_shapes [E; 1; w] [E; 1; n]
  = match bdim w n with
    | Some d => Some [E; 1; d]
    | None => None
    end.
Proof.
  intros E w n. unfold broadcast_shapes. simpl.
  destruct (bdim w n) as [d|]; [|reflexivity].
  rewrite !bdim_same. reflexivity.
Qed.

Lemma split_three : forall x S F out,
  0 < F -> shape x = S ++ [3 * F] ->
  exists c0 c1 c2,
    torch_split_last x F out = (Ok [c0; c1; c2], out)
    /\ shape c0 = S ++ [F] /\ shape c1 = S ++ [F] /\ shape c2 = S ++ [F].
Proof.
  intros x S F out HF Hs. unfold torch_split_last. rewrite Hs, rev_snoc.
  destruct (Nat.eqb_spec F 0) as [E0|_]; [lia|].
  assert (Hn : Nat.max ((3 * F + F - 1) / F) 1 = 3).
  { replace ((3 * F + F - 1) / F) with 3; [reflexivity|].
    apply Nat.div_unique with (r := F - 1); lia. }
  rewrite Hn. cbn [seq map Nat.ltb Nat.leb Nat.sub].
  do 3 eexists. split; [reflexivity|].
  unfold narrow_last. rewrite Hs, removelast_last. cbn [shape].
  repeat split; f_equal; f_equal; lia.
Qed.

Lemma filter_split_mismatch : forall blk a xj E w out,
  0 < PaiNNInteraction.n_atom_basis blk ->
  shape (PaiNNInteraction.Wij a) = [E; 1; w] ->
  shape xj = [E; 1; 3 * PaiNNInteraction.n_atom_basis blk] ->
  w <> 3 * PaiNNInteraction.n_atom_basis blk -> w <> 1 ->
  PaiNNInteraction.filter_split blk a xj out = (Raise RuntimeError, out).
Proof.
  intros blk a xj E w out HF HW Hx Hw3 Hw1.
  unfold PaiNNInteraction.filter_split. apply bind_raise.
  unfold tmul, tbin. rewrite HW, Hx, broadcast_filter. unfold bdim.
  destruct (Nat.eqb_spec w (3 * PaiNNInteraction.n_atom_basis blk)); [lia|].
  destruct (Nat.eqb_spec w 1); [lia|].
  destruct (Nat.eqb_spec (3 * PaiNNInteraction.n_atom_basis blk) 1); [lia|].
  reflexivity.
Qed.

Lemma filter_split_ok : forall blk a xj E w out,
  0 < PaiNNInteraction.n_atom_basis blk ->
  shape (PaiNNInteraction.Wij a) = [E; 1; w] ->
  shape xj = [E; 1; 3 * PaiNNInteraction.n_atom_basis blk] ->
  w = 3 * PaiNNInteraction.n_atom_basis blk \/ w = 1 ->
  exists dq_e dmuR dmumu,
    PaiNNInteraction.filter_split blk a xj out = (Ok (dq_e, dmuR, dmumu), out)
    /\ shape dq_e = [E; 1; PaiNNInteraction.n_atom_basis blk].
Proof.
  intros blk a xj E w out HF HW Hx Hw.
  assert (Hb : bdim w (3 * PaiNNInteraction.n_atom_basis blk)
               = Some (3 * PaiNNInteraction.n_atom_basis blk)).
  { unfold bdim. destruct Hw as [->| ->].
    - now rewrite Nat.eqb_refl.
    - destruct (Nat.eqb_spec 1 (3 * PaiNNInteraction.n_atom_basis blk)); [lia|].
      reflexivity. }
  unfold PaiNNInteraction.filter_split, tmul, tbin.
  rewrite HW, Hx, broadcast_filter, Hb.
  unfold ret at 1. unfold bind at 1.
  match goal with
  | |- context [torch_split_last ?x _] =>
      destruct (split_three x [E; 1] (PaiNNInteraction.n_atom_basis blk) out HF eq_refl)
        as (c0 & c1 & c2 & Hsp & H0 & _)
  end.
  rewrite (bind_ok _ _ _ _ _ _ _ Hsp).
  exists c0, c1, c2. split; [reflexivity | exact H0].
Qed.

Lemma in_range_wraps : forall n z, (0 <= z < Z.of_nat n)%Z -> wraps n z.
Proof. intros n z H. unfold wraps. lia. Qed.

Lemma forallb_in_range : forall n idx,
  (forall z, In z idx -> (0 <= z < Z.of_nat n)%Z) ->
  forallb (index_in_range n) idx = true.
Proof.
  intros n idx H. apply forallb_forall. intros z Hz.
  unfold index_in_range. specialize (H z Hz).
  apply andb_true_intro. split; [apply Z.leb_le | apply Z.ltb_lt]; lia.
Qed.

Lemma scalar_aggregate_ok : forall blk a A smu out,
  0 < PaiNNInteraction.n_atom_basis blk ->
  shape (PaiNNInteraction.q a) = [A; 1; PaiNNInteraction.n_atom_basis blk] ->
  shape (PaiNNInteraction.mu a) = A :: smu ->
  (forall z, In z (PaiNNInteraction.idx_j a) -> (0 <= z < Z.of_nat A)%Z) ->
  (forall z, In z (PaiNNInteraction.idx_i a) -> (0 <= z < Z.of_nat A)%Z) ->
  shape (PaiNNInteraction.Wij a)
  = [length (PaiNNInteraction.idx_j a); 1; 3 * PaiNNInteraction.n_atom_basis blk] ->
  length (PaiNNInteraction.idx_i a) = length (PaiNNInteraction.idx_j a) ->
  PaiNNInteraction.n_atoms a = A ->
  exists sc,
    PaiNNInteraction.scalar_aggregate blk a out = (Ok sc, out)
    /\ shape (PaiNNInteraction.dq sc) = [A; 1; PaiNNInteraction.n_atom_basis blk].
Proof.
  intros blk a A smu out HF Hq Hmu Hj Hi HW Hlen Hn.
  destruct (gather_ok blk a A smu out Hq Hmu)
    as (xj & muj & mui & Hg & Hxj & _).
  { intros z Hz. apply in_range_wraps. now apply Hj. }
  { intros z Hz. apply in_range_wraps. now apply Hi. }
  destruct (filter_split_ok blk a xj _ _ out HF HW Hxj (or_introl eq_refl))
    as (dq_e & dmuR & dmumu & Hf & Hdq).
  unfold PaiNNInteraction.scalar_aggregate.
  rewrite (bind_ok _ _ _ _ _ _ _ Hg). cbv beta iota zeta.
  rewrite (bind_ok _ _ _ _ _ _ _ Hf). cbv beta iota zeta.
  unfold scatter_add. rewrite Hdq, Hlen, Nat.eqb_refl, Hn.
  rewrite (forallb_in_range A _ Hi). cbn [andb].
  eexists. split; reflexivity.
Qed.

Lemma forallb_out_of_range : forall n idx z,
  In z idx -> ~ (0 <= z < Z.of_nat n)%Z ->
  forallb (index_in_range n) idx = false.
Proof.
  intros n idx z Hin Hz.
  destruct (forallb (index_in_range n) idx) eqn:E; [|reflexivity].
  exfalso. apply Hz.
  pose proof (proj1 (forallb_forall _ _) E z Hin) as Hr.
  unfold index_in_range in Hr. apply andb_prop in Hr. destruct Hr as [H0 H1].
  apply Z.leb_le in H0. apply Z.ltb_lt in H1. lia.
Qed.

Lemma scatter_add_out_of_range : forall x idx n z out,
  In z idx -> ~ (0 <= z < Z.of_nat n)%Z ->
  scatter_add x idx n out = (Raise IndexError, out).
Proof.
  intros x idx n z out Hin Hz. unfold scatter_add.
  destruct (shape x) as [|E s]; [reflexivity|].
  rewrite (forallb_out_of_range n idx z Hin Hz), andb_false_r. reflexivity.
Qed.

Lemma scalar_aggregate_raises_with_gather : forall blk a out e out1,
  PaiNNInteraction.gather blk a out = (Raise e, out1) ->
  PaiNNInteraction.scalar_aggregate blk a out = (Raise e, out1).
Proof.
  intros blk a out e out1 H. unfold PaiNNInteraction.scalar_aggregate.
  now apply bind_raise.
Qed.

Lemma scalar_aggregate_raises_with_filter : forall blk a out g out1 e out2,
  PaiNNInteraction.gather blk a out = (Ok g, out1) ->
  PaiNNInteraction.filter_split blk a (fst (fst g)) out1 = (Raise e, out2) ->
  PaiNNInteraction.scalar_aggregate blk a out = (Raise e, out2).
Proof.
  intros blk a out [[xj muj] mui] out1 e out2 Hg Hf.
  unfold PaiNNInteraction.scalar_aggregate.
  rewrite (bind_ok _ _ _ _ _ _ _ Hg). now apply bind_raise.
Qed.

Lemma forward_raises_with_scalar_aggregate : forall blk a out e out1,
  PaiNNInteraction.scalar_aggregate blk a out = (Raise e, out1) ->
  PaiNNInteraction.forward blk a out = (Raise e, out1).
Proof.
  intros blk a out e out1 H.
  unfold PaiNNInteraction.forward, PaiNNInteraction.aggregate.
  now do 2 apply bind_raise.
Qed.

(** Line 129 on a target index outside [0, n_atoms) that the gathers have
    accepted. *)
Lemma scalar_aggregate_rejects_target : forall blk a A smu out w z,
  0 < PaiNNInteraction.n_atom_basis blk ->
  shape (PaiNNInteraction.q a) = [A; 1; PaiNNInteraction.n_atom_basis blk] ->
  shape (PaiNNInteraction.mu a) = A :: smu ->
  (forall y, In y (PaiNNInteraction.idx_j a) -> wraps A y) ->
  (forall y, In y (PaiNNInteraction.idx_i a) -> wraps A y) ->
  shape (PaiNNInteraction.Wij a) = [length (PaiNNInteraction.idx_j a); 1; w] ->
  w = 3 * PaiNNInteraction.n_atom_basis blk \/ w = 1 ->
  In z (PaiNNInteraction.idx_i a) ->
  ~ (0 <= z < Z.of_nat (PaiNNInteraction.n_atoms a))%Z ->
  PaiNNInteraction.scalar_aggregate blk a out = (Raise IndexError, out).
Proof.
  intros blk a A smu out w z HF Hq Hmu Hj Hi HW Hw Hin Hz.
  destruct (gather_ok blk a A smu out Hq Hmu Hj Hi)
    as (xj & muj & mui & Hg & Hxj & _).
  destruct (filter_split_ok blk a xj _ w out HF HW Hxj Hw)
    as (dq_e & dmuR & dmumu & Hf & _).
  unfold PaiNNInteraction.scalar_aggregate.
  rewrite (bind_ok _ _ _ _ _ _ _ Hg). cbv beta iota zeta.
  rewrite (bind_ok _ _ _ _ _ _ _ Hf). cbv beta iota zeta.
  apply bind_raise. now apply scatter_add_out_of_range with (z := z).
Qed.

(** C9, as the code has it.  For a scalar feature of shape [A, 1, F] and a
    vector feature with [A] rows: an entry of [idx_j] or [idx_i] that is not
    in [-A, A) makes the gathers of lines 123 to 125, and with them
    [forward], raise an IndexError; when all entries are in [-A, A) the
    gathers complete, a filter [E, 1, w] with [w] neither 3F nor 1 makes the
    product of line 126, and with it [forward], raise a RuntimeError, while
    a filter of width 3F or 1 passes lines 126 to 128.  A target index in
    [idx_i] that is not in [0, n_atoms) is never accepted: when it passes the
    gathers and the filter has width 3F or 1, the aggregation of line 129
    raises an IndexError, and whatever the other arguments are, lines 122
    to 129 end in an IndexError or a RuntimeError with nothing written and
    no aggregate produced.  With all indices in [0, A) and a filter of
    width 3F lines 122 to 129 complete.  In every case [forward] ends in an
    exception and returns nothing. *)
Theorem interaction_index_and_filter_errors :
  forall (blk : PaiNNInteraction.t) (a : PaiNNInteraction.args)
         (A : nat) (smu : list nat) (out : stdout),
    0 < PaiNNInteraction.n_atom_basis blk ->
    shape (PaiNNInteraction.q a) = [A; 1; PaiNNInteraction.n_atom_basis blk] ->
    shape (PaiNNInteraction.mu a) = A :: smu ->
    (forall z,
        In z (PaiNNInteraction.idx_j a) \/ In z (PaiNNInteraction.idx_i a) ->
        ~ wraps A z ->
        PaiNNInteraction.gather blk a out = (Raise IndexError, out)
        /\ PaiNNInteraction.forward blk a out = (Raise IndexError, out))
    /\ ((forall z, In z (PaiNNInteraction.idx_j a) -> wraps A z) ->
        (forall z, In z (PaiNNInteraction.idx_i a) -> wraps A z) ->
        forall w,
          shape (PaiNNInteraction.Wij a) = [length (PaiNNInteraction.idx_j a); 1; w] ->
          exists g,
            PaiNNInteraction.gather blk a out = (Ok g, out)
            /\ (w <> 3 * PaiNNInteraction.n_atom_basis blk -> w <> 1 ->
                PaiNNInteraction.filter_split blk a (fst (fst g)) out
                = (Raise RuntimeError, out)
                /\ PaiNNInteraction.forward blk a out = (Raise RuntimeError, out))
            /\ (w = 3 * PaiNNInteraction.n_atom_basis blk \/ w = 1 ->
                returns (PaiNNInteraction.filter_split blk a (fst (fst g))) out))
    /\ ((forall z, In z (PaiNNInteraction.idx_j a) -> wraps A z) ->
        (forall z, In z (PaiNNInteraction.idx_i a) -> wraps A z) ->
        forall w z,
          shape (PaiNNInteraction.Wij a) = [length (PaiNNInteraction.idx_j a); 1; w] ->
          w = 3 * PaiNNInteraction.n_atom_basis blk \/ w = 1 ->
          In z (PaiNNInteraction.idx_i a) ->
          ~ (0 <= z < Z.of_nat (PaiNNInteraction.n_atoms a))%Z ->
          PaiNNInteraction.scalar_aggregate blk a out = (Raise IndexError, out)
          /\ PaiNNInteraction.forward blk a out = (Raise IndexError, out))
    /\ (forall w z,
          shape (PaiNNInteraction.Wij a) = [length (PaiNNInteraction.idx_j a); 1; w] ->
          In z (PaiNNInteraction.idx_i a) ->
          ~ (0 <= z < Z.of_nat (PaiNNInteraction.n_atoms a))%Z ->
          exists e,
            (e = IndexError \/ e = RuntimeError)
            /\ PaiNNInteraction.scalar_aggregate blk a out = (Raise e, out)
            /\ PaiNNInteraction.forward blk a out = (Raise e, out))
    /\ ((forall z, In z (PaiNNInteraction.idx_j a) -> (0 <= z < Z.of_nat A)%Z) ->
        (forall z, In z (PaiNNInteraction.idx_i a) -> (0 <= z < Z.of_nat A)%Z) ->
        shape (PaiNNInteraction.Wij a)
        = [length (PaiNNInteraction.idx_j a); 1; 3 * PaiNNInteraction.n_atom_basis blk] ->
        length (PaiNNInteraction.idx_i a) = length (PaiNNInteraction.idx_j a) ->
        PaiNNInteraction.n_atoms a = A ->
        exists sc,
          PaiNNInteraction.scalar_aggregate blk a out = (Ok sc, out)
          /\ shape (PaiNNInteraction.dq sc) = [A; 1; PaiNNInteraction.n_atom_basis blk])
    /\ raises (PaiNNInteraction.forward blk a) out.
Proof.
  intros blk a A smu out HF Hq Hmu. repeat apply conj.
  - intros z Hin Hz.
    pose proof (gather_out_of_range blk a A smu out z Hq Hmu Hin Hz) as Hg.
    split; [exact Hg | now apply forward_raises_with_gather].
  - intros Hj Hi w HW.
    destruct (gather_ok blk a A smu out Hq Hmu Hj Hi)
      as (xj & muj & mui & Hg & Hxj & _).
    exists (xj, muj, mui). split; [exact Hg|]. split.
    + intros Hw3 Hw1.
      pose proof (filter_split_mismatch blk a xj _ w out HF HW Hxj Hw3 Hw1) as Hf.
      split; [exact Hf|].
      now apply forward_raises_with_filter with (g := (xj, muj, mui)) (out1 := out).
    + intro Hw.
      destruct (filter_split_ok blk a xj _ w out HF HW Hxj Hw)
        as (c0 & c1 & c2 & Hf & _).
      eexists. eexists. exact Hf.
  - intros Hj Hi w z HW Hw Hin Hz.
    pose proof (scalar_aggregate_rejects_target blk a A smu out w z
                  HF Hq Hmu Hj Hi HW Hw Hin Hz) as Hs.
    split; [exact Hs | now apply forward_raises_with_scalar_aggregate].
  - intros w z HW Hin Hz.
    destruct (wraps_dec A (PaiNNInteraction.idx_j a)) as [Hj|(y & Hy & Hny)].
    2:{ exists IndexError. split; [now left|].
        pose proof (gather_out_of_range blk a A smu out y Hq Hmu (or_introl Hy) Hny) as Hg.
        split; [now apply scalar_aggregate_raises_with_gather
               | now apply forward_raises_with_gather]. }
    destruct (wraps_dec A (PaiNNInteraction.idx_i a)) as [Hi|(y & Hy & Hny)].
    2:{ exists IndexError. split; [now left|].
        pose proof (gather_out_of_range blk a A smu out y Hq Hmu (or_intror Hy) Hny) as Hg.
        split; [now apply scalar_aggregate_raises_with_gather
               | now apply forward_raises_with_gather]. }
    assert (D : (w = 3 * PaiNNInteraction.n_atom_basis blk \/ w = 1)
                \/ (w <> 3 * PaiNNInteraction.n_atom_basis blk /\ w <> 1)) by lia.
    destruct D as [Hw|[Hw3 Hw1]].
    + exists IndexError. split; [now left|].
      pose proof (scalar_aggregate_rejects_target blk a A smu out w z
                    HF Hq Hmu Hj Hi HW Hw Hin Hz) as Hs.
      split; [exact Hs | now apply forward_raises_with_scalar_aggregate].
    + exists RuntimeError. split; [now right|].
      destruct (gather_ok blk a A smu out Hq Hmu Hj Hi)
        as (xj & muj & mui & Hg & Hxj & _).
      pose proof (filter_split_mismatch blk a xj _ w out HF HW Hxj Hw3 Hw1) as Hf.
      split.
      * now apply scalar_aggregate_raises_with_filter with (g := (xj, muj, mui)) (out1 := out).
      * now apply forward_raises_with_filter with (g := (xj, muj, mui)) (out1 := out).
  - intros Hj Hi HW Hlen Hn.
    now apply scalar_aggregate_ok with (smu := smu).
  - apply interaction_forward_raises.
Qed.

Lemma interaction_index_and_filter_errors_witness :
  (exists sc,
      PaiNNInteraction.scalar_aggregate Examples.interaction1 Examples.args1 [] = (Ok sc, [])
      /\ shape (PaiNNInteraction.dq sc) = [2; 1; 1])
  /\ PaiNNInteraction.scalar_aggregate Examples.interaction1
       Examples.args1_negative_target []
     = (Raise IndexError, [])
  /\ PaiNNInteraction.forward Examples.interaction1 Examples.args1_negative_target []
     = (Raise IndexError, []).
Proof.
  split.
  - destruct (interaction_index_and_filter_errors
                Examples.interaction1 Examples.args1 2 [2; 3] [])
      as (_ & _ & _ & _ & Hvalid & _).
    + simpl. lia.
    + reflexivity.
    + reflexivity.
    + apply Hvalid.
      * simpl. intros z [<-|[<-|[]]]; lia.
      * simpl. intros z [<-|[<-|[]]]; lia.
      * reflexivity.
      * reflexivity.
      * reflexivity.
  - destruct (interaction_index_and_filter_errors
                Examples.interaction1 Examples.args1_negative_target 2 [2; 3] [])
      as (_ & _ & Htarget & _).
    + simpl. lia.
    + reflexivity.
    + reflexivity.
    + apply (Htarget) with (w := 3) (z := (-1)%Z).
      * simpl. intros z [<-|[<-|[]]]; unfold wraps; simpl; lia.
      * simpl. intros z [<-|[<-|[]]]; unfold wraps; simpl; lia.
      * reflexivity.
      * now left.
      * now left.
      * simpl. lia.
Defined.

(** C9, as stated, fails: with the source index -1, which is outside
    [0, atom_count), and a filter of width 1, which is not 3F, lines 122 to
    129 complete without any error; the exception [forward] ends with is the
    TypeError of line 136. *)
Lemma interaction_accepts_wrapped_index_and_narrow_filter :
  In (-1)%Z (PaiNNInteraction.idx_j Examples.args1_wrapped)
  /\ index_in_range (PaiNNInteraction.n_atoms Examples.args1_wrapped) (-1)%Z = false
  /\ shape (PaiNNInteraction.Wij Examples.args1_wrapped) = [2; 1; 1]
  /\ 3 * PaiNNInteraction.n_atom_basis Examples.interaction1 = 3
  /\ (exists sc,
         PaiNNInteraction.scalar_aggregate Examples.interaction1 Examples.args1_wrapped []
         = (Ok sc, [])
         /\ shape (PaiNNInteraction.dq sc) = [2; 1; 1])
  /\ PaiNNInteraction.forward Examples.interaction1 Examples.args1_wrapped []
     = (Raise TypeError, [newline]).
Proof.
  split; [now left|]. split; [reflexivity|]. split; [reflexivity|].
  split; [reflexivity|]. split.
  - eexists. split; reflexivity.
  - reflexivity.
Qed.

(** ** PaiNNMixing: the scalar update *)

Lemma tbin_inv : forall f a b out r out',
  tbin f a b out = (Ok r, out') ->
  out' = out /\ broadcast_shapes (shape a) (shape b) = Some (shape r).
Proof.
  intros f a b out r out'. unfold tbin.
  destruct (broadcast_shapes (shape a) (shape b)) as [s|]; [|discriminate].
  unfold ret. intro H. inversion H. auto.
Qed.

Lemma bdim_wide : forall F d r, 2 <= F -> bdim F d = Some r -> r = F.
Proof.
  intros F d r HF. unfold bdim.
  destruct (Nat.eqb_spec F d); [congruence|].
  destruct (Nat.eqb_spec F 1); [lia|].
  destruct (Nat.eqb_spec d 1); congruence.
Qed.

Lemma bdim_double : forall F, 2 <= F -> bdim F (F + F) = None.
Proof.
  intros F HF. unfold bdim.
  destruct (Nat.eqb_spec F (F + F)); [lia|].
  destruct (Nat.eqb_spec F 1); [lia|].
  destruct (Nat.eqb_spec (F + F) 1); [lia | reflexivity].
Qed.

Lemma broadcast_keeps_last : forall S F s2 s,
  2 <= F -> broadcast_shapes (S ++ [F]) s2 = Some s -> exists s', s = s' ++ [F].
Proof.
  intros S F s2 s HF. unfold broadcast_shapes. rewrite rev_snoc.
  destruct (rev s2) as [|d r2] eqn:E; simpl.
  - intro H. inversion H. exists (rev (rev S)). reflexivity.
  - destruct (bdim F d) as [r|] eqn:Hb; [|discriminate].
    destruct (broadcast_rev (rev S) r2) as [rs|]; [|discriminate].
    simpl. intro H. inversion H.
    rewrite (bdim_wide F d r HF Hb). now exists (rev rs).
Qed.

Lemma broadcast_double_fails : forall S1 S2 F,
  2 <= F -> broadcast_shapes (S1 ++ [F]) (S2 ++ [F + F]) = None.
Proof.
  intros S1 S2 F HF. unfold broadcast_shapes. rewrite !rev_snoc. simpl.
  now rewrite (bdim_double F HF).
Qed.

Lemma cat_last_wide : forall a b Sa Sb F out c out',
  2 <= F -> shape a = Sa ++ [F] -> shape b = Sb ++ [F] ->
  cat_last a b out = (Ok c, out') -> shape c = Sa ++ [F + F].
Proof.
  intros a b Sa Sb F out c out' HF Ha Hb. unfold cat_last.
  rewrite Ha, Hb, !rev_snoc.
  destruct (list_eq_dec Nat.eq_dec (rev Sa) (rev Sb)) as [_|_].
  - unfold ret. intro H. inversion H. simpl. now rewrite rev_involutive.
  - destruct (list_eq_dec Nat.eq_dec (Sa ++ [F]) [0]) as [E|_].
    { apply (app_inj_tail Sa [] F 0) in E. lia. }
    destruct (list_eq_dec Nat.eq_dec (Sb ++ [F]) [0]) as [E|_].
    { apply (app_inj_tail Sb [] F 0) in E. lia. }
    discriminate.
Qed.

Lemma dense_inv : forall L act x out y out',
  dense L act x out = (Ok y, out') ->
  out' = out /\ shape y = removelast (shape x) ++ [out_features L].
Proof.
  intros L act x out y out' H. unfold dense in H.
  apply bind_inv_ok in H. destruct H as (z & o & Hz & H).
  apply linear_inv in Hz. destruct Hz as [-> ->].
  destruct act; unfold ret in H; inversion H; auto.
Qed.

Lemma unpack3_inv : forall A (l : list A) out a b c out',
  unpack3 l out = (Ok (a, b, c), out') -> l = [a; b; c].
Proof.
  intros A l out a b c out'. unfold unpack3.
  destruct l as [|x [|y [|z [|w l]]]]; try discriminate.
  unfold ret. intro H. now inversion H.
Qed.

(** For every block of width [F >= 2] and every scalar feature of width
    [F]: whenever lines 177 to 187 complete, the addition of line 191 raises
    a RuntimeError. *)
Lemma mixing_scalar_update_raises_wide : forall blk q mu Sq out u out1,
  2 <= PaiNNMixing.n_atom_basis blk ->
  shape q = Sq ++ [PaiNNMixing.n_atom_basis blk] ->
  PaiNNMixing.intra blk q mu out = (Ok u, out1) ->
  exists e, PaiNNMixing.scalar_update q u out1 = (Raise e, out1)
            /\ (forall c, cat_last (PaiNNMixing.dq_intra u) (PaiNNMixing.dqmu_intra u) out1
                          = (Ok c, out1) -> e = RuntimeError).
Proof.
  intros blk q mu Sq out u out1 HF Hq H.
  set (F := PaiNNMixing.n_atom_basis blk) in *.
  unfold PaiNNMixing.intra in H.
  apply bind_inv_ok in H. destruct H as (mu_mix & o1 & _ & H).
  apply bind_inv_ok in H. destruct H as (chunks & o2 & _ & H).
  apply bind_inv_ok in H. destruct H as ([mu_V mu_W] & o3 & _ & H).
  apply bind_inv_ok in H. destruct H as (sq & o4 & _ & H).
  cbv zeta in H.
  apply bind_inv_ok in H. destruct H as (ctx & o5 & _ & H).
  apply bind_inv_ok in H. destruct H as (x & o6 & Hx & H).
  apply bind_inv_ok in H. destruct H as (chunks' & o7 & Hsp & H).
  apply bind_inv_ok in H. destruct H as ([[dq0 dmu0] dqmu0] & o8 & Hun & H).
  apply bind_inv_ok in H. destruct H as (dmu1 & o9 & _ & H).
  apply bind_inv_ok in H. destruct H as (vw & o10 & _ & H).
  apply bind_inv_ok in H. destruct H as (dot & o11 & _ & H).
  apply bind_inv_ok in H. destruct H as (dqmu1 & o12 & Hmul & H).
  unfold ret in H. inversion H. subst u out1. clear H. cbn [PaiNNMixing.dq_intra
    PaiNNMixing.dqmu_intra].
  (* the context network yields a tensor of width 3F *)
  unfold PaiNNMixing.intraatomic_context_net in Hx.
  apply bind_inv_ok in Hx. destruct Hx as (h & oh & _ & Hx).
  apply dense_inv in Hx. destruct Hx as [_ Hsx]. cbn [out_features] in Hsx.
  fold F in Hsx.
  destruct (split_three x _ F o6 ltac:(lia) Hsx) as (c0 & c1 & c2 & Hsp' & H0 & _ & H2).
  unfold F in Hsp'. rewrite Hsp' in Hsp. inversion Hsp. subst chunks' o7. clear Hsp.
  apply unpack3_inv in Hun. inversion Hun. subst c0 c1 c2. clear Hun.
  apply tbin_inv in Hmul. destruct Hmul as [_ Hb].
  rewrite H2 in Hb.
  destruct (broadcast_keeps_last _ F _ _ HF Hb) as [S' HS'].
  unfold PaiNNMixing.scalar_update.
  cbn [PaiNNMixing.dq_intra PaiNNMixing.dqmu_intra].
  destruct (cat_last dq0 dqmu1 o12) as [[c|e] oc] eqn:Hc.
  - pose proof (cat_last_wide dq0 dqmu1 _ _ F o12 c oc HF H0 HS' Hc) as Hsc.
    assert (oc = o12).
    { unfold cat_last in Hc.
      destruct (rev (shape dq0)), (rev (shape dqmu1)); try discriminate.
      repeat match type of Hc with
             | context [if ?d then _ else _] => destruct d
             end; unfold ret, raise in Hc; now inversion Hc. }
    subst oc. exists RuntimeError. split; [|reflexivity].
    erewrite bind_ok by exact Hc. unfold tadd, tbin.
    now rewrite Hq, Hsc, (broadcast_double_fails Sq _ F HF).
  - assert (oc = o12).
    { unfold cat_last in Hc.
      destruct (rev (shape dq0)), (rev (shape dqmu1));
        unfold raise in Hc; try now inversion Hc.
      repeat match type of Hc with
             | context [if ?d then _ else _] => destruct d
             end; unfold ret, raise in Hc; now inversion Hc. }
    subst oc. exists e. split; [now apply bind_raise|].
    intros c Hc'. discriminate.
Qed.

(** A mixing block of width [F >= 2] never returns on a scalar feature of
    width [F]. *)
Lemma mixing_forward_raises_wide : forall blk q mu dtm Sq out,
  2 <= PaiNNMixing.n_atom_basis blk ->
  shape q = Sq ++ [PaiNNMixing.n_atom_basis blk] ->
  raises (PaiNNMixing.forward blk q mu dtm) out.
Proof.
  intros blk q mu dtm Sq out HF Hq. unfold PaiNNMixing.forward.
  apply raises_bind. intros u out1 Hu.
  destruct (mixing_scalar_update_raises_wide blk q mu Sq out u out1 HF Hq Hu)
    as (e & He & _).
  exists e, out1. now apply bind_raise.
Qed.

Lemma mixing_forward_raises_wide_witness :
  raises (PaiNNMixing.forward Examples.mixing2 Examples.q2 Examples.mu2 Examples.dtm2) [].
Proof.
  apply (mixing_forward_raises_wide
           Examples.mixing2 Examples.q2 Examples.mu2 Examples.dtm2 [1; 1] []).
  - simpl. lia.
  - reflexivity.
Defined.

(** For [n_atom_basis = 1] the addition of line 191 broadcasts the scalar
    feature of width 1 against the concatenation of width 2, and the block
    returns. *)
Lemma mixing_forward_returns_for_width_one :
  exists q' mu',
    PaiNNMixing.forward (Examples.mixing_zero 1 Examples.silu 0%R)
      (zeros [1; 1; 1]) (zeros [1; 3; 1]) (zeros [1; 1; 3; 3]) []
    = (Ok (q', mu'), [])
    /\ shape q' = [1; 1; 2] /\ shape mu' = [1; 3; 3].
Proof. do 2 eexists. split; [reflexivity|]. split; reflexivity. Qed.

(** C3: for [n_atom_basis = 2] lines 177 to 187 complete and yield updates
    of width 2 each; line 191 then adds their concatenation, of width 4, to
    a scalar feature of width 2, which raises a RuntimeError.  The mixing
    block returns no scalar feature of width 4. *)
Theorem mixing_scalar_update_raises :
  exists u,
    PaiNNMixing.intra Examples.mixing2 Examples.q2 Examples.mu2 [] = (Ok u, [])
    /\ shape (PaiNNMixing.dq_intra u) = [1; 1; 2]
    /\ shape (PaiNNMixing.dqmu_intra u) = [1; 1; 2]
    /\ (exists c,
           cat_last (PaiNNMixing.dq_intra u) (PaiNNMixing.dqmu_intra u) [] = (Ok c, [])
           /\ shape c = [1; 1; 4])
    /\ PaiNNMixing.scalar_update Examples.q2 u [] = (Raise RuntimeError, [])
    /\ PaiNNMixing.forward Examples.mixing2 Examples.q2 Examples.mu2 Examples.dtm2 []
       = (Raise RuntimeError, []).
Proof.
  eexists. split; [reflexivity|].
  split; [reflexivity|]. split; [reflexivity|].
  split; [eexists; split; reflexivity|].
  split; reflexivity.
Qed.

(** ** PaiNN: the rounds *)

Lemma rounds_raise : forall blocks i filter_list dir_ij inp n_atoms q mu out,
  blocks <> [] ->
  raises (PaiNN.rounds blocks i filter_list dir_ij inp n_atoms q mu) out.
Proof.
  intros [|[interaction mixing] rest] i filter_list dir_ij inp n_atoms q mu out Hne.
  - contradiction.
  - simpl. apply raises_bind. intros W out1 _.
    apply raises_bind. intros [[q1 mu1] dtm] out2 H.
    destruct (interaction_forward_raises interaction
                (PaiNNInteraction.mkArgs q mu W dir_ij
                   (PaiNN.idx_i inp) (PaiNN.idx_j inp) n_atoms) out1)
      as (e & o & He).
    rewrite He in H. discriminate.
Qed.

Lemma painn_forward_raises : forall m inp out,
  PaiNN.interactions m <> [] -> PaiNN.mixing m <> [] ->
  raises (PaiNN.forward m inp) out.
Proof.
  intros m inp out Hi Hm. unfold PaiNN.forward.
  do 11 (apply raises_bind; intros).
  apply raises_bind. intros [q' mu'] out' Hr.
  assert (Hne : combine (PaiNN.interactions m) (PaiNN.mixing m) <> []).
  { destruct (PaiNN.interactions m); [contradiction|].
    destruct (PaiNN.mixing m); [contradiction|]. discriminate. }
  match type of Hr with
  | PaiNN.rounds ?b ?i ?fl ?d ?inp ?n ?q ?mu ?o = _ =>
      destruct (rounds_raise b i fl d inp n q mu o Hne) as (e & o' & He)
  end.
  rewrite He in Hr. discriminate.
Qed.

Lemma replicate_module_nonempty : forall A (fresh : nat -> A) n shared,
  0 < n -> PaiNN.replicate_module fresh n shared <> [].
Proof.
  intros A fresh [|n] shared Hn; [lia|].
  unfold PaiNN.replicate_module. destruct shared; discriminate.
Qed.

(** With at least one interaction round, the forward pass of a model built
    by [__init__] ends in an exception for every input. *)
Lemma painn_forward_raises_after_init :
  forall B N rb n_rbf cut act shared_i shared_f eps emb embs fw fb fi fm inp out,
    0 < N ->
    raises (PaiNN.forward
              (PaiNN.init B N rb n_rbf cut act shared_i shared_f eps emb embs fw fb fi fm)
              inp) out.
Proof.
  intros. apply painn_forward_raises; unfold PaiNN.init; simpl;
    now apply replicate_module_nonempty.
Qed.

Lemma painn_forward_raises_after_init_witness :
  raises (PaiNN.forward Examples.painn1 Examples.inputs1) [].
Proof.
  unfold Examples.painn1. apply painn_forward_raises_after_init. lia.
Defined.

(** C1: on the spec's end-to-end example (two atoms, basis width 4, one
    round) the forward pass raises a RuntimeError in the first interaction
    block, for the bond vectors as given and for the same bond vectors
    rotated: neither run produces a scalar or a vector representation. *)
Theorem painn_forward_raises_on_example :
  PaiNN.n_atom_basis Examples.painn1 = 2
  /\ PaiNN.interactions Examples.painn1 = [Examples.interaction_zero 2 Examples.silu]
  /\ PaiNNInteraction.interatomic_context_net
       (Examples.interaction_zero 2 Examples.silu) (zeros [2; 1; 4]) []
     = (Raise RuntimeError, [])
  /\ PaiNN.forward Examples.painn1 Examples.inputs1 [] = (Raise RuntimeError, [])
  /\ PaiNN.forward Examples.painn1 Examples.inputs1_rotated [] = (Raise RuntimeError, []).
Proof. repeat split; reflexivity. Qed.

(** * Further properties *)

(** ** Rotation equivariance of the layers *)

Lemma Rsum_3 : forall f, Rsum 3 f = (f 0%nat + f 1%nat + f 2%nat)%R.
Proof. intro f. simpl. ring. Qed.

Lemma Rsum_plus : forall n f g,
  Rsum n (fun k => f k + g k)%R = (Rsum n f + Rsum n g)%R.
Proof.
  induction n as [|n IH]; intros f g; simpl.
  - ring.
  - rewrite IH. ring.
Qed.

Lemma Rsum_scal_l : forall n f c,
  Rsum n (fun k => c * f k)%R = (c * Rsum n f)%R.
Proof.
  induction n as [|n IH]; intros f c; simpl.
  - ring.
  - rewrite IH. ring.
Qed.

(** An orthogonal matrix preserves the squared length of a vector. *)
Lemma orthogonal_norm : forall Q v,
  orthogonal Q ->
  Rsum 3 (fun k => Rsum 3 (fun j => Q k j * v j) * Rsum 3 (fun j => Q k j * v j))%R
  = Rsum 3 (fun k => v k * v k)%R.
Proof.
  intros Q v H.
  pose proof (H 0 0 ltac:(lia) ltac:(lia)) as H00.
  pose proof (H 1 1 ltac:(lia) ltac:(lia)) as H11.
  pose proof (H 2 2 ltac:(lia) ltac:(lia)) as H22.
  pose proof (H 0 1 ltac:(lia) ltac:(lia)) as H01.
  pose proof (H 0 2 ltac:(lia) ltac:(lia)) as H02.
  pose proof (H 1 2 ltac:(lia) ltac:(lia)) as H12.
  unfold kronecker in *. simpl Nat.eqb in *.
  rewrite Rsum_3 in *. rewrite !Rsum_3.
  set (q00 := Q 0 0) in *. set (q01 := Q 0 1) in *. set (q02 := Q 0 2) in *.
  set (q10 := Q 1 0) in *. set (q11 := Q 1 1) in *. set (q12 := Q 1 2) in *.
  set (q20 := Q 2 0) in *. set (q21 := Q 2 1) in *. set (q22 := Q 2 2) in *.
  set (v0 := v 0). set (v1 := v 1). set (v2 := v 2).
  transitivity
    (v0 * v0 * (q00 * q00 + q10 * q10 + q20 * q20)
     + v1 * v1 * (q01 * q01 + q11 * q11 + q21 * q21)
     + v2 * v2 * (q02 * q02 + q12 * q12 + q22 * q22)
     + 2 * v0 * v1 * (q00 * q01 + q10 * q11 + q20 * q21)
     + 2 * v0 * v2 * (q00 * q02 + q10 * q12 + q20 * q22)
     + 2 * v1 * v2 * (q01 * q02 + q11 * q12 + q21 * q22))%R.
  - ring.
  - rewrite H00, H11, H22, H01, H02, H12. ring.
Qed.

Lemma get_rotate_snoc : forall Q t idx k,
  get (rotate Q t) (idx ++ [k]) = Rsum 3 (fun j => Q k j * get t (idx ++ [j]))%R.
Proof.
  intros Q t idx k. unfold rotate. cbn [get].
  now rewrite last_last, removelast_last.
Qed.

(** The channel norms do not change when all vectors are rotated. *)
Lemma norm_last_rotate : forall Q t s,
  orthogonal Q -> shape t = s ++ [3] -> norm_last (rotate Q t) = norm_last t.
Proof.
  intros Q t s HQ Hs. unfold norm_last.
  change (shape (rotate Q t)) with (shape t). rewrite Hs, rev_snoc.
  f_equal. f_equal. extensionality idx. f_equal.
  rewrite (Rsum_ext 3 _
             (fun k => Rsum 3 (fun j => Q k j * get t (idx ++ [j]))
                       * Rsum 3 (fun j => Q k j * get t (idx ++ [j])))%R).
  - apply (orthogonal_norm Q (fun j => get t (idx ++ [j])) HQ).
  - intros k _. now rewrite get_rotate_snoc.
Qed.

(** Rotating every input vector of the compression layer leaves the pooling
    weights as they are and rotates every pooled vector. *)
Theorem compression_forward_equivariant :
  forall (L : EquivariantCompressionLayer.t) (Q : matrix) (vectors : tensor)
         (b : nat) (out : stdout),
    orthogonal Q ->
    shape vectors = [b; EquivariantCompressionLayer.num_vector_channels L; 3] ->
    exists weights r r',
      EquivariantCompressionLayer.scalar_weights L vectors out = (Ok weights, out)
      /\ EquivariantCompressionLayer.scalar_weights L (rotate Q vectors) out
         = (Ok weights, out)
      /\ EquivariantCompressionLayer.forward L vectors out = (Ok r, out ++ [newline])
      /\ EquivariantCompressionLayer.forward L (rotate Q vectors) out
         = (Ok r', out ++ [newline])
      /\ shape r' = shape r
      /\ forall ib l c, get r' [ib; l; c] = get (rotate Q r) [ib; l; c].
Proof.
  intros L Q vectors b out HQ Hs.
  destruct (compression_weights_shape3 L vectors b out Hs) as (y & Hy & Hw).
  assert (Hsw : shape (softmax_last y)
                = [b; EquivariantCompressionLayer.compressed_channels L])
    by now rewrite softmax_last_shape.
  assert (Hw' : EquivariantCompressionLayer.scalar_weights L (rotate Q vectors) out
                = (Ok (softmax_last y), out)).
  { unfold EquivariantCompressionLayer.scalar_weights in *.
    now rewrite (norm_last_rotate Q vectors
                   [b; EquivariantCompressionLayer.num_vector_channels L] HQ Hs). }
  exists (softmax_last y). do 2 eexists.
  split; [exact Hw|]. split; [exact Hw'|].
  unfold EquivariantCompressionLayer.forward.
  rewrite (bind_ok _ _ _ _ _ _ _ Hw), (bind_ok _ _ _ _ _ _ _ Hw').
  unfold print. unfold bind at 1 3.
  unfold einsum_bvc_bl_blc.
  change (shape (rotate Q vectors)) with (shape vectors).
  rewrite Hs, Hsw, bdim_same. unfold bind, ret.
  split; [reflexivity|]. split; [reflexivity|]. split; [reflexivity|].
  intros ib l c. cbn [get rotate last removelast app].
  rewrite Rsum_3, <- !Rsum_scal_l, <- !Rsum_plus.
  apply Rsum_ext. intros iv _. rewrite Rsum_3. ring.
Qed.

Lemma quarter_turn_orthogonal : orthogonal Examples.quarter_turn.
Proof.
  intros i j Hi Hj.
  destruct i as [|[|[|i]]]; [| | |lia];
    destruct j as [|[|[|j]]]; try lia;
    unfold kronecker, Examples.quarter_turn; simpl; ring.
Qed.

Lemma compression_forward_equivariant_witness :
  exists r r',
    EquivariantCompressionLayer.forward Examples.compression0 Examples.vectors_xy []
    = (Ok r, [newline])
    /\ EquivariantCompressionLayer.forward Examples.compression0
         (rotate Examples.quarter_turn Examples.vectors_xy) []
       = (Ok r', [newline])
    /\ forall ib l c, get r' [ib; l; c] = get (rotate Examples.quarter_turn r) [ib; l; c].
Proof.
  destruct (compression_forward_equivariant Examples.compression0 Examples.quarter_turn
              Examples.vectors_xy 1 [] quarter_turn_orthogonal eq_refl)
    as (w & r & r' & _ & _ & Hr & Hr' & _ & Hv).
  exists r, r'. split; [exact Hr|]. split; [exact Hr'|]. exact Hv.
Defined.

(** The value the reconstruction layer returns for an input of shape
    [b, C, 3]. *)
Lemma reconstruction_forward_value : forall L cv b out,
  0 < EquivariantReconstructionLayer.compressed_channels L ->
  0 < EquivariantReconstructionLayer.reconstructed_channels L ->
  shape cv = [b; EquivariantReconstructionLayer.compressed_channels L; 3] ->
  exists coeff,
    EquivariantReconstructionLayer.scalar_weights L cv out = (Ok coeff, out)
    /\ shape coeff = [b; EquivariantReconstructionLayer.reconstructed_channels L;
                      EquivariantReconstructionLayer.compressed_channels L]
    /\ forall cv',
         shape cv' = shape cv ->
         EquivariantReconstructionLayer.scalar_weights L cv' out = (Ok coeff, out) ->
         EquivariantReconstructionLayer.forward L cv' out
         = (Ok (mkT [b; EquivariantReconstructionLayer.reconstructed_channels L; 3; 3]
                    (fun idx =>
                       match idx with
                       | [ib; ir; ii; ij] =>
                           Rsum (EquivariantReconstructionLayer.compressed_channels L)
                             (fun ic =>
                                get coeff
                                  [bix b ib; ir;
                                   bix (EquivariantReconstructionLayer.compressed_channels L) ic]
                                * (get cv'
                                     [bix b (bix b ib);
                                      bix (EquivariantReconstructionLayer.compressed_channels L)
                                        (bix (EquivariantReconstructionLayer.compressed_channels L) ic);
                                      ii]
                                   * get cv'
                                       [bix b (bix b ib);
                                        bix (EquivariantReconstructionLayer.compressed_channels L)
                                          (bix (EquivariantReconstructionLayer.compressed_channels L) ic);
                                        ij]))%R
                       | _ => 0%R
                       end)), out).
Proof.
  intros L cv b out HC HR Hs.
  set (C := EquivariantReconstructionLayer.compressed_channels L) in *.
  set (Rc := EquivariantReconstructionLayer.reconstructed_channels L) in *.
  pose proof (norm_last_shape3 cv b C 3 Hs out) as Hn.
  set (norms := mkT [b; C] _) in Hn.
  assert (Hfc : exists y, shape y = [b; Rc * C]
                /\ EquivariantReconstructionLayer.fc_scalars L norms out = (Ok y, out)).
  { unfold EquivariantReconstructionLayer.fc_scalars.
    erewrite bind_ok by (apply linear_shape3 with (b := b) (v := C); reflexivity).
    erewrite linear_shape3 with (b := b) (v := 32) by reflexivity.
    eexists. split; [|reflexivity]. reflexivity. }
  destruct Hfc as (y & Hy & Hfc).
  assert (Hrc : 0 < Rc * C) by nia.
  pose proof (view_m1_rows Rc C y b out Hrc Hy) as Hv.
  set (coeff := mkT [b; Rc; C] _) in Hv.
  exists coeff. split.
  { unfold EquivariantReconstructionLayer.scalar_weights.
    erewrite bind_ok by exact Hn. erewrite bind_ok by exact Hfc. exact Hv. }
  split; [reflexivity|].
  intros cv' Hs' Hsw. unfold EquivariantReconstructionLayer.forward.
  erewrite bind_ok by exact Hsw.
  unfold einsum_bci_bcj_bcij. rewrite Hs', Hs, !bdim_same.
  unfold bind at 1. unfold ret at 1.
  unfold einsum_brc_bcij_brij.
  change (shape coeff) with [b; Rc; C]. cbn [shape]. rewrite !bdim_same.
  reflexivity.
Qed.

(** Rotating every input vector of the reconstruction layer leaves the
    mixing coefficients as they are and turns every output tensor [T] into
    [Q T Q^T]. *)
Theorem reconstruction_forward_equivariant :
  forall (L : EquivariantReconstructionLayer.t) (Q : matrix) (cv : tensor)
         (b : nat) (out : stdout),
    orthogonal Q ->
    0 < EquivariantReconstructionLayer.compressed_channels L ->
    0 < EquivariantReconstructionLayer.reconstructed_channels L ->
    shape cv = [b; EquivariantReconstructionLayer.compressed_channels L; 3] ->
    exists coeff r r',
      EquivariantReconstructionLayer.scalar_weights L cv out = (Ok coeff, out)
      /\ EquivariantReconstructionLayer.scalar_weights L (rotate Q cv) out
         = (Ok coeff, out)
      /\ EquivariantReconstructionLayer.forward L cv out = (Ok r, out)
      /\ EquivariantReconstructionLayer.forward L (rotate Q cv) out = (Ok r', out)
      /\ shape r' = shape r
      /\ forall ib ir i j, get r' [ib; ir; i; j] = get (rotate2 Q r) [ib; ir; i; j].
Proof.
  intros L Q cv b out HQ HC HR Hs.
  destruct (reconstruction_forward_value L cv b out HC HR Hs) as (coeff & Hsw & _ & Hf).
  assert (Hsw' : EquivariantReconstructionLayer.scalar_weights L (rotate Q cv) out
                 = (Ok coeff, out)).
  { unfold EquivariantReconstructionLayer.scalar_weights in *.
    now rewrite (norm_last_rotate Q cv
                   [b; EquivariantReconstructionLayer.compressed_channels L] HQ Hs). }
  exists coeff. do 2 eexists.
  split; [exact Hsw|]. split; [exact Hsw'|].
  split; [exact (Hf cv eq_refl Hsw)|].
  split; [exact (Hf (rotate Q cv) eq_refl Hsw')|].
  split; [reflexivity|].
  intros ib ir i j. cbn [get rotate rotate2 last removelast app].
  rewrite Rsum_3. cbv beta. rewrite !Rsum_3.
  rewrite <- !Rsum_scal_l, <- !Rsum_plus.
  apply Rsum_ext. intros ic _. rewrite !Rsum_3. ring.
Qed.

Lemma reconstruction_forward_equivariant_witness :
  exists r r',
    EquivariantReconstructionLayer.forward Examples.reconstruction0 Examples.compressed_xy []
    = (Ok r, [])
    /\ EquivariantReconstructionLayer.forward Examples.reconstruction0
         (rotate Examples.quarter_turn Examples.compressed_xy) []
       = (Ok r', [])
    /\ forall ib ir i j,
         get r' [ib; ir; i; j] = get (rotate2 Examples.quarter_turn r) [ib; ir; i; j].
Proof.
  destruct (reconstruction_forward_equivariant Examples.reconstruction0
              Examples.quarter_turn Examples.compressed_xy 1 []
              quarter_turn_orthogonal)
    as (coeff & r & r' & _ & _ & Hr & Hr' & _ & Hv).
  - simpl. lia.
  - simpl. lia.
  - reflexivity.
  - exists r, r'. split; [exact Hr|]. split; [exact Hr'|]. exact Hv.
Defined.

(** ** EquivariantCompressionLayer: what is pooled and what is accepted *)

(** The pooled vectors of a batch entry add up to the sum of its input
    vectors, because the pooling weights add up to 1. *)
Theorem compression_forward_preserves_sum :
  forall (L : EquivariantCompressionLayer.t) (vectors : tensor) (b : nat) (out : stdout),
    0 < EquivariantCompressionLayer.compressed_channels L ->
    shape vectors = [b; EquivariantCompressionLayer.num_vector_channels L; 3] ->
    exists r,
      EquivariantCompressionLayer.forward L vectors out = (Ok r, out ++ [newline])
      /\ forall ib c,
           ib < b ->
           Rsum (EquivariantCompressionLayer.compressed_channels L)
                (fun l => get r [ib; l; c])
           = Rsum (EquivariantCompressionLayer.num_vector_channels L)
                  (fun v => get vectors [ib; v; c]).
Proof.
  intros L vectors b out HC Hs.
  destruct (compression_weights_shape3 L vectors b out Hs) as (y & Hy & Hw).
  assert (Hsw : shape (softmax_last y)
                = [b; EquivariantCompressionLayer.compressed_channels L])
    by now rewrite softmax_last_shape.
  eexists. unfold EquivariantCompressionLayer.forward.
  rewrite (bind_ok _ _ _ _ _ _ _ Hw).
  unfold print. unfold bind at 1.
  unfold einsum_bvc_bl_blc. rewrite Hs, Hsw, bdim_same. unfold bind, ret.
  split; [reflexivity|].
  intros ib c Hib. cbn [get]. rewrite (bix_lt b ib Hib).
  rewrite (Rsum_ext _ _
             (fun l => get (softmax_last y) ([ib] ++ [l])
                       * Rsum (EquivariantCompressionLayer.num_vector_channels L)
                              (fun v => get vectors [ib; v; c]))%R).
  - rewrite Rsum_scal_r.
    rewrite (softmax_last_sums_to_one y [b] _ [ib] Hy HC). ring.
  - intros l _.
    apply (Rsum_scal_r _ (fun v => get vectors [ib; v; c])).
Qed.

Lemma compression_forward_preserves_sum_witness :
  exists r,
    EquivariantCompressionLayer.forward Examples.compression0 Examples.vectors_xy []
    = (Ok r, [newline])
    /\ forall ib c,
         ib < 1 ->
         Rsum 1 (fun l => get r [ib; l; c])
         = Rsum 2 (fun v => get Examples.vectors_xy [ib; v; c]).
Proof.
  apply (compression_forward_preserves_sum Examples.compression0 Examples.vectors_xy 1 []).
  - simpl. lia.
  - reflexivity.
Defined.

Lemma linear_cases : forall L x out,
  (exists y, linear L x out = (Ok y, out)) \/ linear L x out = (Raise RuntimeError, out).
Proof.
  intros L x out. unfold linear.
  destruct (rev (shape x)) as [|d r]; [now right|].
  destruct (d =? in_features L); [left; eexists; reflexivity | now right].
Qed.

Lemma compression_weights_cases : forall L v out,
  (exists w, EquivariantCompressionLayer.scalar_weights L v out = (Ok w, out))
  \/ EquivariantCompressionLayer.scalar_weights L v out = (Raise RuntimeError, out).
Proof.
  intros L v out.
  unfold EquivariantCompressionLayer.scalar_weights,
         EquivariantCompressionLayer.fc_scalar_weights.
  destruct (norm_last_total v out) as [n Hn]. rewrite (bind_ok _ _ _ _ _ _ _ Hn).
  match goal with
  | |- context [bind (linear ?L1 n)] =>
      destruct (linear_cases L1 n out) as [[h Hh]|Hh]
  end.
  - rewrite (bind_ok _ _ _ _ _ _ _ Hh).
    match goal with
    | |- context [bind (linear ?L2 ?x)] =>
        destruct (linear_cases L2 x out) as [[y Hy]|Hy]
    end.
    + rewrite (bind_ok _ _ _ _ _ _ _ Hy). left. eexists. reflexivity.
    + rewrite (bind_raise _ _ _ _ _ _ _ Hy). now right.
  - rewrite (bind_raise _ _ _ _ _ _ _ Hh). now right.
Qed.

Lemma compression_weights_any_width : forall L vectors b c out,
  shape vectors = [b; EquivariantCompressionLayer.num_vector_channels L; c] ->
  exists w,
    shape w = [b; EquivariantCompressionLayer.compressed_channels L] /\
    EquivariantCompressionLayer.scalar_weights L vectors out = (Ok w, out).
Proof.
  intros L vectors b c out Hs.
  unfold EquivariantCompressionLayer.scalar_weights,
         EquivariantCompressionLayer.fc_scalar_weights.
  erewrite bind_ok by (apply (norm_last_shape3 _ _ _ _ Hs)).
  erewrite bind_ok by (apply linear_shape3 with (b := b)
                         (v := EquivariantCompressionLayer.num_vector_channels L);
                       reflexivity).
  erewrite bind_ok by (apply linear_shape3 with (b := b) (v := 32); reflexivity).
  eexists. split; [|reflexivity]. now rewrite softmax_last_shape.
Qed.

Lemma compression_weights_wrong_channels : forall L vectors b v c out,
  shape vectors = [b; v; c] ->
  v <> EquivariantCompressionLayer.num_vector_channels L ->
  EquivariantCompressionLayer.scalar_weights L vectors out = (Raise RuntimeError, out).
Proof.
  intros L vectors b v c out Hs Hv.
  unfold EquivariantCompressionLayer.scalar_weights,
         EquivariantCompressionLayer.fc_scalar_weights.
  erewrite bind_ok by (apply (norm_last_shape3 _ _ _ _ Hs)).
  apply bind_raise. unfold linear. cbn [shape rev app in_features].
  destruct (Nat.eqb_spec v (EquivariantCompressionLayer.num_vector_channels L));
    [contradiction | reflexivity].
Qed.

(** The compression layer returns exactly for the inputs of shape
    [b, num_vector_channels, c]; its result then has shape
    [b, compressed_channels, c] and one empty line has been written.  For
    every other input it raises a RuntimeError, after writing the empty line
    when the failure is that of the final einsum. *)
Theorem compression_forward_accepts :
  forall (L : EquivariantCompressionLayer.t) (vectors : tensor) (out : stdout),
    (exists b c r,
        shape vectors = [b; EquivariantCompressionLayer.num_vector_channels L; c]
        /\ EquivariantCompressionLayer.forward L vectors out = (Ok r, out ++ [newline])
        /\ shape r = [b; EquivariantCompressionLayer.compressed_channels L; c])
    \/ ((forall b c,
            shape vectors <> [b; EquivariantCompressionLayer.num_vector_channels L; c])
        /\ (EquivariantCompressionLayer.forward L vectors out = (Raise RuntimeError, out)
            \/ EquivariantCompressionLayer.forward L vectors out
               = (Raise RuntimeError, out ++ [newline]))).
Proof.
  intros L vectors out.
  destruct (shape vectors) as [|b [|v [|c [|d rest]]]] eqn:Hs.
  1, 2, 3, 5: right; split; [intros b' c'; discriminate|];
    unfold EquivariantCompressionLayer.forward;
    (destruct (compression_weights_cases L vectors out) as [[w Hw]|Hw];
     [ rewrite (bind_ok _ _ _ _ _ _ _ Hw); right;
       unfold print; unfold bind at 1; apply bind_raise;
       unfold einsum_bvc_bl_blc; rewrite Hs; reflexivity
     | left; now apply bind_raise ]).
  destruct (Nat.eq_dec v (EquivariantCompressionLayer.num_vector_channels L)) as [->|Hv].
  - left.
    destruct (compression_weights_any_width L vectors b c out Hs) as (w & Hsw & Hw).
    exists b, c. eexists. split; [reflexivity|].
    unfold EquivariantCompressionLayer.forward.
    rewrite (bind_ok _ _ _ _ _ _ _ Hw).
    unfold print. unfold bind at 1.
    unfold einsum_bvc_bl_blc. rewrite Hs, Hsw, bdim_same. unfold bind, ret.
    split; reflexivity.
  - right. split; [intros b' c' E; inversion E; contradiction|].
    left. unfold EquivariantCompressionLayer.forward. apply bind_raise.
    now apply compression_weights_wrong_channels with (b := b) (v := v) (c := c).
Qed.

(** ** EquivariantReconstructionLayer: what is accepted *)

Lemma view_m1_cases : forall r c t out,
  (exists y, view_m1 r c t out = (Ok y, out))
  \/ view_m1 r c t out = (Raise RuntimeError, out).
Proof.
  intros r c t out. unfold view_m1.
  destruct (r * c =? 0); [now right|].
  destruct (numel t mod (r * c) =? 0); [left; eexists; reflexivity | now right].
Qed.

Lemma fc_scalars_cases : forall L n out,
  (exists y, EquivariantReconstructionLayer.fc_scalars L n out = (Ok y, out))
  \/ EquivariantReconstructionLayer.fc_scalars L n out = (Raise RuntimeError, out).
Proof.
  intros L n out. unfold EquivariantReconstructionLayer.fc_scalars.
  match goal with
  | |- context [bind (linear ?L1 n)] =>
      destruct (linear_cases L1 n out) as [[h Hh]|Hh]
  end.
  - rewrite (bind_ok _ _ _ _ _ _ _ Hh). apply linear_cases.
  - right. now apply bind_raise.
Qed.

Lemma reconstruction_weights_cases : forall L cv out,
  (exists w, EquivariantReconstructionLayer.scalar_weights L cv out = (Ok w, out))
  \/ EquivariantReconstructionLayer.scalar_weights L cv out = (Raise RuntimeError, out).
Proof.
  intros L cv out.
  unfold EquivariantReconstructionLayer.scalar_weights.
  destruct (norm_last_total cv out) as [n Hn]. rewrite (bind_ok _ _ _ _ _ _ _ Hn).
  destruct (fc_scalars_cases L n out) as [[y Hy]|Hy].
  - rewrite (bind_ok _ _ _ _ _ _ _ Hy). apply view_m1_cases.
  - right. now apply bind_raise.
Qed.

Lemma reconstruction_weights_any_width : forall L cv b c out,
  0 < EquivariantReconstructionLayer.reconstructed_channels L
      * EquivariantReconstructionLayer.compressed_channels L ->
  shape cv = [b; EquivariantReconstructionLayer.compressed_channels L; c] ->
  exists coeff,
    EquivariantReconstructionLayer.scalar_weights L cv out = (Ok coeff, out)
    /\ shape coeff = [b; EquivariantReconstructionLayer.reconstructed_channels L;
                      EquivariantReconstructionLayer.compressed_channels L].
Proof.
  intros L cv b c out Hrc Hs.
  set (C := EquivariantReconstructionLayer.compressed_channels L) in *.
  set (Rc := EquivariantReconstructionLayer.reconstructed_channels L) in *.
  pose proof (norm_last_shape3 cv b C c Hs out) as Hn.
  set (norms := mkT [b; C] _) in Hn.
  assert (Hfc : exists y, shape y = [b; Rc * C]
                /\ EquivariantReconstructionLayer.fc_scalars L norms out = (Ok y, out)).
  { unfold EquivariantReconstructionLayer.fc_scalars.
    erewrite bind_ok by (apply linear_shape3 with (b := b) (v := C); reflexivity).
    erewrite linear_shape3 with (b := b) (v := 32) by reflexivity.
    eexists. split; [|reflexivity]. reflexivity. }
  destruct Hfc as (y & Hy & Hfc).
  pose proof (view_m1_rows Rc C y b out Hrc Hy) as Hv.
  eexists. split.
  - unfold EquivariantReconstructionLayer.scalar_weights.
    erewrite bind_ok by exact Hn. erewrite bind_ok by exact Hfc. exact Hv.
  - reflexivity.
Qed.

Lemma reconstruction_weights_no_channels : forall L cv b c out,
  EquivariantReconstructionLayer.reconstructed_channels L
  * EquivariantReconstructionLayer.compressed_channels L = 0 ->
  shape cv = [b; EquivariantReconstructionLayer.compressed_channels L; c] ->
  EquivariantReconstructionLayer.scalar_weights L cv out = (Raise RuntimeError, out).
Proof.
  intros L cv b c out Hrc Hs.
  unfold EquivariantReconstructionLayer.scalar_weights,
         EquivariantReconstructionLayer.fc_scalars.
  erewrite bind_ok by (apply (norm_last_shape3 _ _ _ _ Hs)).
  erewrite bind_ok
    by (erewrite bind_ok
          by (apply linear_shape3 with (b := b)
                (v := EquivariantReconstructionLayer.compressed_channels L); reflexivity);
        apply linear_shape3 with (b := b) (v := 32); reflexivity).
  unfold view_m1. now rewrite Hrc.
Qed.

Lemma reconstruction_weights_wrong_channels : forall L cv b v c out,
  shape cv = [b; v; c] ->
  v <> EquivariantReconstructionLayer.compressed_channels L ->
  EquivariantReconstructionLayer.scalar_weights L cv out = (Raise RuntimeError, out).
Proof.
  intros L cv b v c out Hs Hv.
  unfold EquivariantReconstructionLayer.scalar_weights,
         EquivariantReconstructionLayer.fc_scalars.
  erewrite bind_ok by (apply (norm_last_shape3 _ _ _ _ Hs)).
  do 2 apply bind_raise. unfold linear. cbn [shape rev app in_features].
  destruct (Nat.eqb_spec v (EquivariantReconstructionLayer.compressed_channels L));
    [contradiction | reflexivity].
Qed.

(** The reconstruction layer returns exactly for the inputs of shape
    [b, compressed_channels, c] when it has at least one compressed and one
    reconstructed channel; its result then has shape
    [b, reconstructed_channels, c, c].  In every other case it raises a
    RuntimeError.  It never writes to standard output. *)
Theorem reconstruction_forward_accepts :
  forall (L : EquivariantReconstructionLayer.t) (cv : tensor) (out : stdout),
    (exists b c r,
        shape cv = [b; EquivariantReconstructionLayer.compressed_channels L; c]
        /\ 0 < EquivariantReconstructionLayer.reconstructed_channels L
               * EquivariantReconstructionLayer.compressed_channels L
        /\ EquivariantReconstructionLayer.forward L cv out = (Ok r, out)
        /\ shape r = [b; EquivariantReconstructionLayer.reconstructed_channels L; c; c])
    \/ ((forall b c,
            shape cv = [b; EquivariantReconstructionLayer.compressed_channels L; c] ->
            EquivariantReconstructionLayer.reconstructed_channels L
            * EquivariantReconstructionLayer.compressed_channels L = 0)
        /\ EquivariantReconstructionLayer.forward L cv out = (Raise RuntimeError, out)).
Proof.
  intros L cv out.
  destruct (shape cv) as [|b [|v [|c [|d rest]]]] eqn:Hs.
  1, 2, 3, 5: right; split; [intros b' c'; discriminate|];
    unfold EquivariantReconstructionLayer.forward;
    (destruct (reconstruction_weights_cases L cv out) as [[w Hw]|Hw];
     [ rewrite (bind_ok _ _ _ _ _ _ _ Hw); apply bind_raise;
       unfold einsum_bci_bcj_bcij; rewrite Hs; reflexivity
     | now apply bind_raise ]).
  destruct (Nat.eq_dec v (EquivariantReconstructionLayer.compressed_channels L)) as [->|Hv].
  - destruct (Nat.eq_dec
                (EquivariantReconstructionLayer.reconstructed_channels L
                 * EquivariantReconstructionLayer.compressed_channels L) 0) as [Hz|Hnz].
    + right. split; [intros; exact Hz|].
      unfold EquivariantReconstructionLayer.forward. apply bind_raise.
      now apply reconstruction_weights_no_channels with (b := b) (c := c).
    + left.
      assert (Hrc : 0 < EquivariantReconstructionLayer.reconstructed_channels L
                        * EquivariantReconstructionLayer.compressed_channels L) by lia.
      destruct (reconstruction_weights_any_width L cv b c out Hrc Hs)
        as (coeff & Hw & Hsc).
      exists b, c. eexists. split; [reflexivity|]. split; [exact Hrc|].
      unfold EquivariantReconstructionLayer.forward.
      rewrite (bind_ok _ _ _ _ _ _ _ Hw).
      unfold einsum_bci_bcj_bcij. rewrite Hs, !bdim_same.
      unfold bind at 1. unfold ret at 1.
      unfold einsum_brc_bcij_brij. rewrite Hsc. cbn [shape]. rewrite !bdim_same.
      unfold bind, ret. split; reflexivity.
  - right. split; [intros b' c' E; inversion E; contradiction|].
    unfold EquivariantReconstructionLayer.forward. apply bind_raise.
    now apply reconstruction_weights_wrong_channels with (b := b) (v := v) (c := c).
Qed.

(** ** PaiNNInteraction: the messages of lines 122 to 129 *)

Lemma wrap_indices_in_range : forall n idx,
  (forall z, In z idx -> (0 <= z < Z.of_nat n)%Z) ->
  wrap_indices n idx = Some (map Z.to_nat idx).
Proof.
  induction idx as [|z idx IH]; intro H; simpl.
  - reflexivity.
  - rewrite IH by (intros; apply H; now right).
    assert (Hz : (0 <= z < Z.of_nat n)%Z) by (apply H; now left).
    unfold wrap_index.
    destruct (Z.leb_spec 0 z); [|lia].
    destruct (Z.ltb_spec z (Z.of_nat n)); [|lia]. reflexivity.
Qed.

Lemma index_rows_in_range : forall x n s idx out,
  shape x = n :: s ->
  (forall z, In z idx -> (0 <= z < Z.of_nat n)%Z) ->
  index_rows x idx out
  = (Ok (mkT (length idx :: s)
             (fun i =>
                match i with
                | e :: rest => get x (nth e (map Z.to_nat idx) 0 :: rest)
                | [] => 0%R
                end)), out).
Proof.
  intros x n s idx out Hs H. unfold index_rows.
  now rewrite Hs, (wrap_indices_in_range n idx H).
Qed.

Lemma split_three_chunks : forall x S F out,
  0 < F -> shape x = S ++ [3 * F] ->
  torch_split_last x F out
  = (Ok [narrow_last x 0 F; narrow_last x F F; narrow_last x (2 * F) F], out).
Proof.
  intros x S F out HF Hs. unfold torch_split_last. rewrite Hs, rev_snoc.
  destruct (Nat.eqb_spec F 0) as [E0|_]; [lia|].
  assert (Hn : Nat.max ((3 * F + F - 1) / F) 1 = 3).
  { replace ((3 * F + F - 1) / F) with 3; [reflexivity|].
    apply Nat.div_unique with (r := F - 1); lia. }
  rewrite Hn. cbn [seq map Nat.ltb Nat.leb Nat.sub].
  unfold ret. f_equal. f_equal.
  repeat (f_equal; try lia).
Qed.

Lemma filter_product_value : forall W xj E n out,
  n <> 1 -> shape W = [E; 1; n] -> shape xj = [E; 1; n] ->
  exists X,
    tmul W xj out = (Ok X, out)
    /\ shape X = [E; 1; n]
    /\ forall e k, e < E -> get X [e; 0%nat; k] = (get W [e; 0%nat; k] * get xj [e; 0%nat; k])%R.
Proof.
  intros W xj E n out Hn HW Hx. unfold tmul, tbin.
  rewrite HW, Hx, broadcast_filter, bdim_same.
  eexists. split; [reflexivity|]. split; [reflexivity|].
  intros e k He. cbn [get]. unfold bidx. cbn [length Nat.sub skipn bix_list].
  rewrite (bix_lt E e He). unfold bix.
  destruct (Nat.eqb_spec n 1); [contradiction|]. reflexivity.
Qed.

(** Lines 122 to 129 on well-formed arguments: what every field of the
    result holds. *)
Lemma scalar_aggregate_value : forall blk a A smu out,
  0 < PaiNNInteraction.n_atom_basis blk ->
  shape (PaiNNInteraction.q a) = [A; 1; PaiNNInteraction.n_atom_basis blk] ->
  shape (PaiNNInteraction.mu a) = A :: smu ->
  (forall z, In z (PaiNNInteraction.idx_j a) -> (0 <= z < Z.of_nat A)%Z) ->
  (forall z, In z (PaiNNInteraction.idx_i a) -> (0 <= z < Z.of_nat A)%Z) ->
  shape (PaiNNInteraction.Wij a)
  = [length (PaiNNInteraction.idx_j a); 1; 3 * PaiNNInteraction.n_atom_basis blk] ->
  length (PaiNNInteraction.idx_i a) = length (PaiNNInteraction.idx_j a) ->
  PaiNNInteraction.n_atoms a = A ->
  exists x sc,
    PaiNNInteraction.interatomic_context_net blk (PaiNNInteraction.q a) out = (Ok x, out)
    /\ shape x = [A; 1; 3 * PaiNNInteraction.n_atom_basis blk]
    /\ PaiNNInteraction.scalar_aggregate blk a out = (Ok sc, out)
    /\ shape (PaiNNInteraction.muj sc) = length (PaiNNInteraction.idx_j a) :: smu
    /\ shape (PaiNNInteraction.dq_edges sc)
       = [length (PaiNNInteraction.idx_j a); 1; PaiNNInteraction.n_atom_basis blk]
    /\ shape (PaiNNInteraction.dq sc) = [A; 1; PaiNNInteraction.n_atom_basis blk]
    /\ (forall e rest,
           get (PaiNNInteraction.muj sc) (e :: rest)
           = get (PaiNNInteraction.mu a)
                 (Z.to_nat (nth e (PaiNNInteraction.idx_j a) 0%Z) :: rest))
    /\ (forall e rest,
           get (PaiNNInteraction.mui sc) (e :: rest)
           = get (PaiNNInteraction.mu a)
                 (Z.to_nat (nth e (PaiNNInteraction.idx_i a) 0%Z) :: rest))
    /\ (forall e f,
           e < length (PaiNNInteraction.idx_j a) ->
           let j := Z.to_nat (nth e (PaiNNInteraction.idx_j a) 0%Z) in
           let F := PaiNNInteraction.n_atom_basis blk in
           get (PaiNNInteraction.dq_edges sc) [e; 0%nat; f]
           = (get (PaiNNInteraction.Wij a) [e; 0%nat; f] * get x [j; 0%nat; f])%R
           /\ get (PaiNNInteraction.dmuR sc) [e; 0%nat; f]
              = (get (PaiNNInteraction.Wij a) [e; 0%nat; (F + f)%nat] * get x [j; 0%nat; (F + f)%nat])%R
           /\ get (PaiNNInteraction.dmumu sc) [e; 0%nat; f]
              = (get (PaiNNInteraction.Wij a) [e; 0%nat; (2 * F + f)%nat]
                 * get x [j; 0%nat; (2 * F + f)%nat])%R).
Proof.
  intros blk a A smu out HF Hq Hmu Hj Hi HW Hlen Hn.
  set (F := PaiNNInteraction.n_atom_basis blk) in *.
  set (E := length (PaiNNInteraction.idx_j a)) in *.
  destruct (context_net_shape blk _ A out Hq) as (x & Hx & Hsx). fold F in Hsx.
  pose proof (index_rows_in_range x A _ _ out Hsx Hj) as Hxj.
  pose proof (index_rows_in_range _ A smu _ out Hmu Hj) as Hmuj.
  pose proof (index_rows_in_range _ A smu _ out Hmu Hi) as Hmui.
  fold E in Hxj, Hmuj.
  set (xj := mkT (E :: [1; 3 * F]) _) in Hxj.
  set (muj := mkT (E :: smu) _) in Hmuj.
  set (mui := mkT (_ :: smu) _) in Hmui.
  assert (Hg : PaiNNInteraction.gather blk a out = (Ok (xj, muj, mui), out)).
  { unfold PaiNNInteraction.gather.
    rewrite (bind_ok _ _ _ _ _ _ _ Hx), (bind_ok _ _ _ _ _ _ _ Hxj),
            (bind_ok _ _ _ _ _ _ _ Hmuj), (bind_ok _ _ _ _ _ _ _ Hmui).
    reflexivity. }
  destruct (filter_product_value (PaiNNInteraction.Wij a) xj E (3 * F) out
              ltac:(lia) HW eq_refl) as (X & HX & HsX & HvX).
  assert (Hf : PaiNNInteraction.filter_split blk a xj out
               = (Ok (narrow_last X 0 F, narrow_last X F F, narrow_last X (2 * F) F), out)).
  { unfold PaiNNInteraction.filter_split.
    rewrite (bind_ok _ _ _ _ _ _ _ HX).
    rewrite (bind_ok _ _ _ _ _ _ _ (split_three_chunks X [E; 1] F out HF HsX)).
    reflexivity. }
  assert (Hsn : forall s, shape (narrow_last X s F) = [E; 1; F]).
  { intro s. unfold narrow_last. cbn [shape]. now rewrite HsX. }
  exists x. eexists.
  split; [exact Hx|]. split; [exact Hsx|].
  split.
  { unfold PaiNNInteraction.scalar_aggregate.
    rewrite (bind_ok _ _ _ _ _ _ _ Hg). cbv beta iota zeta.
    rewrite (bind_ok _ _ _ _ _ _ _ Hf). cbv beta iota zeta.
    unfold scatter_add. rewrite (Hsn 0), Hlen. fold E. rewrite Nat.eqb_refl, Hn.
    rewrite (forallb_in_range A _ Hi). cbn [andb].
    unfold bind, ret. reflexivity. }
  cbn [PaiNNInteraction.muj PaiNNInteraction.mui PaiNNInteraction.dq_edges
       PaiNNInteraction.dmuR PaiNNInteraction.dmumu PaiNNInteraction.dq].
  split; [reflexivity|]. split; [apply Hsn|]. split; [reflexivity|].
  assert (Hnth : forall idx e, nth e (map Z.to_nat idx) 0 = Z.to_nat (nth e idx 0%Z)).
  { intros idx e. exact (map_nth Z.to_nat idx 0%Z e). }
  split; [intros e rest; subst muj; cbn [get]; now rewrite Hnth|].
  split; [intros e rest; subst mui; cbn [get]; now rewrite Hnth|].
  intros e f He. cbv zeta.
  assert (Hv : forall k,
             get X [e; 0%nat; k]
             = (get (PaiNNInteraction.Wij a) [e; 0%nat; k]
                * get x [Z.to_nat (nth e (PaiNNInteraction.idx_j a) 0%Z); 0%nat; k])%R).
  { intro k. rewrite (HvX e k He). subst xj. cbn [get]. now rewrite Hnth. }
  unfold narrow_last. cbn [get removelast last app].
  rewrite !Hv. repeat split; reflexivity.
Qed.

Lemma edge_sum_ext : forall order idx a x y,
  (forall e, In e order -> x e = y e) ->
  edge_sum order idx a x = edge_sum order idx a y.
Proof.
  induction order as [|e order IH]; intros idx a x y H; simpl.
  - reflexivity.
  - rewrite (IH idx a x y) by (intros; apply H; now right).
    rewrite (H e) by now left. reflexivity.
Qed.

(** On well-formed arguments lines 122 to 129 complete without writing
    anything.  The scalar message of edge [e] is the filter of the edge
    times the context features of its source atom, block by block: the
    first [F] filter entries give [dq], the next [F] give [dmuR], the last
    [F] give [dmumu].  The scalar aggregate of an atom is the sum of the
    [dq] messages of the edges that point at it. *)
Theorem interaction_scalar_messages :
  forall (blk : PaiNNInteraction.t) (a : PaiNNInteraction.args)
         (A : nat) (smu : list nat) (out : stdout),
    0 < PaiNNInteraction.n_atom_basis blk ->
    shape (PaiNNInteraction.q a) = [A; 1; PaiNNInteraction.n_atom_basis blk] ->
    shape (PaiNNInteraction.mu a) = A :: smu ->
    (forall z, In z (PaiNNInteraction.idx_j a) -> (0 <= z < Z.of_nat A)%Z) ->
    (forall z, In z (PaiNNInteraction.idx_i a) -> (0 <= z < Z.of_nat A)%Z) ->
    shape (PaiNNInteraction.Wij a)
    = [length (PaiNNInteraction.idx_j a); 1; 3 * PaiNNInteraction.n_atom_basis blk] ->
    length (PaiNNInteraction.idx_i a) = length (PaiNNInteraction.idx_j a) ->
    PaiNNInteraction.n_atoms a = A ->
    exists x sc,
      PaiNNInteraction.interatomic_context_net blk (PaiNNInteraction.q a) out = (Ok x, out)
      /\ PaiNNInteraction.scalar_aggregate blk a out = (Ok sc, out)
      /\ (forall e f,
             e < length (PaiNNInteraction.idx_j a) ->
             get (PaiNNInteraction.dq_edges sc) [e; 0; f]
             = (get (PaiNNInteraction.Wij a) [e; 0%nat; f]
                * get x [Z.to_nat (nth e (PaiNNInteraction.idx_j a) 0%Z); 0%nat; f])%R
             /\ get (PaiNNInteraction.dmuR sc) [e; 0; f]
                = (get (PaiNNInteraction.Wij a)
                       [e; 0%nat; (PaiNNInteraction.n_atom_basis blk + f)%nat]
                   * get x [Z.to_nat (nth e (PaiNNInteraction.idx_j a) 0%Z); 0%nat;
                            (PaiNNInteraction.n_atom_basis blk + f)%nat])%R
             /\ get (PaiNNInteraction.dmumu sc) [e; 0; f]
                = (get (PaiNNInteraction.Wij a)
                       [e; 0%nat; (2 * PaiNNInteraction.n_atom_basis blk + f)%nat]
                   * get x [Z.to_nat (nth e (PaiNNInteraction.idx_j a) 0%Z); 0%nat;
                            (2 * PaiNNInteraction.n_atom_basis blk + f)%nat])%R)
      /\ (forall e rest,
             get (PaiNNInteraction.muj sc) (e :: rest)
             = get (PaiNNInteraction.mu a)
                   (Z.to_nat (nth e (PaiNNInteraction.idx_j a) 0%Z) :: rest)
             /\ get (PaiNNInteraction.mui sc) (e :: rest)
                = get (PaiNNInteraction.mu a)
                      (Z.to_nat (nth e (PaiNNInteraction.idx_i a) 0%Z) :: rest))
      /\ shape (PaiNNInteraction.dq sc) = [A; 1; PaiNNInteraction.n_atom_basis blk]
      /\ (forall atom f,
             get (PaiNNInteraction.dq sc) [atom; 0; f]
             = edge_sum (seq 0 (length (PaiNNInteraction.idx_i a)))
                 (PaiNNInteraction.idx_i a) atom
                 (fun e =>
                    get (PaiNNInteraction.Wij a) [e; 0%nat; f]
                    * get x [Z.to_nat (nth e (PaiNNInteraction.idx_j a) 0%Z);
                             0%nat; f])%R).
Proof.
  intros blk a A smu out HF Hq Hmu Hj Hi HW Hlen Hn.
  destruct (scalar_aggregate_value blk a A smu out HF Hq Hmu Hj Hi HW Hlen Hn)
    as (x & sc & Hx & _ & Hsc & _ & _ & Hsdq & Hmuj & Hmui & Hmsg).
  exists x, sc. split; [exact Hx|]. split; [exact Hsc|].
  split; [intros e f He; exact (Hmsg e f He)|].
  split; [intros e rest; split; [apply Hmuj | apply Hmui]|].
  split; [exact Hsdq|].
  intros atom f.
  destruct (scalar_aggregate_grouped blk a out sc out Hsc) as (_ & Hsum & _).
  rewrite (Hsum _ atom [0; f] (Permutation_refl _)).
  apply edge_sum_ext. intros e He.
  apply in_seq in He. rewrite Hlen in He.
  exact (proj1 (Hmsg e f ltac:(lia))).
Qed.

Lemma interaction_scalar_messages_witness :
  exists x sc,
    PaiNNInteraction.interatomic_context_net Examples.interaction1
      (PaiNNInteraction.q Examples.args1) [] = (Ok x, [])
    /\ PaiNNInteraction.scalar_aggregate Examples.interaction1 Examples.args1 []
       = (Ok sc, [])
    /\ forall atom f,
         get (PaiNNInteraction.dq sc) [atom; 0; f]
         = edge_sum [0; 1] [0%Z; 1%Z] atom
             (fun e =>
                get (PaiNNInteraction.Wij Examples.args1) [e; 0%nat; f]
                * get x [Z.to_nat (nth e [1%Z; 0%Z] 0%Z); 0%nat; f])%R.
Proof.
  destruct (interaction_scalar_messages Examples.interaction1 Examples.args1 2 [2; 3] [])
    as (x & sc & Hx & Hsc & _ & _ & _ & Hdq).
  - simpl. lia.
  - reflexivity.
  - reflexivity.
  - simpl. intros z [<-|[<-|[]]]; lia.
  - simpl. intros z [<-|[<-|[]]]; lia.
  - reflexivity.
  - reflexivity.
  - reflexivity.
  - exists x, sc. split; [exact Hx|]. split; [exact Hsc|]. exact Hdq.
Defined.

(** With the vector feature laid out [atoms, 3, w], the layout in which
    [PaiNN.forward] creates it, and otherwise well-formed arguments, the
    scalar aggregate of line 129 is computed, and the compression layer
    called at line 130 raises a RuntimeError before anything is written: it
    takes the norms over the last axis and receives 3 of them per edge,
    where its first linear layer expects [2 * n_atom_basis]. *)
Theorem interaction_forward_raises_on_spatial_major_layout :
  forall (blk : PaiNNInteraction.t) (a : PaiNNInteraction.args)
         (A w : nat) (out : stdout),
    0 < PaiNNInteraction.n_atom_basis blk ->
    shape (PaiNNInteraction.q a) = [A; 1; PaiNNInteraction.n_atom_basis blk] ->
    shape (PaiNNInteraction.mu a) = [A; 3; w] ->
    (forall z, In z (PaiNNInteraction.idx_j a) -> (0 <= z < Z.of_nat A)%Z) ->
    (forall z, In z (PaiNNInteraction.idx_i a) -> (0 <= z < Z.of_nat A)%Z) ->
    shape (PaiNNInteraction.Wij a)
    = [length (PaiNNInteraction.idx_j a); 1; 3 * PaiNNInteraction.n_atom_basis blk] ->
    length (PaiNNInteraction.idx_i a) = length (PaiNNInteraction.idx_j a) ->
    PaiNNInteraction.n_atoms a = A ->
    (exists sc,
        PaiNNInteraction.scalar_aggregate blk a out = (Ok sc, out)
        /\ EquivariantCompressionLayer.forward (PaiNNInteraction.compression_layer blk)
             (PaiNNInteraction.muj sc) out
           = (Raise RuntimeError, out))
    /\ PaiNNInteraction.aggregate blk a out = (Raise RuntimeError, out)
    /\ PaiNNInteraction.forward blk a out = (Raise RuntimeError, out).
Proof.
  intros blk a A w out HF Hq Hmu Hj Hi HW Hlen Hn.
  destruct (scalar_aggregate_value blk a A [3; w] out HF Hq Hmu Hj Hi HW Hlen Hn)
    as (x & sc & _ & _ & Hsc & Hsmuj & _).
  assert (Hc : EquivariantCompressionLayer.forward
                 (PaiNNInteraction.compression_layer blk) (PaiNNInteraction.muj sc) out
               = (Raise RuntimeError, out)).
  { unfold EquivariantCompressionLayer.forward. apply bind_raise.
    apply compression_weights_wrong_channels
      with (b := length (PaiNNInteraction.idx_j a)) (v := 3) (c := w);
      [exact Hsmuj | cbn; lia]. }
  assert (Ha : PaiNNInteraction.aggregate blk a out = (Raise RuntimeError, out)).
  { unfold PaiNNInteraction.aggregate.
    rewrite (bind_ok _ _ _ _ _ _ _ Hsc). apply bind_raise.
    unfold PaiNNInteraction.vector_messages. apply bind_raise. exact Hc. }
  split; [exists sc; split; assumption|]. split; [exact Ha|].
  unfold PaiNNInteraction.forward. now apply bind_raise.
Qed.

Lemma interaction_forward_raises_on_spatial_major_layout_witness :
  PaiNNInteraction.forward Examples.interaction1 Examples.args1_documented []
  = (Raise RuntimeError, []).
Proof.
  refine (proj2 (proj2 (interaction_forward_raises_on_spatial_major_layout
                          Examples.interaction1 Examples.args1_documented 2 2 []
                          _ _ _ _ _ _ _ _))).
  - simpl. lia.
  - reflexivity.
  - reflexivity.
  - simpl. intros z [<-|[<-|[]]]; lia.
  - simpl. intros z [<-|[<-|[]]]; lia.
  - reflexivity.
  - reflexivity.
  - reflexivity.
Defined.

(** ** What is written to standard output *)

Lemma silent_ret : forall A (a : A), silent (ret a).
Proof. intros A a out. reflexivity. Qed.

Lemma silent_raise : forall A e, silent (@raise A e).
Proof. intros A e out. reflexivity. Qed.

Lemma silent_bind : forall A B (m : py A) (k : A -> py B),
  silent m -> (forall a, silent (k a)) -> silent (bind m k).
Proof.
  intros A B m k Hm Hk out. unfold bind.
  specialize (Hm out). destruct (m out) as [[a|e] o]; simpl in Hm; subst o.
  - apply Hk.
  - reflexivity.
Qed.

Ltac silent_cases :=
  intro out;
  repeat match goal with
         | |- context [match ?x with _ => _ end] => destruct x
         end;
  reflexivity.

Lemma silent_tbin : forall f a b, silent (tbin f a b).
Proof. intros f a b. unfold tbin. silent_cases. Qed.

Lemma silent_norm_last : forall t, silent (norm_last t).
Proof. intro t. unfold norm_last. silent_cases. Qed.

Lemma silent_linear : forall L x, silent (linear L x).
Proof. intros L x. unfold linear. silent_cases. Qed.

Lemma silent_dense : forall L act x, silent (dense L act x).
Proof.
  intros L act x. unfold dense. apply silent_bind; [apply silent_linear|].
  intro y. destruct act; apply silent_ret.
Qed.

Lemma silent_view_m1 : forall r c t, silent (view_m1 r c t).
Proof. intros r c t. unfold view_m1. silent_cases. Qed.

Lemma silent_einsum_bci : forall x y, silent (einsum_bci_bcj_bcij x y).
Proof. intros x y. unfold einsum_bci_bcj_bcij. silent_cases. Qed.

Lemma silent_einsum_brc : forall w t, silent (einsum_brc_bcij_brij w t).
Proof. intros w t. unfold einsum_brc_bcij_brij. silent_cases. Qed.

Lemma silent_einsum_bfij : forall t v, silent (einsum_bfij_bfj_bfi t v).
Proof. intros t v. unfold einsum_bfij_bfj_bfi. silent_cases. Qed.

Lemma silent_einsum_bvc : forall x w, silent (einsum_bvc_bl_blc x w).
Proof. intros x w. unfold einsum_bvc_bl_blc. silent_cases. Qed.

Lemma silent_transpose : forall args, silent (torch_transpose args).
Proof. intro args. unfold torch_transpose. silent_cases. Qed.

Lemma silent_index_rows : forall x idx, silent (index_rows x idx).
Proof. intros x idx. unfold index_rows. silent_cases. Qed.

Lemma silent_split : forall x n, silent (torch_split_last x n).
Proof. intros x n. unfold torch_split_last. silent_cases. Qed.

Lemma silent_unpack2 : forall A (l : list A), silent (unpack2 l).
Proof. intros A l. unfold unpack2. silent_cases. Qed.

Lemma silent_unpack3 : forall A (l : list A), silent (unpack3 l).
Proof. intros A l. unfold unpack3. silent_cases. Qed.

Lemma silent_cat_last : forall a b, silent (cat_last a b).
Proof. intros a b. unfold cat_last. silent_cases. Qed.

Lemma silent_sum_keepdim : forall t d, silent (torch_sum_keepdim t d).
Proof. intros t d. unfold torch_sum_keepdim. silent_cases. Qed.

Lemma silent_scatter_add : forall x idx n, silent (scatter_add x idx n).
Proof. intros x idx n. unfold scatter_add. silent_cases. Qed.

Create HintDb silent.

#[local] Hint Resolve silent_ret silent_raise silent_tbin silent_norm_last silent_linear
  silent_dense silent_view_m1 silent_einsum_bci silent_einsum_brc silent_einsum_bfij
  silent_einsum_bvc silent_transpose silent_index_rows silent_split silent_unpack2
  silent_unpack3 silent_cat_last silent_sum_keepdim silent_scatter_add : silent.

Ltac silent_chain :=
  first
    [ solve [auto with silent]
    | apply silent_bind; [silent_chain | intro; silent_chain]
    | match goal with
      | x : (_ * _)%type |- _ => destruct x; silent_chain
      end
    | progress cbv beta iota zeta; silent_chain ].

(** The mixing block never writes to standard output, whether it returns
    or raises. *)
Theorem mixing_forward_silent :
  forall (blk : PaiNNMixing.t) (q mu dtm : tensor) (out : stdout),
    snd (PaiNNMixing.forward blk q mu dtm out) = out.
Proof.
  intros blk q mu dtm.
  change (silent (PaiNNMixing.forward blk q mu dtm)).
  unfold PaiNNMixing.forward, PaiNNMixing.intra, PaiNNMixing.scalar_update,
         PaiNNMixing.vector_update, PaiNNMixing.mu_channel_mix,
         PaiNNMixing.intraatomic_context_net, tadd, tmul.
  silent_chain.
Qed.

Lemma one_line_of_silent : forall A (m : py A), silent m -> writes_at_most_one_line m.
Proof. intros A m H out. left. apply H. Qed.

Lemma one_line_bind_silent_l : forall A B (m : py A) (k : A -> py B),
  silent m -> (forall a, writes_at_most_one_line (k a)) ->
  writes_at_most_one_line (bind m k).
Proof.
  intros A B m k Hm Hk out. unfold bind.
  specialize (Hm out). destruct (m out) as [[a|e] o]; simpl in Hm; subst o.
  - apply Hk.
  - now left.
Qed.

Lemma one_line_bind_silent_r : forall A B (m : py A) (k : A -> py B),
  writes_at_most_one_line m -> (forall a, silent (k a)) ->
  writes_at_most_one_line (bind m k).
Proof.
  intros A B m k Hm Hk out. unfold bind.
  specialize (Hm out). destruct (m out) as [[a|e] o]; simpl in Hm.
  - rewrite (Hk a o). exact Hm.
  - exact Hm.
Qed.

Lemma compression_forward_one_line : forall L v,
  writes_at_most_one_line (EquivariantCompressionLayer.forward L v).
Proof.
  intros L v. unfold EquivariantCompressionLayer.forward.
  apply one_line_bind_silent_l.
  - unfold EquivariantCompressionLayer.scalar_weights,
           EquivariantCompressionLayer.fc_scalar_weights.
    silent_chain.
  - intro w. apply one_line_bind_silent_r.
    + intro out. now right.
    + intros []. silent_chain.
Qed.

Lemma scalar_aggregate_silent : forall blk a,
  silent (PaiNNInteraction.scalar_aggregate blk a).
Proof.
  intros blk a.
  unfold PaiNNInteraction.scalar_aggregate, PaiNNInteraction.gather,
         PaiNNInteraction.filter_split, PaiNNInteraction.interatomic_context_net, tmul.
  silent_chain.
Qed.

(** A call of the interaction block writes nothing or exactly one empty
    line to standard output, whatever its arguments. *)
Theorem interaction_forward_writes_at_most_one_line :
  forall (blk : PaiNNInteraction.t) (a : PaiNNInteraction.args) (out : stdout),
    snd (PaiNNInteraction.forward blk a out) = out
    \/ snd (PaiNNInteraction.forward blk a out) = out ++ [newline].
Proof.
  intros blk a.
  change (writes_at_most_one_line (PaiNNInteraction.forward blk a)).
  unfold PaiNNInteraction.forward.
  apply one_line_bind_silent_r.
  - unfold PaiNNInteraction.aggregate.
    apply one_line_bind_silent_l; [apply scalar_aggregate_silent|].
    intro sc. apply one_line_bind_silent_r.
    + unfold PaiNNInteraction.vector_messages.
      apply one_line_bind_silent_r.
      * unfold call_module. apply compression_forward_one_line.
      * intro c. unfold tmul, tadd. silent_chain.
    + intro dmu_e. silent_chain.
  - intros s out. now rewrite interaction_update_raises.
Qed.

(** ** PaiNNMixing: the widths it accepts *)

Lemma linear_ok_last : forall L x out y out',
  linear L x out = (Ok y, out') -> exists S, shape x = S ++ [in_features L].
Proof.
  intros L x out y out'. unfold linear.
  destruct (rev (shape x)) as [|d r] eqn:E; [discriminate|].
  destruct (Nat.eqb_spec d (in_features L)) as [->|_]; [|discriminate].
  intros _. exists (rev r).
  rewrite <- (rev_involutive (shape x)), E. reflexivity.
Qed.

Lemma dense_ok_last : forall L act x out y out',
  dense L act x out = (Ok y, out') -> exists S, shape x = S ++ [in_features L].
Proof.
  intros L act x out y out' H. unfold dense in H.
  apply bind_inv_ok in H. destruct H as (z & o & Hz & _).
  now apply linear_ok_last in Hz.
Qed.

Lemma split_two_first : forall x S F out chunks out',
  0 < F -> shape x = S ++ [2 * F] ->
  torch_split_last x F out = (Ok chunks, out') ->
  exists c0 c1, chunks = [c0; c1] /\ shape c0 = S ++ [F].
Proof.
  intros x S F out chunks out' HF Hs. unfold torch_split_last.
  rewrite Hs, rev_snoc.
  destruct (Nat.eqb_spec F 0) as [E0|_]; [lia|].
  assert (Hn : Nat.max ((2 * F + F - 1) / F) 1 = 2).
  { replace ((2 * F + F - 1) / F) with 2; [reflexivity|].
    apply Nat.div_unique with (r := F - 1); lia. }
  rewrite Hn. cbn [seq map Nat.ltb Nat.leb Nat.sub].
  unfold ret. intro H. inversion H. do 2 eexists. split; [reflexivity|].
  unfold narrow_last. cbn [shape]. now rewrite Hs, removelast_last.
Qed.

Lemma unpack2_inv : forall A (l : list A) out a b out',
  unpack2 l out = (Ok (a, b), out') -> l = [a; b].
Proof.
  intros A l out a b out'. unfold unpack2.
  destruct l as [|x [|y [|z l]]]; try discriminate.
  unfold ret. intro H. now inversion H.
Qed.

Lemma sum_keepdim_m2_last : forall t S F out s out',
  shape t = S ++ [F] ->
  torch_sum_keepdim t (-2) out = (Ok s, out') ->
  exists S', shape s = S' ++ [F].
Proof.
  intros t S F out s out' Hs. unfold torch_sum_keepdim, norm_dim, rank.
  rewrite Hs, length_app. cbn [length].
  remember (Z.to_nat (-2 + Z.of_nat (length S + 1))) as k eqn:Hk.
  destruct ((0 <=? -2)%Z && (-2 <? Z.of_nat (length S + 1))%Z)%bool eqn:E1;
    [cbn in E1; discriminate|].
  destruct ((-2 <? 0)%Z && (- Z.of_nat (length S + 1) <=? -2)%Z)%bool eqn:E2;
    [|discriminate].
  apply andb_prop in E2. destruct E2 as [_ E2]. apply Z.leb_le in E2.
  assert (Hne : length S <> k) by lia.
  clear Hk E1 E2.
  unfold ret. intro H. inversion H. subst s out'. clear H.
  unfold sum_keepdim, rank. cbn [shape]. rewrite Hs, length_app. cbn [length].
  rewrite seq_app, map_app. cbn [seq map Nat.add].
  eexists. f_equal. f_equal.
  destruct (Nat.eqb_spec (length S) k); [contradiction|].
  now rewrite nth_middle.
Qed.

Lemma cat_last_ok_width : forall a b Sb F S n out c out',
  0 < F -> shape b = Sb ++ [F] ->
  cat_last a b out = (Ok c, out') ->
  shape c = S ++ [n] -> n <> F ->
  exists Sa, shape a = Sa ++ [n - F].
Proof.
  intros a b Sb F S n out c out' HF Hb. unfold cat_last.
  rewrite Hb, rev_snoc.
  destruct (rev (shape a)) as [|da ra] eqn:Ea; [discriminate|].
  assert (Hsa : shape a = rev ra ++ [da]).
  { rewrite <- (rev_involutive (shape a)), Ea. reflexivity. }
  destruct (list_eq_dec Nat.eq_dec ra (rev Sb)) as [_|_].
  - unfold ret. intro H. inversion H. subst c out'. cbn [shape].
    intros Hc Hn. apply app_inj_tail in Hc. destruct Hc as [_ Hc].
    exists (rev ra). rewrite Hsa. f_equal. f_equal. lia.
  - destruct (list_eq_dec Nat.eq_dec (shape a) [0]) as [_|_].
    + unfold ret. intro H. inversion H. subst c out'.
      rewrite Hb. intros Hc Hn. apply app_inj_tail in Hc. lia.
    + destruct (list_eq_dec Nat.eq_dec (Sb ++ [F]) [0]) as [E|_]; [|discriminate].
      apply (app_inj_tail Sb [] F 0) in E. lia.
Qed.

(** The mixing block can return only when [n_atom_basis] is 1: for width 0
    the split of line 178 yields one chunk where two are unpacked, and for
    every width of 2 or more the addition of line 191 raises. *)
Theorem mixing_forward_returns_only_for_width_one :
  forall (blk : PaiNNMixing.t) (q mu dtm : tensor) (out : stdout)
         (r : tensor * tensor) (out' : stdout),
    PaiNNMixing.forward blk q mu dtm out = (Ok r, out') ->
    PaiNNMixing.n_atom_basis blk = 1.
Proof.
  intros blk q mu dtm out r out' H.
  unfold PaiNNMixing.forward in H.
  apply bind_inv_ok in H. destruct H as (u & o1 & Hu & H).
  apply bind_inv_ok in H. destruct H as (q' & o2 & Hq' & _).
  set (F := PaiNNMixing.n_atom_basis blk) in *.
  pose proof Hu as Hintra.
  unfold PaiNNMixing.intra in Hu.
  apply bind_inv_ok in Hu. destruct Hu as (mu_mix & p1 & Hmix & Hu).
  apply bind_inv_ok in Hu. destruct Hu as (chunks & p2 & Hsp & Hu).
  apply bind_inv_ok in Hu. destruct Hu as ([mu_V mu_W] & p3 & Hun & Hu).
  apply bind_inv_ok in Hu. destruct Hu as (sq & p4 & Hsq & Hu).
  cbv zeta in Hu.
  apply bind_inv_ok in Hu. destruct Hu as (ctx & p5 & Hcat & Hu).
  apply bind_inv_ok in Hu. destruct Hu as (x & p6 & Hx & _).
  unfold PaiNNMixing.mu_channel_mix in Hmix.
  apply dense_inv in Hmix. destruct Hmix as [_ Hsmix]. cbn [out_features] in Hsmix.
  fold F in Hsmix, Hsp.
  apply unpack2_inv in Hun. subst chunks.
  destruct (Nat.eq_dec F 0) as [F0|F0].
  { exfalso. unfold torch_split_last in Hsp.
    rewrite Hsmix, rev_snoc, F0 in Hsp. cbn in Hsp. discriminate. }
  destruct (Nat.eq_dec F 1) as [F1|F1]; [exact F1|]. exfalso.
  assert (HF : 2 <= F) by lia.
  destruct (split_two_first mu_mix _ F p1 _ p2 ltac:(lia) Hsmix Hsp)
    as (c0 & c1 & Hch & Hc0).
  inversion Hch. subst c0 c1. clear Hch.
  destruct (sum_keepdim_m2_last (tmap (fun x0 => x0 ^ 2)%R mu_V) _ F p3 sq p4 Hc0 Hsq)
    as (S' & HS').
  unfold PaiNNMixing.intraatomic_context_net in Hx.
  apply bind_inv_ok in Hx. destruct Hx as (h & ph & Hh & _).
  apply dense_ok_last in Hh. destruct Hh as (Sc & Hsc). cbn [in_features] in Hsc.
  fold F in Hsc.
  match type of Hcat with
  | cat_last _ ?b _ = _ =>
      destruct (cat_last_ok_width q b S' F Sc (2 * F) p4 ctx p5 ltac:(lia) HS' Hcat Hsc
                  ltac:(lia)) as (Sq & Hsq0)
  end.
  replace (2 * F - F) with F in Hsq0 by lia.
  destruct (mixing_scalar_update_raises_wide blk q mu Sq out u o1 HF Hsq0 Hintra)
    as (e & He & _).
  rewrite He in Hq'. discriminate.
Qed.

Lemma mixing_forward_returns_only_for_width_one_witness :
  PaiNNMixing.n_atom_basis (Examples.mixing_zero 1 Examples.silu 0%R) = 1.
Proof.
  exact (mixing_forward_returns_only_for_width_one
           (Examples.mixing_zero 1 Examples.silu 0%R)
           (zeros [1; 1; 1]) (zeros [1; 3; 1]) (zeros [1; 1; 3; 3]) [] _ _ eq_refl).
Defined.

(** ** PaiNN: the forward pass without rounds *)

Lemma combine_nil : forall A B (l1 : list A) (l2 : list B),
  combine l1 l2 = [] -> l1 = [] \/ l2 = [].
Proof.
  intros A B [|x l1] [|y l2] H; auto. discriminate.
Qed.

(** [PaiNN.forward] returns only when no round runs, that is when the list
    of interaction blocks or the list of mixing blocks is empty.  It then
    emits the embedded scalar feature, with its electronic corrections, as
    the scalar representation and a tensor of zeros of shape
    [atoms, 3, 2 * width] as the vector representation. *)
Theorem painn_forward_returns_without_rounds :
  forall (m : PaiNN.t) (inp : PaiNN.inputs) (out : stdout)
         (r : PaiNN.outputs) (out' : stdout),
    PaiNN.forward m inp out = (Ok r, out') ->
    (PaiNN.interactions m = [] \/ PaiNN.mixing m = [])
    /\ exists q0 o n f s,
         (q <- PaiNN.embedding m (PaiNN.Z_ inp) ;;
          PaiNN.add_electronic (PaiNN.electronic_embeddings m) inp q) o = (Ok q0, out')
         /\ shape q0 = n :: f :: s
         /\ PaiNN.vector_representation r = zeros [n; 3; f * 2]
         /\ shape (PaiNN.scalar_representation r) = shape q0
         /\ forall a rest,
              get (PaiNN.scalar_representation r) (a :: rest) = get q0 (a :: rest).
Proof.
  intros m inp out r out' H. unfold PaiNN.forward in H. cbv zeta in H.
  apply bind_inv_ok in H. destruct H as (d_ij & o1 & _ & H).
  apply bind_inv_ok in H. destruct H as (dir_ij & o2 & _ & H).
  apply bind_inv_ok in H. destruct H as (phi_ij & o3 & _ & H).
  apply bind_inv_ok in H. destruct H as (fcut & o4 & _ & H).
  apply bind_inv_ok in H. destruct H as (f0 & o5 & _ & H).
  apply bind_inv_ok in H. destruct H as (filters & o6 & _ & H).
  apply bind_inv_ok in H. destruct H as (filter_list & o7 & _ & H).
  apply bind_inv_ok in H. destruct H as (qe & o8 & Hemb & H).
  apply bind_inv_ok in H. destruct H as (q0 & o9 & Hel & H).
  apply bind_inv_ok in H. destruct H as (q1 & o10 & Hun & H).
  apply bind_inv_ok in H. destruct H as (mu0 & o11 & Hmu & H).
  apply bind_inv_ok in H. destruct H as ([q2 mu2] & o12 & Hr & H).
  apply bind_inv_ok in H. destruct H as (q3 & o13 & Hsq & H).
  unfold ret in H. inversion H. subst r out'. clear H.
  destruct (combine (PaiNN.interactions m) (PaiNN.mixing m)) as [|blk rest] eqn:Hc.
  2: { exfalso.
       match type of Hr with
       | PaiNN.rounds ?b ?i ?fl ?d ?inp' ?n ?q ?mu ?o = _ =>
           destruct (rounds_raise b i fl d inp' n q mu o ltac:(discriminate))
             as (e & o' & He)
       end.
       rewrite He in Hr. discriminate. }
  split; [now apply combine_nil|].
  cbn [PaiNN.rounds] in Hr. unfold ret in Hr. inversion Hr. subst q2 mu2 o12. clear Hr.
  unfold unsqueeze1 in Hun.
  destruct (shape q0) as [|n s0] eqn:Hs0; [discriminate|].
  unfold ret in Hun. inversion Hun. subst q1 o10. clear Hun.
  cbn [shape] in Hmu. unfold PaiNN.initial_mu in Hmu.
  destruct s0 as [|f s]; [discriminate|].
  unfold ret in Hmu. inversion Hmu. subst mu0 o11. clear Hmu.
  unfold squeeze1 in Hsq. cbn [shape] in Hsq.
  unfold ret in Hsq. inversion Hsq. subst q3 o13. clear Hsq.
  exists q0, o7, n, f, s.
  split; [rewrite (bind_ok _ _ _ _ _ _ _ Hemb); exact Hel|].
  split; [exact Hs0|]. split; [reflexivity|].
  split; [cbn; now rewrite Hs0|].
  intros a rest. reflexivity.
Qed.

Lemma painn_forward_returns_without_rounds_witness :
  exists r,
    PaiNN.forward Examples.painn0 Examples.inputs1 [] = (Ok r, [])
    /\ PaiNN.vector_representation r = zeros [2; 3; 8]
    /\ shape (PaiNN.scalar_representation r) = [2; 4].
Proof.
  eexists. split; [reflexivity|].
  destruct (painn_forward_returns_without_rounds
              Examples.painn0 Examples.inputs1 [] _ [] eq_refl)
    as (_ & q0 & o & n & f & s & Hq0 & Hs & Hv & Hsh & _).
  cbv in Hq0. inversion Hq0. subst q0. cbn in Hs. inversion Hs. subst n f s.
  split; [exact Hv | exact Hsh].
Defined.

(** ** PaiNN: the halved basis width *)

Lemma bdim_one_r : forall w, bdim w 1 = Some w.
Proof.
  intro w. unfold bdim.
  destruct (Nat.eqb_spec w 1) as [->|_]; [reflexivity|].
  reflexivity.
Qed.

Lemma replicate_module_cons : forall A (fresh : nat -> A) n shared,
  0 < n -> exists rest, PaiNN.replicate_module fresh n shared = fresh 0 :: rest.
Proof.
  intros A fresh [|n] shared Hn; [lia|].
  unfold PaiNN.replicate_module. destruct shared; simpl; eauto.
Qed.

Lemma split_cases : forall x S d n out,
  shape x = S ++ [d] ->
  (exists c cs, torch_split_last x n out = (Ok (c :: cs), out))
  \/ torch_split_last x n out = (Raise RuntimeError, out).
Proof.
  intros x S d n out Hs. unfold torch_split_last. rewrite Hs, rev_snoc.
  destruct (n =? 0).
  - destruct (d =? 0); [left; do 2 eexists; reflexivity | now right].
  - left. cbv zeta.
    destruct (Nat.max ((d + n - 1) / n) 1) as [|k] eqn:E; [lia|].
    cbn [seq map]. do 2 eexists. reflexivity.
Qed.

Lemma norm_dim1_shape : forall t E c out,
  shape t = [E; c] ->
  exists d, torch_norm_dim1_keepdim t out = (Ok d, out) /\ shape d = [E; 1].
Proof.
  intros t E c out Hs. unfold torch_norm_dim1_keepdim, torch_sum_keepdim, rank.
  cbn [shape tmap]. rewrite Hs. cbn.
  eexists. split; [reflexivity|]. cbn. now rewrite Hs.
Qed.

Lemma context_net_wrong_width : forall blk x A w out,
  shape x = [A; 1; w] -> w <> PaiNNInteraction.n_atom_basis blk ->
  PaiNNInteraction.interatomic_context_net blk x out = (Raise RuntimeError, out).
Proof.
  intros blk x A w out Hs Hw.
  unfold PaiNNInteraction.interatomic_context_net, dense.
  do 2 apply bind_raise. unfold linear. rewrite Hs. cbn [rev app in_features].
  destruct (Nat.eqb_spec w (PaiNNInteraction.n_atom_basis blk));
    [contradiction | reflexivity].
Qed.

(** A model built by [__init__] for a basis width [B >= 1] and at least one
    round raises a RuntimeError on every input with [E] bond vectors, before
    anything is written, when its collaborators behave as documented (the
    radial basis appends an axis of [n_rbf] entries, the cutoff keeps the
    shape, the embedding has width [B]): the blocks are built for the
    halved width [B / 2], and the scalar feature handed to the first of them
    has width [B]. *)
Theorem painn_forward_raises_on_halved_basis :
  forall (B N : nat) (rb : tensor -> py tensor) (n_rbf : nat)
         (cut : tensor -> py tensor) (act : R -> R) (shared_i shared_f : bool)
         (eps : R) (emb : list Z -> py tensor)
         (fw : nat -> nat -> R) (fb : nat -> R)
         (fi : nat -> nat -> (R -> R) -> PaiNNInteraction.t)
         (fm : nat -> nat -> (R -> R) -> R -> PaiNNMixing.t)
         (inp : PaiNN.inputs) (E : nat) (out : stdout),
    0 < N -> 0 < B ->
    shape (PaiNN.Rij inp) = [E; 3] ->
    (forall d o, exists phi, rb d o = (Ok phi, o) /\ shape phi = shape d ++ [n_rbf]) ->
    (forall d o, exists fc, cut d o = (Ok fc, o) /\ shape fc = shape d) ->
    (forall zs o, exists q, emb zs o = (Ok q, o) /\ shape q = [length zs; B]) ->
    (forall i F a, PaiNNInteraction.n_atom_basis (fi i F a) = F) ->
    PaiNN.forward
      (PaiNN.init B N rb n_rbf cut act shared_i shared_f eps emb [] fw fb fi fm)
      inp out
    = (Raise RuntimeError, out).
Proof.
  intros B N rb n_rbf cut act shared_i shared_f eps emb fw fb fi fm inp E out
         HN HB HR Hrb Hcut Hemb Hfi.
  unfold PaiNN.forward, PaiNN.init. cbv zeta.
  cbn [PaiNN.radial_basis PaiNN.cutoff_fn PaiNN.filter_net PaiNN.share_filters
       PaiNN.n_interactions PaiNN.n_atom_basis PaiNN.embedding
       PaiNN.electronic_embeddings PaiNN.interactions PaiNN.mixing
       PaiNN.add_electronic].
  destruct (norm_dim1_shape (PaiNN.Rij inp) E 3 out HR) as (d_ij & Hd & Hsd).
  rewrite (bind_ok _ _ _ _ _ _ _ Hd).
  assert (Hdir : exists dir, tdiv (PaiNN.Rij inp) d_ij out = (Ok dir, out)).
  { unfold tdiv, tbin, broadcast_shapes. rewrite HR, Hsd. cbn [rev app broadcast_rev].
    rewrite bdim_same. cbn. eexists. reflexivity. }
  destruct Hdir as (dir & Hdir). rewrite (bind_ok _ _ _ _ _ _ _ Hdir).
  destruct (Hrb d_ij out) as (phi & Hphi & Hsphi). rewrite Hsd in Hsphi. cbn in Hsphi.
  rewrite (bind_ok _ _ _ _ _ _ _ Hphi).
  destruct (Hcut d_ij out) as (fc & Hfc & Hsfc). rewrite Hsd in Hsfc.
  rewrite (bind_ok _ _ _ _ _ _ _ Hfc).
  match goal with
  | |- context [dense ?L None phi] => set (fnet := L)
  end.
  assert (Hin : in_features fnet = n_rbf) by (subst fnet; now destruct shared_f).
  assert (Hf : exists f, dense fnet None phi out = (Ok f, out)
                         /\ shape f = [E; 1; out_features fnet]).
  { unfold dense.
    erewrite bind_ok by (apply linear_shape_rank3 with (1 := Hsphi); now rewrite Hin).
    eexists. split; reflexivity. }
  destruct Hf as (f & Hf & Hsf). rewrite (bind_ok _ _ _ _ _ _ _ Hf).
  assert (Hfl : exists filters, tmul f (unsqueeze_last fc) out = (Ok filters, out)
                                /\ shape filters = [E; 1; out_features fnet]).
  { unfold tmul, tbin. cbn [shape unsqueeze_last]. rewrite Hsf, Hsfc. cbn [app].
    rewrite broadcast_filter, bdim_one_r. eexists. split; reflexivity. }
  destruct Hfl as (filters & Hfl & Hsfl). rewrite (bind_ok _ _ _ _ _ _ _ Hfl).
  assert (Hlist :
            (exists W rest,
                (if shared_f then ret (repeat filters N)
                 else torch_split_last filters (3 * (B / 2))) out
                = (Ok (W :: rest), out))
            \/ (if shared_f then ret (repeat filters N)
                else torch_split_last filters (3 * (B / 2))) out
               = (Raise RuntimeError, out)).
  { destruct shared_f.
    - left. destruct N as [|N']; [lia|]. simpl. do 2 eexists. reflexivity.
    - apply split_cases with (S := [E; 1]) (d := out_features fnet). exact Hsfl. }
  destruct Hlist as [(W & rest & Hlist)|Hlist];
    [rewrite (bind_ok _ _ _ _ _ _ _ Hlist) | now apply bind_raise].
  destruct (Hemb (PaiNN.Z_ inp) out) as (q & Hq & Hsq).
  rewrite (bind_ok _ _ _ _ _ _ _ Hq).
  rewrite (bind_ok _ _ _ _ _ _ _ (eq_refl : ret q out = (Ok q, out))).
  assert (Hun : unsqueeze1 q out
                = (Ok (mkT [length (PaiNN.Z_ inp); 1; B]
                           (fun idx =>
                              match idx with
                              | a :: _ :: rest0 => get q (a :: rest0)
                              | _ => 0%R
                              end)), out)).
  { unfold unsqueeze1. now rewrite Hsq. }
  rewrite (bind_ok _ _ _ _ _ _ _ Hun). cbn [shape PaiNN.initial_mu].
  rewrite (bind_ok _ _ _ _ _ _ _
             (eq_refl : ret (zeros [length (PaiNN.Z_ inp); 3; B * 2]) out = (Ok _, out))).
  apply bind_raise.
  destruct (replicate_module_cons _ (fun i => fi i (B / 2) act) N shared_i HN)
    as (ri & ->).
  destruct (replicate_module_cons _ (fun i => fm i (B / 2) act eps) N shared_i HN)
    as (rm & ->).
  cbn [combine PaiNN.rounds PaiNN.list_item nth_error].
  rewrite (bind_ok _ _ _ _ _ _ _ (eq_refl : ret W out = (Ok W, out))).
  apply bind_raise. apply forward_raises_with_gather.
  unfold PaiNNInteraction.gather. apply bind_raise.
  cbn [PaiNNInteraction.q].
  apply context_net_wrong_width with (A := length (PaiNN.Z_ inp)) (w := B).
  - reflexivity.
  - rewrite Hfi. pose proof (Nat.div_lt B 2 HB ltac:(lia)). lia.
Qed.

Lemma painn_forward_raises_on_halved_basis_witness :
  PaiNN.forward Examples.painn1 Examples.inputs1 [] = (Raise RuntimeError, []).
Proof.
  unfold Examples.painn1.
  apply painn_forward_raises_on_halved_basis with (E := 2).
  - lia.
  - lia.
  - reflexivity.
  - intros d o. eexists. split; reflexivity.
  - intros d o. eexists. split; reflexivity.
  - intros zs o. eexists. split; reflexivity.
  - reflexivity.
Defined.

(** ** PaiNNMixing: the width of the vector feature *)

(** A mixing block of width [F >= 1] raises a RuntimeError at its first
    statement (line 177), before anything else is evaluated, when the
    vector feature has [2 * F] channels: the channel mix is a linear layer
    from [F] to [2 * F] channels. *)
Theorem mixing_forward_raises_on_double_width_mu :
  forall (blk : PaiNNMixing.t) (q mu dtm : tensor) (S : list nat) (out : stdout),
    0 < PaiNNMixing.n_atom_basis blk ->
    shape mu = S ++ [2 * PaiNNMixing.n_atom_basis blk] ->
    PaiNNMixing.mu_channel_mix blk mu out = (Raise RuntimeError, out)
    /\ PaiNNMixing.forward blk q mu dtm out = (Raise RuntimeError, out).
Proof.
  intros blk q mu dtm S out HF Hs.
  assert (Hm : PaiNNMixing.mu_channel_mix blk mu out = (Raise RuntimeError, out)).
  { unfold PaiNNMixing.mu_channel_mix, dense. apply bind_raise.
    unfold linear. rewrite Hs, rev_snoc. cbn [in_features].
    destruct (Nat.eqb_spec (2 * PaiNNMixing.n_atom_basis blk)
                (PaiNNMixing.n_atom_basis blk)); [lia | reflexivity]. }
  split; [exact Hm|].
  unfold PaiNNMixing.forward, PaiNNMixing.intra. now do 2 apply bind_raise.
Qed.

Lemma mixing_forward_raises_on_double_width_mu_witness :
  PaiNNMixing.forward Examples.mixing2 Examples.q2 (zeros [1; 3; 4]) Examples.dtm2 []
  = (Raise RuntimeError, []).
Proof.
  apply (mixing_forward_raises_on_double_width_mu
           Examples.mixing2 Examples.q2 (zeros [1; 3; 4]) Examples.dtm2 [1; 3] []).
  - simpl. lia.
  - reflexivity.
Defined.

(** ** PaiNNInteraction: what the aggregates sum *)

Lemma silent_ok : forall A (m : py A) out r out',
  silent m -> m out = (r, out') -> out' = out.
Proof.
  intros A m out r out' Hs H. specialize (Hs out). rewrite H in Hs. exact Hs.
Qed.

Lemma gather_inv : forall blk a out xj muj mui out1,
  PaiNNInteraction.gather blk a out = (Ok (xj, muj, mui), out1) ->
  out1 = out
  /\ exists x,
       PaiNNInteraction.interatomic_context_net blk (PaiNNInteraction.q a) out = (Ok x, out)
       /\ index_rows x (PaiNNInteraction.idx_j a) out = (Ok xj, out)
       /\ index_rows (PaiNNInteraction.mu a) (PaiNNInteraction.idx_j a) out = (Ok muj, out)
       /\ index_rows (PaiNNInteraction.mu a) (PaiNNInteraction.idx_i a) out = (Ok mui, out).
Proof.
  intros blk a out xj muj mui out1 H. unfold PaiNNInteraction.gather in H.
  apply bind_inv_ok in H. destruct H as (x & o1 & Hx & H).
  assert (o1 = out) as ->.
  { eapply silent_ok; [|exact Hx].
    unfold PaiNNInteraction.interatomic_context_net. silent_chain. }
  apply bind_inv_ok in H. destruct H as (xj' & o2 & Hxj & H).
  assert (o2 = out) as -> by (eapply silent_ok; [apply silent_index_rows | exact Hxj]).
  apply bind_inv_ok in H. destruct H as (muj' & o3 & Hmuj & H).
  assert (o3 = out) as -> by (eapply silent_ok; [apply silent_index_rows | exact Hmuj]).
  apply bind_inv_ok in H. destruct H as (mui' & o4 & Hmui & H).
  assert (o4 = out) as -> by (eapply silent_ok; [apply silent_index_rows | exact Hmui]).
  unfold ret in H. inversion H. subst.
  split; [reflexivity|]. exists x. repeat split; assumption.
Qed.

Lemma filter_split_inv : forall blk a xj out c0 c1 c2 out1,
  PaiNNInteraction.filter_split blk a xj out = (Ok (c0, c1, c2), out1) ->
  out1 = out
  /\ exists X,
       tmul (PaiNNInteraction.Wij a) xj out = (Ok X, out)
       /\ torch_split_last X (PaiNNInteraction.n_atom_basis blk) out
          = (Ok [c0; c1; c2], out).
Proof.
  intros blk a xj out c0 c1 c2 out1 H. unfold PaiNNInteraction.filter_split in H.
  apply bind_inv_ok in H. destruct H as (X & o1 & HX & H).
  assert (o1 = out) as -> by (eapply silent_ok; [apply silent_tbin | exact HX]).
  apply bind_inv_ok in H. destruct H as (chunks & o2 & Hsp & H).
  assert (o2 = out) as -> by (eapply silent_ok; [apply silent_split | exact Hsp]).
  assert (out1 = out) as -> by (eapply silent_ok; [apply silent_unpack3 | exact H]).
  apply unpack3_inv in H. subst chunks.
  split; [reflexivity|]. exists X. split; assumption.
Qed.

(** Lines 122 to 129, read back from a result. *)
Lemma scalar_aggregate_inv : forall blk a out sc out1,
  PaiNNInteraction.scalar_aggregate blk a out = (Ok sc, out1) ->
  out1 = out
  /\ (exists x xj X,
         PaiNNInteraction.interatomic_context_net blk (PaiNNInteraction.q a) out
         = (Ok x, out)
         /\ index_rows x (PaiNNInteraction.idx_j a) out = (Ok xj, out)
         /\ index_rows (PaiNNInteraction.mu a) (PaiNNInteraction.idx_j a) out
            = (Ok (PaiNNInteraction.muj sc), out)
         /\ index_rows (PaiNNInteraction.mu a) (PaiNNInteraction.idx_i a) out
            = (Ok (PaiNNInteraction.mui sc), out)
         /\ tmul (PaiNNInteraction.Wij a) xj out = (Ok X, out)
         /\ torch_split_last X (PaiNNInteraction.n_atom_basis blk) out
            = (Ok [PaiNNInteraction.dq_edges sc; PaiNNInteraction.dmuR sc;
                   PaiNNInteraction.dmumu sc], out))
  /\ scatter_add (PaiNNInteraction.dq_edges sc) (PaiNNInteraction.idx_i a)
                 (PaiNNInteraction.n_atoms a) out
     = (Ok (PaiNNInteraction.dq sc), out).
Proof.
  intros blk a out sc out1 H. unfold PaiNNInteraction.scalar_aggregate in H.
  apply bind_inv_ok in H. destruct H as ([[xj muj] mui] & o1 & Hg & H).
  apply gather_inv in Hg. destruct Hg as (-> & x & Hx & Hxj & Hmuj & Hmui).
  cbv beta iota zeta in H.
  apply bind_inv_ok in H. destruct H as ([[dq_e dmuR] dmumu] & o2 & Hf & H).
  apply filter_split_inv in Hf. destruct Hf as (-> & X & HX & Hsp).
  cbv beta iota zeta in H.
  apply bind_inv_ok in H. destruct H as (dq & o3 & Hdq & H).
  assert (o3 = out) as -> by (eapply silent_ok; [apply silent_scatter_add | exact Hdq]).
  unfold ret in H. inversion H. subst sc out1.
  cbn [PaiNNInteraction.muj PaiNNInteraction.mui PaiNNInteraction.dq_edges
       PaiNNInteraction.dmuR PaiNNInteraction.dmumu PaiNNInteraction.dq].
  split; [reflexivity|]. split; [|exact Hdq].
  exists x, xj, X. repeat split; assumption.
Qed.





(** An elementwise operation on two rank-3 tensors with the same leading
    size. *)
Lemma tbin_rank3 : forall f a b E a1 a2 b1 b2 d1 d2 out,
  shape a = [E; a1; a2] -> shape b = [E; b1; b2] ->
  bdim a1 b1 = Some d1 -> bdim a2 b2 = Some d2 ->
  exists r,
    tbin f a b out = (Ok r, out)
    /\ shape r = [E; d1; d2]
    /\ forall e i j,
         e < E ->
         get r [e; i; j] = f (get a [e; bix a1 i; bix a2 j]) (get b [e; bix b1 i; bix b2 j]).
Proof.
  intros f a b E a1 a2 b1 b2 d1 d2 out Ha Hb H1 H2. unfold tbin.
  rewrite Ha, Hb. unfold broadcast_shapes. simpl.
  rewrite H2, H1, bdim_same. simpl.
  eexists. split; [reflexivity|]. split; [reflexivity|].
  intros e i j He. cbn [get]. unfold bidx. cbn [length Nat.sub skipn bix_list].
  now rewrite (bix_lt E e He).
Qed.

(** The compression layer on an input of shape [b, V, c]: the weights and
    the pooled vectors. *)
Lemma compression_forward_value : forall L vectors b c out,
  shape vectors = [b; EquivariantCompressionLayer.num_vector_channels L; c] ->
  exists weights r,
    EquivariantCompressionLayer.scalar_weights L vectors out = (Ok weights, out)
    /\ shape weights = [b; EquivariantCompressionLayer.compressed_channels L]
    /\ EquivariantCompressionLayer.forward L vectors out = (Ok r, out ++ [newline])
    /\ shape r = [b; EquivariantCompressionLayer.compressed_channels L; c]
    /\ forall ib l ic,
         ib < b ->
         get r [ib; l; ic]
         = (get weights [ib; l]
            * Rsum (EquivariantCompressionLayer.num_vector_channels L)
                   (fun v => get vectors [ib; v; ic]))%R.
Proof.
  intros L vectors b c out Hs.
  destruct (compression_weights_any_width L vectors b c out Hs) as (w & Hsw & Hw).
  exists w. eexists. split; [exact Hw|]. split; [exact Hsw|].
  unfold EquivariantCompressionLayer.forward.
  rewrite (bind_ok _ _ _ _ _ _ _ Hw).
  unfold print at 1. unfold bind at 1.
  unfold einsum_bvc_bl_blc. rewrite Hs, Hsw, bdim_same.
  unfold bind, ret. split; [reflexivity|]. split; [reflexivity|].
  intros ib l ic Hib. simpl.
  rewrite (bix_lt b ib Hib).
  apply (Rsum_scal_r _ (fun v => get vectors [ib; v; ic])).
Qed.

(** Lines 122 to 129 on well-formed arguments: the shapes and the entries
    of the three blocks of messages. *)
Lemma scalar_aggregate_fields : forall blk a A smu out,
  0 < PaiNNInteraction.n_atom_basis blk ->
  shape (PaiNNInteraction.q a) = [A; 1; PaiNNInteraction.n_atom_basis blk] ->
  shape (PaiNNInteraction.mu a) = A :: smu ->
  (forall z, In z (PaiNNInteraction.idx_j a) -> (0 <= z < Z.of_nat A)%Z) ->
  (forall z, In z (PaiNNInteraction.idx_i a) -> (0 <= z < Z.of_nat A)%Z) ->
  shape (PaiNNInteraction.Wij a)
  = [length (PaiNNInteraction.idx_j a); 1; 3 * PaiNNInteraction.n_atom_basis blk] ->
  length (PaiNNInteraction.idx_i a) = length (PaiNNInteraction.idx_j a) ->
  PaiNNInteraction.n_atoms a = A ->
  exists x sc,
    PaiNNInteraction.interatomic_context_net blk (PaiNNInteraction.q a) out = (Ok x, out)
    /\ PaiNNInteraction.scalar_aggregate blk a out = (Ok sc, out)
    /\ shape (PaiNNInteraction.muj sc) = length (PaiNNInteraction.idx_j a) :: smu
    /\ shape (PaiNNInteraction.dq_edges sc)
       = [length (PaiNNInteraction.idx_j a); 1; PaiNNInteraction.n_atom_basis blk]
    /\ shape (PaiNNInteraction.dmuR sc)
       = [length (PaiNNInteraction.idx_j a); 1; PaiNNInteraction.n_atom_basis blk]
    /\ shape (PaiNNInteraction.dmumu sc)
       = [length (PaiNNInteraction.idx_j a); 1; PaiNNInteraction.n_atom_basis blk]
    /\ shape (PaiNNInteraction.dq sc) = [A; 1; PaiNNInteraction.n_atom_basis blk]
    /\ (forall e rest,
           get (PaiNNInteraction.muj sc) (e :: rest)
           = get (PaiNNInteraction.mu a)
                 (Z.to_nat (nth e (PaiNNInteraction.idx_j a) 0%Z) :: rest))
    /\ (forall e f,
           e < length (PaiNNInteraction.idx_j a) ->
           get (PaiNNInteraction.dq_edges sc) [e; 0%nat; f]
           = (get (PaiNNInteraction.Wij a) [e; 0%nat; f]
              * get x [Z.to_nat (nth e (PaiNNInteraction.idx_j a) 0%Z); 0%nat; f])%R
           /\ get (PaiNNInteraction.dmuR sc) [e; 0%nat; f]
              = (get (PaiNNInteraction.Wij a)
                     [e; 0%nat; (PaiNNInteraction.n_atom_basis blk + f)%nat]
                 * get x [Z.to_nat (nth e (PaiNNInteraction.idx_j a) 0%Z); 0%nat;
                          (PaiNNInteraction.n_atom_basis blk + f)%nat])%R
           /\ get (PaiNNInteraction.dmumu sc) [e; 0%nat; f]
              = (get (PaiNNInteraction.Wij a)
                     [e; 0%nat; (2 * PaiNNInteraction.n_atom_basis blk + f)%nat]
                 * get x [Z.to_nat (nth e (PaiNNInteraction.idx_j a) 0%Z); 0%nat;
                          (2 * PaiNNInteraction.n_atom_basis blk + f)%nat])%R).
Proof.
  intros blk a A smu out HF Hq Hmu Hj Hi HW Hlen Hn.
  destruct (scalar_aggregate_value blk a A smu out HF Hq Hmu Hj Hi HW Hlen Hn)
    as (x & sc & Hx & Hsx & Hsc & Hsmuj & Hsdq & Hsq & Hmuj & _ & Hmsg).
  exists x, sc. split; [exact Hx|]. split; [exact Hsc|].
  split; [exact Hsmuj|]. split; [exact Hsdq|].
  destruct (scalar_aggregate_inv blk a out sc out Hsc)
    as (_ & (x' & xj & X & Hx' & Hxj & _ & _ & HX & Hsp) & _).
  rewrite Hx in Hx'. inversion Hx'. subst x'. clear Hx'.
  destruct (index_rows_ok x A _ (PaiNNInteraction.idx_j a) out Hsx)
    as (xj' & Hxj' & Hsxj).
  { intros z Hz. apply in_range_wraps. now apply Hj. }
  rewrite Hxj in Hxj'. inversion Hxj'. subst xj'. clear Hxj'.
  destruct (filter_product_value (PaiNNInteraction.Wij a) xj
              (length (PaiNNInteraction.idx_j a))
              (3 * PaiNNInteraction.n_atom_basis blk) out ltac:(lia) HW Hsxj)
    as (X' & HX' & HsX & _).
  rewrite HX in HX'. inversion HX'. subst X'. clear HX'.
  rewrite (split_three_chunks X [length (PaiNNInteraction.idx_j a); 1]
             (PaiNNInteraction.n_atom_basis blk) out HF HsX) in Hsp.
  injection Hsp as H0 H1 H2.
  assert (Hsn : forall s, shape (narrow_last X s (PaiNNInteraction.n_atom_basis blk))
                          = [length (PaiNNInteraction.idx_j a); 1;
                             PaiNNInteraction.n_atom_basis blk]).
  { intro s. unfold narrow_last. cbn [shape]. now rewrite HsX. }
  split; [rewrite <- H1; apply Hsn|]. split; [rewrite <- H2; apply Hsn|].
  split; [exact Hsq|]. split; [exact Hmuj|].
  intros e f He. exact (Hmsg e f He).
Qed.


Lemma tbin_rank3_mismatch : forall f a b E a1 a2 b1 b2 out,
  shape a = [E; a1; a2] -> shape b = [E; b1; b2] -> bdim a2 b2 = None ->
  tbin f a b out = (Raise RuntimeError, out).
Proof.
  intros f a b E a1 a2 b1 b2 out Ha Hb H. unfold tbin.
  rewrite Ha, Hb. unfold broadcast_shapes. simpl. now rewrite H.
Qed.

(** With the vector feature laid out [atoms, 2F, 3] and F neither 1 nor 3,
    the product [dmumu * compressed_vj] of line 131 cannot be broadcast:
    the block raises a RuntimeError after the empty line of line 130, and
    no [dmu] is produced. *)
Lemma aggregate_raises_on_other_widths : forall blk a A out,
  0 < PaiNNInteraction.n_atom_basis blk ->
  PaiNNInteraction.n_atom_basis blk <> 1 ->
  PaiNNInteraction.n_atom_basis blk <> 3 ->
  shape (PaiNNInteraction.q a) = [A; 1; PaiNNInteraction.n_atom_basis blk] ->
  shape (PaiNNInteraction.mu a) = [A; 2 * PaiNNInteraction.n_atom_basis blk; 3] ->
  shape (PaiNNInteraction.dir_ij a) = [length (PaiNNInteraction.idx_j a); 3] ->
  (forall z, In z (PaiNNInteraction.idx_j a) -> (0 <= z < Z.of_nat A)%Z) ->
  (forall z, In z (PaiNNInteraction.idx_i a) -> (0 <= z < Z.of_nat A)%Z) ->
  shape (PaiNNInteraction.Wij a)
  = [length (PaiNNInteraction.idx_j a); 1; 3 * PaiNNInteraction.n_atom_basis blk] ->
  length (PaiNNInteraction.idx_i a) = length (PaiNNInteraction.idx_j a) ->
  PaiNNInteraction.n_atoms a = A ->
  PaiNNInteraction.aggregate blk a out = (Raise RuntimeError, out ++ [newline]).
Proof.
  intros blk a A out HF HF1 HF3 Hq Hmu Hdir Hj Hi HW Hlen Hn.
  set (F := PaiNNInteraction.n_atom_basis blk) in *.
  set (E := length (PaiNNInteraction.idx_j a)) in *.
  destruct (scalar_aggregate_fields blk a A [2 * F; 3] out HF Hq Hmu Hj Hi HW Hlen Hn)
    as (x & sc & _ & Hsc & Hsmuj & _ & HsR & Hsmm & _).
  fold F E in Hsmuj, HsR, Hsmm.
  assert (Hsmuj' : shape (PaiNNInteraction.muj sc)
                   = [E; EquivariantCompressionLayer.num_vector_channels
                           (PaiNNInteraction.compression_layer blk); 3]).
  { rewrite Hsmuj. cbn. fold F. f_equal. f_equal. lia. }
  destruct (compression_forward_value (PaiNNInteraction.compression_layer blk)
              (PaiNNInteraction.muj sc) E 3 out Hsmuj')
    as (weights & cvj & _ & _ & Hc & Hscvj & _).
  cbn [PaiNNInteraction.compression_layer
       EquivariantCompressionLayer.compressed_channels] in Hscvj.
  fold F in Hscvj.
  assert (Hsd : shape (unsqueeze_last (PaiNNInteraction.dir_ij a)) = [E; 3; 1])
    by (unfold unsqueeze_last; cbn [shape]; now rewrite Hdir).
  destruct (tbin_rank3 Rmult (PaiNNInteraction.dmuR sc)
              (unsqueeze_last (PaiNNInteraction.dir_ij a))
              E 1 F 3 1 3 F (out ++ [newline]) HsR Hsd eq_refl (bdim_one_r F))
    as (l & Hl & _).
  assert (Hb : bdim F 3 = None).
  { unfold bdim.
    destruct (Nat.eqb_spec F 3); [contradiction|].
    destruct (Nat.eqb_spec F 1); [contradiction | reflexivity]. }
  unfold PaiNNInteraction.aggregate.
  rewrite (bind_ok _ _ _ _ _ _ _ Hsc). apply bind_raise.
  unfold PaiNNInteraction.vector_messages. cbn [call_module]. unfold tmul.
  rewrite (bind_ok _ _ _ _ _ _ _ Hc), (bind_ok _ _ _ _ _ _ _ Hl).
  apply bind_raise.
  exact (tbin_rank3_mismatch Rmult _ _ E 1 F F 3 _ Hsmm Hscvj Hb).
Qed.



